(** * abide: snapshot assertions — a shallow embedding and its properties

    The development follows the Go sources: [json.go] (key substitution),
    [assert_http.go] (HTTP dump normalisation and the HTTP/JSON comparison),
    the snapshot store (registry, on-disk encoding, load-once, persistence)
    and the create-or-update workflow with its end-of-suite cleanup.

    Go strings are byte sequences and are modelled by [string] (one [ascii]
    per byte); [[]byte] and [string] conversions are the identity.  Go maps
    are [gmap]s; a nil map is distinguished from an empty one where the code
    can tell them apart. *)

From Stdlib Require Import Ascii String.
From Stdlib Require PrimFloat.
From stdpp Require Import gmap strings list fin_maps sorting pretty.


(* ===================================================================== *)
(** * The Go standard library functions the sources call *)
(* ===================================================================== *)

(** Package [strings] (and [bytes], whose [TrimSpace] is the same function
    on a byte slice).  All call sites in the sources pass a non-empty
    constant separator, so Go's special treatment of an empty separator
    (explode into UTF-8 sequences) is left out. *)
Module strings.

(** [s[n:]], total. *)
Fixpoint drop (n : nat) (s : string) : string :=
  match n, s with
  | 0, _ => s
  | S n', String _ s' => drop n' s'
  | S _, EmptyString => EmptyString
  end.

(** [s[:n]], total. *)
Fixpoint take (n : nat) (s : string) : string :=
  match n, s with
  | 0, _ => EmptyString
  | S n', String c s' => String c (take n' s')
  | S _, EmptyString => EmptyString
  end.

Definition HasPrefix (s prefix : string) : bool := String.prefix prefix s.

(** [len(s) >= len(suffix) && s[len(s)-len(suffix):] == suffix] *)
Definition HasSuffix (s suffix : string) : bool :=
  (String.length suffix <=? String.length s) &&
  String.eqb (drop (String.length s - String.length suffix) s) suffix.

(** Index of the first occurrence of [substr] in [s]; [None] is Go's -1. *)
Fixpoint Index (s substr : string) : option nat :=
  if HasPrefix s substr then Some 0
  else match s with
       | EmptyString => None
       | String _ s' => S <$> Index s' substr
       end.

(** The loop shared by [Split] and [SplitAfterN]: at most [n] pieces, each
    keeping [sepSave] bytes of the separator. *)
Fixpoint genSplit (s sep : string) (sepSave n : nat) : list string :=
  match n with
  | 0 => []
  | 1 => [s]
  | S n' =>
      match Index s sep with
      | None => [s]
      | Some m =>
          take (m + sepSave) s
            :: genSplit (drop (m + String.length sep) s) sep sepSave n'
      end
  end.

(** [Split] asks for [Count(s, sep) + 1] pieces, which Go caps at
    [len(s) + 1]; the loop stops by itself at the last occurrence. *)
Definition Split (s sep : string) : list string :=
  genSplit s sep 0 (S (String.length s)).

Definition SplitAfterN (s sep : string) (n : nat) : list string :=
  genSplit s sep (String.length sep) n.

Definition TrimSuffix (s suffix : string) : string :=
  if HasSuffix s suffix
  then take (String.length s - String.length suffix) s
  else s.

Definition Join (elems : list string) (sep : string) : string :=
  String.concat sep elems.

Definition bytes (l : list nat) : string :=
  foldr (λ n s, String (ascii_of_nat n) s) EmptyString l.

(** The UTF-8 encodings of the runes for which [unicode.IsSpace] holds:
    tab, LF, VT, FF, CR, space, U+0085, U+00A0, U+1680, U+2000..U+200A,
    U+2028, U+2029, U+202F, U+205F, U+3000.  A string starts (ends) with
    one of them exactly when its first (last) decoded rune is a space. *)
Definition whiteSpace : list string :=
  bytes <$>
    [ [9]; [10]; [11]; [12]; [13]; [32]; [194; 133]; [194; 160];
      [225; 154; 128];
      [226; 128; 128]; [226; 128; 129]; [226; 128; 130]; [226; 128; 131];
      [226; 128; 132]; [226; 128; 133]; [226; 128; 134]; [226; 128; 135];
      [226; 128; 136]; [226; 128; 137]; [226; 128; 138];
      [226; 128; 168]; [226; 128; 169]; [226; 128; 175];
      [226; 129; 159]; [227; 128; 128] ].

Fixpoint trimLeftSpace (fuel : nat) (s : string) : string :=
  match fuel with
  | 0 => s
  | S fuel' =>
      match List.find (HasPrefix s) whiteSpace with
      | Some w => trimLeftSpace fuel' (drop (String.length w) s)
      | None => s
      end
  end.

Fixpoint trimRightSpace (fuel : nat) (s : string) : string :=
  match fuel with
  | 0 => s
  | S fuel' =>
      match List.find (HasSuffix s) whiteSpace with
      | Some w =>
          trimRightSpace fuel' (take (String.length s - String.length w) s)
      | None => s
      end
  end.

(** [TrimSpace]: every trimmed rune takes at least one byte, so the length
    of the string is fuel enough. *)
Definition TrimSpace (s : string) : string :=
  let l := trimLeftSpace (String.length s) s in
  trimRightSpace (String.length l) l.

End strings.

(** Package [sort]: [sort.Strings] orders byte-wise, as [String.leb] does. *)
Module sort.

Fixpoint insert (x : string) (l : list string) : list string :=
  match l with
  | [] => [x]
  | y :: l' => if String.leb x y then x :: l else y :: insert x l'
  end.

Definition Strings (l : list string) : list string := foldr insert [] l.

End sort.

(* ===================================================================== *)
(** * assert_http.go: content-type classification *)
(* ===================================================================== *)

(** [contentTypeParts[0]] cannot fail: [Split] returns at least one piece. *)
Definition contentTypeIsJSON (contentType : string) : bool :=
  let contentTypeParts := strings.Split contentType ";" in
  let firstPart := default "" (contentTypeParts !! 0) in
  let isPlainJSON := String.eqb firstPart "application/json" in
  if isPlainJSON then isPlainJSON
  else
    let isVendor := strings.HasPrefix firstPart "application/vnd." in
    let isJSON := strings.HasSuffix firstPart "+json" in
    isVendor && isJSON.

(** Package [path/filepath] where the separator is the slash. *)
Module filepath.

(** The elements of a path: the texts between its separators. *)
Fixpoint elems (path : string) : list string :=
  match path with
  | EmptyString => [""]
  | String c rest =>
      if decide (c = "/"%char) then "" :: elems rest
      else match elems rest with
           | e :: es => String c e :: es
           | [] => [String c ""]
           end
  end.

(** One element of the path against the elements kept so far (the last
    one first): an empty element and [.] are dropped; [..] removes the
    element before it, is dropped at the root, and is kept where only
    [..] elements, or none, come before it. *)
Definition cleanStep (rooted : bool) (kept : list string) (e : string)
    : list string :=
  if decide (e = "" ∨ e = ".") then kept
  else if decide (e = "..") then
    match kept with
    | t :: kept' => if decide (t = "..") then e :: kept else kept'
    | [] => if rooted then [] else [e]
    end
  else e :: kept.

(** [Clean]: the shortest path equivalent to [path] by purely lexical
    processing; the empty result is written [.]. *)
Definition Clean (path : string) : string :=
  if decide (path = "") then "."
  else
    let rooted := strings.HasPrefix path "/" in
    let kept := foldl (cleanStep rooted) [] (elems path) in
    let out := (if rooted then "/" else "")
               +:+ strings.Join (reverse kept) "/" in
    if decide (out = "") then "." else out.

(** [Join] of two elements: leading empty elements are ignored, the rest
    is joined with the separator and cleaned; nothing to join gives the
    empty string. *)
Definition Join (a b : string) : string :=
  if decide (a = "") then (if decide (b = "") then "" else Clean b)
  else Clean (a +:+ "/" +:+ b).

(** Scan from the end for a dot, stopping at a path separator. *)
Fixpoint extRev (r acc : string) : string :=
  match r with
  | EmptyString => ""
  | String c r' =>
      if decide (c = "/"%char) then ""
      else if decide (c = "."%char) then String c acc
      else extRev r' (String c acc)
  end.

Definition Ext (path : string) : string := extRev (String.rev path) "".

Fixpoint dropSlashes (r : string) : string :=
  match r with
  | String "/" r' => dropSlashes r'
  | _ => r
  end.

Fixpoint lastElemRev (r acc : string) : string :=
  match r with
  | EmptyString => acc
  | String c r' =>
      if decide (c = "/"%char) then acc else lastElemRev r' (String c acc)
  end.

Definition Base (path : string) : string :=
  if decide (path = "") then "."
  else
    let r := dropSlashes (String.rev path) in
    let b := lastElemRev r "" in
    if decide (b = "") then "/" else b.

End filepath.

Definition LF : string := String "010"%char EmptyString.
Definition DQUOTE : string := String "034"%char EmptyString.

(** Go's [error] values, identified with their messages; [None] is [nil]. *)
Definition error : Type := string.

(* ===================================================================== *)
(** * json.go: key substitution in a decoded JSON document *)
(* ===================================================================== *)

(** The dynamic values [encoding/json] stores in an [interface{}]:
    [nil], [bool], [float64], [string], [[]interface{}] and
    [map[string]interface{}]. *)
#[warnings="-register-all"]
Inductive jvalue : Type :=
  | JNull
  | JBool (b : bool)
  | JNumber (f : PrimFloat.float)
  | JString (s : string)
  | JArray (s : list jvalue)
  | JObject (m : gmap string jvalue).

(** The body of the [for k, v := range m] loop of [updateMap], as the new
    content of [m[k]]: a slice is walked and only its elements that are
    maps are updated, a map is updated recursively, and only in the default
    case is the key compared and the value replaced. *)
Fixpoint updateEntry (key : string) (value : jvalue) (k : string) (v : jvalue)
    {struct v} : jvalue :=
  match v with
  | JArray s =>
      JArray ((λ e, match e with
                    | JObject o =>
                        JObject (map_imap
                                   (λ k' v', Some (updateEntry key value k' v')) o)
                    | _ => e
                    end) <$> s)
  | JObject s =>
      JObject (map_imap (λ k' v', Some (updateEntry key value k' v')) s)
  | _ => if decide (k = key) then value else v
  end.

(** Every entry keeps its key, so the iteration order of the map is
    immaterial and the in-place update is a map over the entries. *)
Definition updateMap (key : string) (value : jvalue)
    (m : gmap string jvalue) : gmap string jvalue :=
  map_imap (λ k v, Some (updateEntry key value k v)) m.

Definition updateKeyValuesInMap (key : string) (value : jvalue)
    (m : gmap string jvalue) : gmap string jvalue :=
  updateMap key value m.

(** Positions in a document: which object member or array element to
    enter next. *)
Inductive step : Type :=
  | Key (k : string)
  | Idx (i : nat).

Fixpoint jget (p : list step) (j : jvalue) : option jvalue :=
  match p with
  | [] => Some j
  | Key k :: p' =>
      match j with JObject m => m !! k ≫= jget p' | _ => None end
  | Idx i :: p' =>
      match j with JArray s => s !! i ≫= jget p' | _ => None end
  end.

Definition isScalar (v : jvalue) : bool :=
  match v with
  | JArray _ | JObject _ => false
  | _ => true
  end.

(** The paths from the root object to the objects [updateMap] visits:
    through a member whose value is an object, or through a member whose
    value is an array and then one of its elements. *)
Fixpoint visited (p : list step) : bool :=
  match p with
  | [] => true
  | Key _ :: Idx _ :: p' => visited p'
  | Key _ :: p' => visited p'
  | Idx _ :: _ => false
  end.

(** What the specification's wording describes: the value of every
    occurrence of the key is replaced, whatever its type and wherever it
    is nested. *)
Fixpoint replaceEverywhere (key : string) (value : jvalue) (v : jvalue)
    {struct v} : jvalue :=
  match v with
  | JArray s => JArray (replaceEverywhere key value <$> s)
  | JObject m =>
      JObject (map_imap
                 (λ k v', Some (if decide (k = key) then value
                                else replaceEverywhere key value v')) m)
  | _ => v
  end.

(* ===================================================================== *)
(** * Collaborators outside the repository *)
(* ===================================================================== *)

(** [diffmatchpatch.Operation] and [diffmatchpatch.Diff]. *)
Inductive Operation : Type := DiffDelete | DiffInsert | DiffEqual.

Global Instance Operation_eq_dec : EqDecision Operation.
Proof. solve_decision. Defined.

Record Diff : Type := mkDiff { diffType : Operation; diffText : string }.

(** [jsondiff.Difference]. *)
Inductive Difference : Type :=
  | FullMatch
  | SupersetMatch
  | NoMatch
  | FirstArgIsInvalidJson
  | SecondArgIsInvalidJson
  | BothArgsAreInvalidJson.

(** The third-party and standard packages whose algorithms the sources use
    as black boxes.  A Go result [(v, err)] is a pair whose second
    component is [None] for a nil error. *)
Class Libs : Type := {
  (** [json.Unmarshal] into a [map[string]interface{}]; [None] is a nil map *)
  json_Unmarshal : string → option (gmap string jvalue) * option error;
  (** [json.MarshalIndent] with an empty prefix and two spaces of indent *)
  json_MarshalIndent : option (gmap string jvalue) → string * option error;
  (** how [fmt] renders a value under the verb [%s] *)
  fmt_verb_s : jvalue → string;
  (** [dmp.DiffMain(a, b, false)] and [dmp.DiffPrettyText] *)
  DiffMain : string → string → list Diff;
  DiffPrettyText : list Diff → string;
  (** [myers.ComputeEdits], [gotextdiff.ToUnified] and [fmt.Sprint], for
      the snapshot id and the two texts *)
  unifiedDiff : string → string → string → string;
  (** [jsondiff.Compare] with the default console options *)
  jsondiff_Compare : string → string → Difference * string;
}.

(** What the Go runtime leaves open: the order in which [range] visits a
    map, and the order in which the goroutines of the loader take the
    mutex.  An instance fixes one order for each map, whereas Go may take
    another one every time a map is ranged over; what is proved of a
    computation that ranges more than once over a map is therefore stated
    for any two instances, or under the condition that makes the result
    independent of the order. *)
Class Runtime : Type := {
  range : ∀ {V : Type}, gmap string V → list (string * V);
  range_perm : ∀ (V : Type) (m : gmap string V), range m ≡ₚ map_to_list m;
  schedule : list string → list string;
  schedule_perm : ∀ l : list string, schedule l ≡ₚ l;
}.

(** Stand-ins used to run the program on concrete inputs: a decoder that
    rejects every body, a diff that reports two different texts as one
    deletion and one insertion, and a JSON comparison that only knows the
    empty document (invalid) and textual equality. *)
Definition ESC : string := String "027"%char EmptyString.

Definition simpleDiffMain (a b : string) : list Diff :=
  if decide (a = b) then
    if decide (a = "") then [] else [mkDiff DiffEqual a]
  else
    (if decide (a = "") then [] else [mkDiff DiffDelete a])
      ++ (if decide (b = "") then [] else [mkDiff DiffInsert b]).

Definition simplePrettyText (diffs : list Diff) : string :=
  foldl (λ buf d,
           match diffType d with
           | DiffInsert => buf +:+ ESC +:+ "[32m" +:+ diffText d +:+ ESC +:+ "[0m"
           | DiffDelete => buf +:+ ESC +:+ "[31m" +:+ diffText d +:+ ESC +:+ "[0m"
           | DiffEqual => buf +:+ diffText d
           end) "" diffs.

Definition simpleCompare (a b : string) : Difference * string :=
  if decide (a = "") then
    if decide (b = "") then (BothArgsAreInvalidJson, "both arguments are invalid json")
    else (FirstArgIsInvalidJson, "first argument is invalid json")
  else if decide (b = "") then (SecondArgIsInvalidJson, "second argument is invalid json")
  else if decide (a = b) then (FullMatch, "")
  else (NoMatch, a +:+ " => " +:+ b).

Definition simpleLibs : Libs := {|
  json_Unmarshal := λ _, (None, Some "invalid character");
  json_MarshalIndent := λ _, ("null", None);
  fmt_verb_s := λ v, match v with JString s => s | _ => "%!s" end;
  DiffMain := simpleDiffMain;
  DiffPrettyText := simplePrettyText;
  unifiedDiff := λ _ a b,
    if decide (a = b) then ""
    else "--- a.txt" +:+ LF +:+ "+++ b.txt" +:+ LF +:+ "-" +:+ a +:+ LF +:+ "+" +:+ b +:+ LF;
  jsondiff_Compare := simpleCompare;
|}.

Definition orderedRuntime : Runtime := {|
  range := λ V m, map_to_list m;
  range_perm := λ V m, reflexivity (map_to_list m);
  schedule := λ l, l;
  schedule_perm := λ l, reflexivity l;
|}.

(* ===================================================================== *)
(** * The state of a test process *)
(* ===================================================================== *)

(** Modelled from the spec: the configuration object and [getConfig] are
    not among the sources; the spec gives it a default-substitution table
    and a unified-diff toggle, and the sources read [c.Defaults] and
    [c.UnifiedDiff]. *)
Record config : Type := mkConfig {
  Defaults : gmap string jvalue;
  UnifiedDiff : bool;
}.

(** Modelled from the spec: the [arguments] type and [getArguments] are not
    among the sources; the spec gives two boolean run-mode signals, and
    the sources read [args.shouldUpdate] and [args.singleRun]. *)
Record arguments : Type := mkArguments {
  shouldUpdate : bool;
  singleRun : bool;
}.

Abbreviation snapshotID := string (only parsing).

Record snapshot : Type := mkSnapshot {
  snap_id : snapshotID;
  snap_value : string;
  snap_path : string;
  evaluated : bool;
  shouldRemove : bool;
}.

(** [snapshots] is [map[snapshotID]*snapshot].  Every record is reachable
    through exactly one entry of the registry, so a [*snapshot] is modelled
    by the key of that entry and a field assignment through the pointer by
    an update of the entry. *)
Abbreviation snapshots := (gmap string snapshot) (only parsing).

(** [testing.T]: whether the test has failed, and what it logged. *)
Record T : Type := mkT {
  failed : bool;
  output : list string;
}.

(** The file system as far as the sources look at it: the working directory
    ([None] when [os.Getwd] fails), the directories and the regular files
    that exist, and the paths that cannot be created or written. *)
Record OS : Type := mkOS {
  cwd : option string;
  dirs : gset string;
  files : gmap string string;
  denied : gset string;
}.

Record World : Type := mkWorld {
  args : arguments;
  allSnapshots : option (gmap string snapshot);   (* [None]: the nil map *)
  snapshotsLoaded : bool;                         (* the [sync.Once] *)
  SnapshotsDir : string;
  getConfigResult : option config * option error; (* what [getConfig] returns *)
  os : OS;
  testing : T;
  stdout : list string;
  stderr : list string;
}.

Definition with_allSnapshots (w : World) (s : option (gmap string snapshot)) : World :=
  mkWorld (args w) s (snapshotsLoaded w) (SnapshotsDir w) (getConfigResult w)
          (os w) (testing w) (stdout w) (stderr w).

Definition with_snapshotsLoaded (w : World) (b : bool) : World :=
  mkWorld (args w) (allSnapshots w) b (SnapshotsDir w) (getConfigResult w)
          (os w) (testing w) (stdout w) (stderr w).

Definition with_os (w : World) (o : OS) : World :=
  mkWorld (args w) (allSnapshots w) (snapshotsLoaded w) (SnapshotsDir w)
          (getConfigResult w) o (testing w) (stdout w) (stderr w).

Definition with_testing (w : World) (t : T) : World :=
  mkWorld (args w) (allSnapshots w) (snapshotsLoaded w) (SnapshotsDir w)
          (getConfigResult w) (os w) t (stdout w) (stderr w).

Definition with_stdout (w : World) (l : list string) : World :=
  mkWorld (args w) (allSnapshots w) (snapshotsLoaded w) (SnapshotsDir w)
          (getConfigResult w) (os w) (testing w) l (stderr w).

Definition with_stderr (w : World) (l : list string) : World :=
  mkWorld (args w) (allSnapshots w) (snapshotsLoaded w) (SnapshotsDir w)
          (getConfigResult w) (os w) (testing w) (stdout w) l.

(** How a call ends: it returns, the test goroutine is stopped by
    [t.Fatal] ([runtime.Goexit]), or the process panics. *)
Inductive outcome (A : Type) : Type :=
  | Ret (a : A)
  | Goexit
  | Panic (msg : string).
Global Arguments Ret {A} a.
Global Arguments Goexit {A}.
Global Arguments Panic {A} msg.

Definition M (A : Type) : Type := World → outcome A * World.

Global Instance M_ret : MRet M := λ A a w, (Ret a, w).

Global Instance M_bind : MBind M := λ A B f m w,
  match m w with
  | (Ret a, w') => f a w'
  | (Goexit, w') => (Goexit, w')
  | (Panic msg, w') => (Panic msg, w')
  end.

Definition gets {A : Type} (f : World → A) : M A := λ w, (Ret (f w), w).
Definition modify (f : World → World) : M unit := λ w, (Ret tt, f w).
Definition panic {A : Type} (msg : string) : M A := λ w, (Panic msg, w).

(** A pure computation that may panic, run inside the process. *)
Definition lift {A : Type} (o : outcome A) : M A := λ w, (o, w).

Definition t_Error (msg : string) : M unit :=
  modify (λ w, with_testing w (mkT true (output (testing w) ++ [msg]))).

Definition t_Fatal {A : Type} (msg : string) : M A := λ w,
  (Goexit, with_testing w (mkT true (output (testing w) ++ [msg]))).

Definition fmt_Printf (s : string) : M unit :=
  modify (λ w, with_stdout w (stdout w ++ [s])).

Definition fmt_Fprintf_Stderr (s : string) : M unit :=
  modify (λ w, with_stderr w (stderr w ++ [s])).

(** Modelled from the spec: [getConfig] is not among the sources; it yields
    the configuration (possibly nil) or an error, held by the state. *)
Definition getConfig : M (option config * option error) := gets getConfigResult.

(** ** The operating system *)

Definition os_Getwd : M (string * option error) :=
  gets (λ w, match cwd (os w) with
             | Some d => (d, None)
             | None => ("", Some "getwd: no such file or directory")
             end).

(** [os.IsNotExist] of the error of [os.Stat(dir)]. *)
Definition os_Stat_IsNotExist (dir : string) : M bool :=
  gets (λ w, bool_decide ((dir ∉ dirs (os w)) ∧ (files (os w) !! dir = None))).

Definition os_Mkdir (dir : string) : M (option error) := λ w,
  if bool_decide (dir ∈ denied (os w) ∨ dir ∈ dirs (os w)
                  ∨ is_Some (files (os w) !! dir))
  then (Ret (Some ("mkdir " +:+ dir +:+ ": failed")), w)
  else (Ret None,
        with_os w (mkOS (cwd (os w)) ({[dir]} ∪ dirs (os w)) (files (os w))
                        (denied (os w)))).

(** The name of [p] inside [dir], when [p] is an entry of [dir]: its
    last element, when joining it to [dir] gives [p] back. *)
Definition childName (dir p : string) : option string :=
  let name := filepath.Base p in
  if bool_decide (filepath.Join dir name = p
                  ∧ name ≠ "." ∧ name ≠ ".." ∧ name ≠ "/")
  then Some name else None.

(** [ioutil.ReadDir]: the names of the entries of [dir], sorted. *)
Definition ioutil_ReadDir (dir : string) : M (list string * option error) :=
  gets (λ w,
    if bool_decide (dir ∈ dirs (os w)) then
      (sort.Strings
         (omap (childName dir)
               (elements (dom (files (os w)) ∪ dirs (os w)))), None)
    else ([], Some ("open " +:+ dir +:+ ": failed"))).

(** [os.Open] followed by [ioutil.ReadAll]: the content of a regular file,
    [None] when either call fails. *)
Definition readFile (p : string) : M (option string) :=
  gets (λ w, files (os w) !! p).

Definition ioutil_WriteFile (p data : string) : M (option error) := λ w,
  if bool_decide (p ∈ denied (os w) ∨ p ∈ dirs (os w))
  then (Ret (Some ("open " +:+ p +:+ ": failed")), w)
  else (Ret None,
        with_os w (mkOS (cwd (os w)) (dirs (os w)) (<[p := data]> (files (os w)))
                        (denied (os w)))).

(* ===================================================================== *)
(** * The snapshot store and the assertion workflow *)
(* ===================================================================== *)

Definition errUnableToLocateTestPath : error := "unable to locate test path".
Definition errUnableToCreateSnapshotDirectory : error :=
  "unable to create snapshot directory".
Definition errInvalidSnapshotID : error := "invalid snapshot id".

Definition snapshotExt : string := ".snapshot".
Definition snapshotSeparator : string := "/* snapshot: ".

(** [SnapshotType] is a string type with two named values. *)
Abbreviation SnapshotType := string (only parsing).
Definition SnapshotGeneric : SnapshotType := "".
Definition SnapshotHTTPRespJSON : SnapshotType := "HTTPContentTypeJSON".

(** The build for systems other than Windows. *)
Definition isSnapshot (path : string) : bool :=
  bool_decide (filepath.Ext path = snapshotExt).

Definition isValid (s : snapshotID) : bool := true.

(** ** decode *)

(** One round of the loop of [decode] for a non-empty segment.  Indexing
    [components] past its length is a run-time panic. *)
Definition decodeSegment (s : string) (snaps : gmap string snapshot)
    : outcome (gmap string snapshot) :=
  let components := strings.SplitAfterN s LF 2 in
  match components !! 0 with
  | None => Panic "index out of range [0] with length 0"
  | Some c0 =>
      let id := strings.TrimSuffix c0 (" */" +:+ LF) in
      match components !! 1 with
      | None => Panic "index out of range [1] with length 1"
      | Some c1 =>
          let val := strings.TrimSpace c1 in
          Ret (<[id := mkSnapshot id val "" false false]> snaps)
      end
  end.

Fixpoint decodeLoop (snapshotsStr : list string) (snaps : gmap string snapshot)
    : outcome (gmap string snapshot) :=
  match snapshotsStr with
  | [] => Ret snaps
  | s :: rest =>
      if decide (s = "") then decodeLoop rest snaps
      else
        match decodeSegment s snaps with
        | Ret snaps' => decodeLoop rest snaps'
        | Goexit => Goexit
        | Panic msg => Panic msg
        end
  end.

Definition decode (data : string) : outcome (gmap string snapshot * option error) :=
  let snapshotsStr := strings.Split data snapshotSeparator in
  match decodeLoop snapshotsStr ∅ with
  | Ret snaps => Ret (snaps, None)
  | Goexit => Goexit
  | Panic msg => Panic msg
  end.

(** The blocks the specification calls well formed: a delimiter line, a
    value, and a blank-line separator. *)
Definition block (id value : string) : string :=
  snapshotSeparator +:+ id +:+ " */" +:+ LF +:+ value +:+ LF +:+ LF.

Definition wellFormedFile (data : string) : Prop :=
  ∃ blocks : list (string * string),
    data = foldr (λ b rest, block b.1 b.2 +:+ rest) "" blocks ∧
    Forall (λ b, strings.Index b.1 LF = None
                 ∧ strings.Index b.1 snapshotSeparator = None
                 ∧ strings.Index b.2 snapshotSeparator = None) blocks.

Section abide.
Context `{libs : Libs} `{runtime : Runtime}.

(** [range] over a map that may be nil. *)
Definition rangeSnapshots (s : option (gmap string snapshot))
    : list (string * snapshot) :=
  match s with
  | Some m => range m
  | None => []
  end.

(** ** encode *)

(** [bytes.Buffer.WriteString] never returns an error, so neither does
    [encode].  [snaps[id]] is present for every [id] taken from the keys. *)
Definition encode (snaps : gmap string snapshot) : string * option error :=
  let ids := sort.Strings ((range snaps).*1) in
  let buf :=
    foldl (λ buf id,
             match snaps !! id with
             | Some s =>
                 buf +:+ (snapshotSeparator +:+ snap_id s +:+ " */" +:+ LF)
                     +:+ (snap_value s +:+ LF +:+ LF)
             | None => buf
             end) "" ids in
  (strings.TrimSpace buf, None).

(** ** save *)

Definition groupByPath (l : list (string * snapshot))
    : gmap string (list snapshot) :=
  foldl (λ snapshotsByPath e,
           let snap := e.2 in
           <[snap_path snap :=
               default [] (snapshotsByPath !! snap_path snap) ++ [snap]]>
             snapshotsByPath) ∅ l.

Definition snapshotMapOf (snaps : list snapshot) : gmap string snapshot :=
  foldl (λ snapshotMap snap,
           if shouldRemove snap then snapshotMap
           else <[snap_id snap := snap]> snapshotMap) ∅ snaps.

Fixpoint saveFiles (l : list (string * list snapshot)) : M (option error) :=
  match l with
  | [] => mret None
  | (path, snaps) :: rest =>
      if decide (path = "") then saveFiles rest
      else
        let snapshotMap := snapshotMapOf snaps in
        let '(data, err) := encode snapshotMap in
        match err with
        | Some e => mret (Some e)
        | None =>
            err ← ioutil_WriteFile path data;
            match err with
            | Some e => mret (Some e)
            | None => saveFiles rest
            end
        end
  end.

Definition save (s : option (gmap string snapshot)) : M (option error) :=
  let snapshotsByPath := groupByPath (rangeSnapshots s) in
  saveFiles (range snapshotsByPath).

(** ** Cleanup and CleanupOrFail *)

Definition markShouldRemove (k : string) : M unit :=
  modify (λ w, with_allSnapshots w
    (alter (λ s, mkSnapshot (snap_id s) (snap_value s) (snap_path s)
                            (evaluated s) true) k <$> allSnapshots w)).

Fixpoint cleanupLoop (l : list (string * snapshot)) : M unit :=
  match l with
  | [] => mret tt
  | (k, s) :: rest =>
      a ← gets args;
      (if negb (evaluated s) && shouldUpdate a && negb (singleRun a) then
         markShouldRemove k;;
         fmt_Printf ("Removing unused snapshot `" +:+ snap_id s +:+ "`" +:+ LF)
       else mret tt);;
      cleanupLoop rest
  end.

Definition Cleanup : M (option error) :=
  all ← gets allSnapshots;
  cleanupLoop (rangeSnapshots all);;
  all ← gets allSnapshots;
  save all.

Fixpoint countUnused (l : list (string * snapshot)) (failed : nat) : M nat :=
  match l with
  | [] => mret failed
  | (_, s) :: rest =>
      if negb (evaluated s) then
        fmt_Fprintf_Stderr ("Unused snapshot `" +:+ snap_id s +:+ "`" +:+ LF);;
        countUnused rest (S failed)
      else countUnused rest failed
  end.

Definition CleanupOrFail : M (option error) :=
  a ← gets args;
  if singleRun a then mret None
  else if shouldUpdate a then Cleanup
  else
    all ← gets allSnapshots;
    failed ← countUnused (rangeSnapshots all) 0;
    if bool_decide (0 < failed)
    then mret (Some (pretty failed +:+ " unused snapshots"))
    else mret None.

(** ** Loading *)

Definition getTestingPath : M (string * option error) := os_Getwd.

Definition getTestingPackage : M (string * option error) :=
  '(dir, err) ← getTestingPath;
  match err with
  | Some e => mret ("", Some e)
  | None => mret (filepath.Base dir, None)
  end.

Definition findOrCreateSnapshotDirectory : M (string * option error) :=
  '(testingPath, err) ← getTestingPath;
  match err with
  | Some _ => mret ("", Some errUnableToLocateTestPath)
  | None =>
      snapshotsDir ← gets SnapshotsDir;
      let dir := filepath.Join testingPath snapshotsDir in
      notExist ← os_Stat_IsNotExist dir;
      if (notExist : bool) then
        err ← os_Mkdir dir;
        match err with
        | Some _ => mret ("", Some errUnableToCreateSnapshotDirectory)
        | None => mret (dir, None)
        end
      else mret (dir, None)
  end.

(** One goroutine of [parseSnapshotsFromPaths]: a file that cannot be read
    contributes nothing; a panic of [decode] ends the process. *)
Definition parseOne (p : string) (snaps : gmap string snapshot)
    : M (gmap string snapshot) :=
  data ← readFile p;
  match data with
  | None => mret snaps
  | Some data =>
      '(s, err) ← lift (decode data);
      match err with
      | Some _ => mret snaps
      | None =>
          mret (((λ snap, mkSnapshot (snap_id snap) (snap_value snap) p
                                     (evaluated snap) (shouldRemove snap))
                   <$> s) ∪ snaps)
      end
  end.

Fixpoint parseAll (paths : list string) (snaps : gmap string snapshot)
    : M (gmap string snapshot) :=
  match paths with
  | [] => mret snaps
  | p :: rest => snaps' ← parseOne p snaps; parseAll rest snaps'
  end.

Definition parseSnapshotsFromPaths (paths : list string)
    : M (gmap string snapshot * option error) :=
  snaps ← parseAll (schedule paths) ∅;
  mret (snaps, None).

Definition reloadSnapshots : M (option error) :=
  '(dir, err) ← findOrCreateSnapshotDirectory;
  match err with
  | Some e => mret (Some e)
  | None =>
      '(files, err) ← ioutil_ReadDir dir;
      match err with
      | Some e => mret (Some e)
      | None =>
          let paths := filter (λ path, isSnapshot path = true)
                              (filepath.Join dir <$> files) in
          '(snaps, err) ← parseSnapshotsFromPaths paths;
          modify (λ w, with_allSnapshots w (Some snaps));;
          mret err
      end
  end.

(** [snapshotsLoaded.Do]: the function runs on the first call only, and
    the named result [err] keeps its zero value afterwards.  [Do] marks
    itself done when the function has run, however it ended. *)
Definition loadSnapshots : M (option error) := λ w,
  if snapshotsLoaded w then (Ret None, w)
  else
    let '(r, w') := reloadSnapshots w in
    (r, with_snapshotsLoaded w' true).

Definition getSnapshot (id : snapshotID) : M (option snapshot) :=
  err ← loadSnapshots;
  match err with
  | Some e => panic e
  | None => gets (λ w, allSnapshots w ≫= (.!! id))
  end.

(** ** Writing *)

(** [allSnapshots[id] = s]: assignment to an entry of a nil map panics. *)
Definition storeSnapshot (id : snapshotID) (s : snapshot) : M unit := λ w,
  match allSnapshots w with
  | None => (Panic "assignment to entry in nil map", w)
  | Some m => (Ret tt, with_allSnapshots w (Some (<[id := s]> m)))
  end.

(** The result is the pointer to the new record, that is, its key. *)
Definition writeSnapshot (id : snapshotID) (value : string) (isUpdate : bool)
    : M (option snapshotID * option error) :=
  if negb (isValid id) then mret (None, Some errInvalidSnapshotID)
  else
    err ← loadSnapshots;
    match err with
    | Some e => mret (None, Some e)
    | None =>
        '(dir, err) ← findOrCreateSnapshotDirectory;
        match err with
        | Some e => mret (None, Some e)
        | None =>
            '(pkg, err) ← getTestingPackage;
            match err with
            | Some e => mret (None, Some e)
            | None =>
                let path := filepath.Join dir (pkg +:+ snapshotExt) in
                let s := mkSnapshot id value path isUpdate false in
                storeSnapshot id s;;
                all ← gets allSnapshots;
                err ← save all;
                match err with
                | Some e => mret (None, Some e)
                | None => mret (Some id, None)
                end
            end
        end
    end.

Definition createSnapshot (id : snapshotID) (value : string) :=
  writeSnapshot id value false.

Definition updateSnapshot (id : snapshotID) (value : string) :=
  writeSnapshot id value true.

(** ** Comparison (generic format) *)

Definition nonEqual (allDiffs : list Diff) : list Diff :=
  filter (λ diff, diffType diff ≠ DiffEqual) allDiffs.

Definition compareResults (id existing new : string) : M string :=
  '(c, err) ← getConfig;
  match err with
  | Some e => t_Fatal e
  | None =>
      if match c with Some c => UnifiedDiff c | None => false end then
        mret (unifiedDiff id existing new)
      else
        let allDiffs := DiffMain existing new in
        let nonEqualDiffs := nonEqual allDiffs in
        if bool_decide (length nonEqualDiffs = 0) then mret ""
        else mret (DiffPrettyText allDiffs)
  end.

Definition didNotMatchMessage (id diff : string) : string :=
  (LF +:+ LF +:+ "## Existing snapshot does not match results..." +:+ LF)
    +:+ ("## " +:+ DQUOTE +:+ id +:+ DQUOTE +:+ LF +:+ LF)
    +:+ diff
    +:+ (LF +:+ LF)
    +:+ ("If this change was intentional, run tests again, $ go test -v -- -u" +:+ LF).

Definition newSnapshotMessage (id body : string) : string :=
  (LF +:+ LF +:+ "## New snapshot found..." +:+ LF)
    +:+ ("## " +:+ DQUOTE +:+ id +:+ DQUOTE +:+ LF +:+ LF)
    +:+ body
    +:+ (LF +:+ LF)
    +:+ ("To save, run tests again, $ go test -v -- -u" +:+ LF).

(** ** assert_http.go: the internal request *)

Record httpRequest : Type := mkHttpRequest {
  header : list string;
  body : string;
}.

Definition headerDump (h : httpRequest) : string := strings.Join (header h) LF.

Definition byteBody (h : httpRequest) : string := body h.

Definition dump (h : httpRequest) : string :=
  headerDump h +:+ LF +:+ LF +:+ body h.

(** The receiver is updated in place; the result pairs the new receiver
    with the returned error.  In Go a default that is itself a map or a
    slice is shared between the table and every place it is put in; the
    fold over the table treats defaults as values, which is exact for
    scalar defaults. *)
Definition jsonBodyCleanup (c : option config) (h : httpRequest)
    : httpRequest * option error :=
  let jsonStr := body h in
  if decide (strings.TrimSpace jsonStr = "") then (h, None)
  else
    let '(jsonIface, err) := json_Unmarshal jsonStr in
    match err with
    | Some e => (h, Some e)
    | None =>
        let jsonIface :=
          match c with
          | Some c =>
              foldl (λ jsonIface kv,
                       updateKeyValuesInMap kv.1 kv.2 <$> jsonIface)
                    jsonIface (range (Defaults c))
          | None => jsonIface
          end in
        let '(out, err) := json_MarshalIndent jsonIface in
        match err with
        | Some e => (h, Some e)
        | None => (mkHttpRequest (header h) out, None)
        end
    end.

Definition configCleanup (c : option config) (h : httpRequest) : httpRequest :=
  match c with
  | None => h
  | Some c =>
      mkHttpRequest
        ((λ line,
            let headerItem := strings.Split line ":" in
            let item0 := default "" (headerItem !! 0) in
            let key := strings.TrimSpace item0 in
            match Defaults c !! key with
            | Some def => item0 +:+ ": " +:+ fmt_verb_s def
            | None => line
            end) <$> header h)
        (body h)
  end.

(** The header is the run of lines before the first blank one. *)
Fixpoint headerLines (lines : list string) : list string :=
  match lines with
  | [] => []
  | l :: rest =>
      if decide (strings.TrimSpace l = "") then []
      else l :: headerLines rest
  end.

Definition plainToInternalRequest (requestDump : string) : httpRequest :=
  let data := requestDump in
  let lines := strings.Split (strings.TrimSpace data) LF in
  let header := headerLines lines in
  let headerEnd := length header in
  mkHttpRequest header
    (strings.TrimSpace (strings.Join (drop headerEnd lines) LF)).

(** ** Comparison (HTTP with a JSON body) *)

Definition compareResultsHTTPRequestJSON (existing new : string) : M string :=
  let existingR := plainToInternalRequest existing in
  let newR := plainToInternalRequest new in
  '(c, err) ← getConfig;
  match err with
  | Some e => t_Fatal e
  | None =>
      let existingR := configCleanup c existingR in
      let newR := configCleanup c newR in
      let existingR := (jsonBodyCleanup c existingR).1 in
      let newR := (jsonBodyCleanup c newR).1 in
      let allDiffs := DiffMain (headerDump existingR) (headerDump newR) in
      let nonEqualDiffs := nonEqual allDiffs in
      let diffSoFar :=
        if bool_decide (length nonEqualDiffs ≠ 0)
        then DiffPrettyText allDiffs else "" in
      let '(jsonDifference, explanation) :=
        jsondiff_Compare (byteBody existingR) (byteBody newR) in
      match jsonDifference with
      | FullMatch => mret diffSoFar
      | _ =>
          let diffSoFar := diffSoFar +:+ LF in
          match jsonDifference with
          | SupersetMatch | NoMatch => mret (diffSoFar +:+ explanation)
          | FirstArgIsInvalidJson =>
              mret (diffSoFar +:+ "ERROR: Existing body is not valid JSON")
          | SecondArgIsInvalidJson =>
              mret (diffSoFar +:+ "ERROR: New body is not valid JSON")
          | BothArgsAreInvalidJson =>
              if bool_decide (String.length (body existingR)
                              = String.length (body newR)
                              ∧ String.length (body newR) = 0)
              then mret diffSoFar
              else
                mret (diffSoFar
                        +:+ ("ERROR: Neither Existing nor New bodies are valid JSON" +:+ LF)
                        +:+ dump existingR
                        +:+ LF
                        +:+ dump newR)
          | FullMatch => mret diffSoFar
          end
      end
  end.

(** ** The create-or-update workflow *)

(** [snapshot.evaluated = true] through the pointer [p]. *)
Definition setEvaluated (p : snapshotID) : M unit :=
  modify (λ w, with_allSnapshots w
    (alter (λ s, mkSnapshot (snap_id s) (snap_value s) (snap_path s)
                            true (shouldRemove s)) p <$> allSnapshots w)).

Definition createOrUpdateSnapshot (id data : string) (format : SnapshotType)
    : M unit :=
  snapshot ← getSnapshot id;
  match snapshot with
  | None =>
      a ← gets args;
      if negb (shouldUpdate a) then t_Error (newSnapshotMessage id data)
      else
        fmt_Printf ("Creating snapshot `" +:+ id +:+ "`" +:+ LF);;
        '(snapshot, err) ← createSnapshot id data;
        match err with
        | Some e => t_Fatal e
        | None =>
            match snapshot with
            | Some p => setEvaluated p
            | None => panic "invalid memory address or nil pointer dereference"
            end
        end
  | Some snapshot =>
      setEvaluated id;;
      diff ← (if decide (format = SnapshotHTTPRespJSON)
              then compareResultsHTTPRequestJSON (snap_value snapshot)
                                                 (strings.TrimSpace data)
              else compareResults id (snap_value snapshot)
                                  (strings.TrimSpace data));
      if decide (diff ≠ "") then
        a ← gets args;
        if shouldUpdate a then
          fmt_Printf ("Updating snapshot `" +:+ id +:+ "`" +:+ LF);;
          '(_, err) ← updateSnapshot id data;
          match err with
          | Some e => t_Fatal e
          | None => mret tt
          end
        else t_Error (didNotMatchMessage id diff)
      else mret tt
  end.

(** [Assert], for a value whose [String()] is [data]. *)
Definition Assert (id data : string) : M unit :=
  createOrUpdateSnapshot id data SnapshotGeneric.

(** [assertHTTP], for the dump [body] produced by [httputil]. *)
Definition assertHTTP (id body : string) (isJSON : bool) : M unit :=
  '(c, err) ← getConfig;
  match err with
  | Some e => t_Fatal e
  | None =>
      let h := plainToInternalRequest body in
      let h := configCleanup c h in
      if isJSON then
        let '(h, err) := jsonBodyCleanup c h in
        match err with
        | Some e => t_Fatal e
        | None => createOrUpdateSnapshot id (dump h) SnapshotHTTPRespJSON
        end
      else createOrUpdateSnapshot id (dump h) SnapshotGeneric
  end.

(** ** Notions used to state the properties *)

(** What is written for a group of records of one file. *)
Definition fileContent (snaps : list snapshot) : string :=
  (encode (snapshotMapOf snaps)).1.

End abide.

(** The records of the registry that a file must hold: those it owns that
    are not marked for removal. *)
Definition persisted (reg : gmap string snapshot) (p : string)
    : gmap string snapshot :=
  filter (λ kv : string * snapshot,
            snap_path kv.2 = p ∧ shouldRemove kv.2 = false) reg.

Definition owns (reg : gmap string snapshot) (p : string) : Prop :=
  ∃ k s, reg !! k = Some s ∧ snap_path s = p.

(** The registry invariant that [decode] and [writeSnapshot] establish:
    every record is stored under its own identifier. *)
Definition keyed (reg : gmap string snapshot) : Prop :=
  map_Forall (λ k s, snap_id s = k) reg.

Definition unusedMessages (l : list (string * snapshot)) : list string :=
  (λ kv, "Unused snapshot `" +:+ snap_id kv.2 +:+ "`" +:+ LF)
    <$> filter (λ kv, evaluated kv.2 = false) l.

(** The number of records of the registry that were never evaluated. *)
Definition unusedCount (w : World) : nat :=
  size (filter (λ kv : string * snapshot, evaluated kv.2 = false)
               (default ∅ (allSnapshots w))).

(** Two containers of the same kind and extent. *)
Definition sameShape (v v' : jvalue) : Prop :=
  match v, v' with
  | JObject o, JObject o' => dom o = dom o'
  | JArray s, JArray s' => length s = length s'
  | _, _ => False
  end.

(** What [updateMap] does to an element of a slice. *)
Definition updateElement (key : string) (value : jvalue) (e : jvalue) : jvalue :=
  match e with
  | JObject o => JObject (updateMap key value o)
  | _ => e
  end.

(** Frame reasoning: a computation leaves a component of the state alone. *)
Definition preserves {A B : Type} (f : World → B) (m : M A) : Prop :=
  ∀ w r w', m w = (r, w') → f w' = f w.

(** A component that no file-system operation touches. *)
Class OSIndependent {B : Type} (f : World → B) : Prop :=
  os_independent : ∀ w o, f (with_os w o) = f w.

(** A component that neither the registry nor the load-once flag holds. *)
Class StoreIndependent {B : Type} (f : World → B) : Prop := {
  store_independent_reg : ∀ w s, f (with_allSnapshots w s) = f w;
  store_independent_loaded : ∀ w b, f (with_snapshotsLoaded w b) = f w;
}.

(** The registry, when it is not nil, stores every record under its own
    identifier. *)
Definition registryKeyed (w : World) : Prop :=
  ∀ m, allSnapshots w = Some m → keyed m.

(** A computation keeps an invariant of the state, however it ends. *)
Definition maintains {A : Type} (P : World → Prop) (m : M A) : Prop :=
  ∀ w r w', P w → m w = (r, w') → P w'.

(** The segments on which [decode] does not panic. *)
Definition decodable (s : string) : Prop :=
  s = "" ∨ is_Some (strings.Index s LF).

(** ** Concrete inputs *)

Definition docObjectValue : gmap string jvalue :=
  {[ "k" := JObject {[ "a" := JNull ]} ]}.

Definition docNestedArray : gmap string jvalue :=
  {[ "a" := JArray [JArray [JObject {[ "k" := JNull ]}]] ]}.

Definition docMixed : gmap string jvalue :=
  {[ "k" := JBool true;
     "b" := JArray [JObject {[ "k" := JNull; "c" := JString "x" ]}; JString "k"] ]}.

(** A file with one record whose value is empty. *)
Definition emptyValueFile : string := block "a" "".

(** A fresh test process in update mode: nothing loaded, no configuration
    file, an empty package directory. *)
Definition freshWorld : World :=
  mkWorld (mkArguments true false) None false "__snapshots__" (None, None)
          (mkOS (Some "/home/u/pkg") ∅ ∅ ∅) (mkT false []) [] [].

(** A process whose working directory cannot be determined. *)
Definition lostWorld : World :=
  mkWorld (mkArguments false false) None false "__snapshots__" (None, None)
          (mkOS None ∅ ∅ ∅) (mkT false []) [] [].

Definition exampleRegistry : gmap string snapshot :=
  {[ "a" := mkSnapshot "a" "one" "/p/x.snapshot" true false;
     "b" := mkSnapshot "b" "two" "/p/x.snapshot" false true;
     "c" := mkSnapshot "c" "three" "" false false;
     "d" := mkSnapshot "d" "four" "/p/y.snapshot" false false ]}.

(** A strict-mode process holding [exampleRegistry]. *)
Definition strictWorld : World :=
  mkWorld (mkArguments false false) (Some exampleRegistry) true "__snapshots__"
          (None, None) (mkOS (Some "/p") ∅ ∅ ∅) (mkT false []) [] [].

(** An HTTP request dump without a body. *)
Definition bodylessRequest : string :=
  "GET / HTTP/1.1" +:+ LF +:+ "Host: example.com" +:+ LF
    +:+ "Content-Type: application/json" +:+ LF +:+ LF.

(* ===================================================================== *)
(** * The remaining entry points *)
(* ===================================================================== *)

Section entry_points.
Context `{libs : Libs} `{runtime : Runtime}.

(** [AssertReader], for the result of [ioutil.ReadAll(r)]. *)
Definition AssertReader (id : string) (readAll : string * option error) : M unit :=
  let '(data, err) := readAll in
  match err with
  | Some e => t_Fatal e
  | None => createOrUpdateSnapshot id data SnapshotGeneric
  end.

(** [AssertHTTPResponse], for the result of [httputil.DumpResponse(w, true)]
    and the value of the Content-Type header of [w]. *)
Definition AssertHTTPResponse (id : string) (dumped : string * option error)
    (contentType : string) : M unit :=
  let '(body, err) := dumped in
  match err with
  | Some e => t_Fatal e
  | None => assertHTTP id body (contentTypeIsJSON contentType)
  end.

(** [AssertHTTPRequestOut], for the result of
    [httputil.DumpRequestOut(r, true)] and the Content-Type header of [r]. *)
Definition AssertHTTPRequestOut (id : string) (dumped : string * option error)
    (contentType : string) : M unit :=
  let '(body, err) := dumped in
  match err with
  | Some e => t_Fatal e
  | None => assertHTTP id body (contentTypeIsJSON contentType)
  end.

(** [AssertHTTPRequest], for the result of [httputil.DumpRequest(r, true)]
    and the Content-Type header of [r]. *)
Definition AssertHTTPRequest (id : string) (dumped : string * option error)
    (contentType : string) : M unit :=
  let '(body, err) := dumped in
  match err with
  | Some e => t_Fatal e
  | None => assertHTTP id body (contentTypeIsJSON contentType)
  end.

End entry_points.

(** ** Further notions used to state properties *)

(** What [decode] makes of a record: it has no path and no marks. *)
Definition asDecoded (s : snapshot) : snapshot :=
  mkSnapshot (snap_id s) (snap_value s) "" false false.

(** A record as the loader will see it: not evaluated. *)
Definition unevaluated (s : snapshot) : snapshot :=
  mkSnapshot (snap_id s) (snap_value s) (snap_path s) false (shouldRemove s).

(** The text [encode] puts into its buffer for a list of records. *)
Definition blocks (rs : list snapshot) : string :=
  foldr (λ s rest, block (snap_id s) (snap_value s) +:+ rest) "" rs.

(** The text of a block after its delimiter. *)
Definition segmentOf (s : snapshot) : string :=
  snap_id s +:+ " */" +:+ LF +:+ snap_value s +:+ LF +:+ LF.

(** The records whose block [decode] reads back as written: the identifier
    holds no line feed, neither the delimiter line nor the value holds the
    delimiter text, and the value has no surrounding white space. *)
Definition readable (s : snapshot) : Prop :=
  strings.Index (snap_id s) LF = None
  ∧ strings.Index (snap_id s +:+ " */") snapshotSeparator = None
  ∧ strings.Index (snap_value s) snapshotSeparator = None
  ∧ strings.TrimSpace (snap_value s) = snap_value s.

(** What holds of a record that [decode] has stored under the key [k]. *)
Definition asRead (k : string) (s : snapshot) : Prop :=
  snap_id s = k ∧ snap_path s = "" ∧ evaluated s = false
  ∧ shouldRemove s = false ∧ strings.TrimSpace (snap_value s) = snap_value s.

(** What [Cleanup] makes of a record: under the update flag, and unless a
    single test was selected, a record that was not evaluated is marked
    for removal. *)
Definition pruned (a : arguments) (s : snapshot) : snapshot :=
  if negb (evaluated s) && shouldUpdate a && negb (singleRun a)
  then mkSnapshot (snap_id s) (snap_value s) (snap_path s) (evaluated s) true
  else s.

(** The records a snapshot file contributes to the registry: those [decode]
    finds in it, each with the path of the file.  A file that cannot be
    read contributes nothing. *)
Definition fileRecords (fs : gmap string string) (p : string)
    : outcome (gmap string snapshot) :=
  match fs !! p with
  | None => Ret ∅
  | Some data =>
      match decode data with
      | Ret (s, _) =>
          Ret ((λ snap, mkSnapshot (snap_id snap) (snap_value snap) p
                                   (evaluated snap) (shouldRemove snap)) <$> s)
      | Goexit => Goexit
      | Panic msg => Panic msg
      end
  end.

(** What the loader makes of one more file, the goroutines taken one after
    the other. *)
Definition loadStep (fs : gmap string string)
    (r : outcome (gmap string snapshot)) (p : string)
    : outcome (gmap string snapshot) :=
  match r with
  | Ret snaps =>
      match fileRecords fs p with
      | Ret m => Ret (m ∪ snaps)
      | Goexit => Goexit
      | Panic msg => Panic msg
      end
  | _ => r
  end.

(** The nesting depth of a document. *)
Fixpoint jdepth (v : jvalue) : nat :=
  match v with
  | JArray s => S (foldr (λ e n, jdepth e `max` n) 0 s)
  | JObject m => S (map_fold (λ _ e n, jdepth e `max` n) 0 m)
  | _ => 0
  end.

(** The document after the substitution of the defaults of [c], as the
    loop of [jsonBodyCleanup] leaves it. *)
Definition withDefaults `{runtime : Runtime} (c : option config)
    (j : option (gmap string jvalue)) : option (gmap string jvalue) :=
  match c with
  | Some c =>
      foldl (λ jsonIface kv, updateKeyValuesInMap kv.1 kv.2 <$> jsonIface)
            j (range (Defaults c))
  | None => j
  end.

(** ** Further stand-ins and concrete inputs *)

(** A runtime that visits maps and schedules goroutines in the opposite
    order. *)
Definition reversedRuntime : Runtime := {|
  range := λ V m, reverse (map_to_list m);
  range_perm := λ V m, reverse_Permutation (map_to_list m);
  schedule := λ l, reverse l;
  schedule_perm := λ l, reverse_Permutation l;
|}.

(** A JSON codec that knows the empty object and [null] only. *)
Definition emptyObjectLibs : Libs := {|
  json_Unmarshal := λ s,
    if decide (s = "{}") then (Some ∅, None)
    else if decide (s = "null") then (None, None)
    else (None, Some "invalid character");
  json_MarshalIndent := λ j,
    match j with
    | None => ("null", None)
    | Some m =>
        if decide (dom m = ∅) then ("{}", None)
        else ("", Some "json: unsupported value")
    end;
  fmt_verb_s := λ v, match v with JString s => s | _ => "%!s" end;
  DiffMain := simpleDiffMain;
  DiffPrettyText := simplePrettyText;
  unifiedDiff := λ _ a b, if decide (a = b) then "" else a +:+ LF +:+ b;
  jsondiff_Compare := simpleCompare;
|}.

(** A JSON codec for flat objects whose members are [null] or strings
    without escapes, commas and colons.  The encoder writes what
    [json.MarshalIndent] writes for them: the members in the order of
    their keys, one per line, indented by two spaces. *)
Definition flatQuote (s : string) : string := DQUOTE +:+ s +:+ DQUOTE.

Definition flatUnquote (s : string) : option string :=
  if strings.HasPrefix s DQUOTE && strings.HasSuffix s DQUOTE
     && (2 <=? String.length s)
  then Some (strings.take (String.length s - 2) (strings.drop 1 s))
  else None.

Definition flatValue (s : string) : option jvalue :=
  if decide (s = "null") then Some JNull else JString <$> flatUnquote s.

Definition flatMember (s : string) : option (string * jvalue) :=
  match strings.Split s ":" with
  | [k; v] =>
      k ← flatUnquote (strings.TrimSpace k);
      v ← flatValue (strings.TrimSpace v);
      Some (k, v)
  | _ => None
  end.

Definition flatUnmarshal (s : string)
    : option (gmap string jvalue) * option error :=
  let t := strings.TrimSpace s in
  if decide (t = "null") then (None, None)
  else if strings.HasPrefix t "{" && strings.HasSuffix t "}"
          && (2 <=? String.length t)
  then
    let inner :=
      strings.TrimSpace (strings.take (String.length t - 2) (strings.drop 1 t)) in
    if decide (inner = "") then (Some ∅, None)
    else match mapM flatMember (strings.Split inner ",") with
         | Some members => (Some (list_to_map members), None)
         | None => (None, Some "invalid character")
         end
  else (None, Some "invalid character").

Definition flatRender (v : jvalue) : option string :=
  match v with
  | JNull => Some "null"
  | JString s => Some (flatQuote s)
  | _ => None
  end.

Definition flatMarshalIndent (j : option (gmap string jvalue))
    : string * option error :=
  match j with
  | None => ("null", None)
  | Some m =>
      let keys := sort.Strings (map_to_list m).*1 in
      match mapM (λ k, v ← m !! k; r ← flatRender v;
                       Some ("  " +:+ flatQuote k +:+ ": " +:+ r)) keys with
      | None => ("", Some "json: unsupported value")
      | Some [] => ("{}", None)
      | Some lines =>
          ("{" +:+ LF +:+ strings.Join lines ("," +:+ LF) +:+ LF +:+ "}", None)
      end
  end.

Definition flatLibs : Libs := {|
  json_Unmarshal := flatUnmarshal;
  json_MarshalIndent := flatMarshalIndent;
  fmt_verb_s := λ v, match v with JString s => s | _ => "%!s" end;
  DiffMain := simpleDiffMain;
  DiffPrettyText := simplePrettyText;
  unifiedDiff := λ _ a b, if decide (a = b) then "" else a +:+ LF +:+ b;
  jsondiff_Compare := simpleCompare;
|}.

(** A configuration with two scalar defaults. *)
Definition exampleConfig : config :=
  mkConfig {[ "id" := JString "0"; "ts" := JNull ]} false.

(** An HTTP response dump with a JSON body. *)
Definition jsonResponse : string :=
  "HTTP/1.1 200 OK" +:+ LF +:+ "Content-Type: application/json" +:+ LF
    +:+ LF +:+ "{}".

(** An HTTP response dump whose JSON body holds a member that has a
    default in [exampleConfig]. *)
Definition jsonResponseWithId : string :=
  "HTTP/1.1 200 OK" +:+ LF +:+ "Content-Type: application/json" +:+ LF
    +:+ LF +:+ "{" +:+ flatQuote "id" +:+ ":" +:+ flatQuote "7" +:+ ","
    +:+ flatQuote "name" +:+ ":" +:+ flatQuote "x" +:+ "}" +:+ LF.

(** A fresh test process in update mode whose configuration is
    [exampleConfig]. *)
Definition configuredWorld : World :=
  mkWorld (mkArguments true false) None false "__snapshots__"
          (Some exampleConfig, None)
          (mkOS (Some "/home/u/pkg") ∅ ∅ ∅) (mkT false []) [] [].



Definition packageFile : string := "/home/u/pkg/__snapshots__/pkg.snapshot".
Definition otherFile : string := "/home/u/pkg/__snapshots__/other.snapshot".

(** A strict-mode process that has not loaded yet, with two snapshot files
    on disk. *)
Definition diskWorld : World :=
  mkWorld (mkArguments false false) None false "__snapshots__" (None, None)
          (mkOS (Some "/home/u/pkg") {[ "/home/u/pkg/__snapshots__" ]}
                {[ packageFile := block "a" "one" +:+ snapshotSeparator
                                    +:+ "b */" +:+ LF +:+ "two";
                   otherFile := snapshotSeparator +:+ "c */" +:+ LF +:+ "three" ]}
                ∅)
          (mkT false []) [] [].

(** The records of a well-formed file; the value in the middle is empty. *)
Definition exampleRecords : list snapshot :=
  [ mkSnapshot "a" "one" "" false false;
    mkSnapshot "b" "" "" false false;
    mkSnapshot "c" "three" "" false false ].

(** An update-mode process holding [exampleRegistry]. *)
Definition updateWorld : World :=
  mkWorld (mkArguments true false) (Some exampleRegistry) true "__snapshots__"
          (None, None) (mkOS (Some "/p") ∅ ∅ ∅) (mkT false []) [] [].

(* ===================================================================== *)
(** * Properties *)
(* ===================================================================== *)

(** ** Strings *)

Lemma HasPrefix_char (d c : ascii) (s : string) :
  strings.HasPrefix (String c s) (String d EmptyString) = bool_decide (d = c).
Proof.
  unfold strings.HasPrefix. simpl.
  destruct (Ascii.ascii_dec d c) as [->|Hne].
  - rewrite bool_decide_eq_true_2 by done. by destruct s.
  - by rewrite bool_decide_eq_false_2.
Qed.

Lemma HasPrefix_app (s t : string) : strings.HasPrefix (s +:+ t) s = true.
Proof.
  unfold strings.HasPrefix. induction s as [|c s IH].
  - by destruct t.
  - change (String c s +:+ t) with (String c (s +:+ t)). simpl.
    destruct (Ascii.ascii_dec c c); [apply IH|done].
Qed.

Lemma take_app_length (a x : string) :
  strings.take (String.length a) (a +:+ x) = a.
Proof. induction a as [|c a IH]; simpl; [by destruct x|by rewrite IH]. Qed.

Lemma drop_app_length (a x : string) :
  strings.drop (String.length a) (a +:+ x) = x.
Proof. induction a as [|c a IH]; cbn; done. Qed.

Lemma Index_unfold (s substr : string) :
  strings.Index s substr
  = if strings.HasPrefix s substr then Some 0
    else match s with
         | EmptyString => None
         | String _ s' => S <$> strings.Index s' substr
         end.
Proof. by destruct s. Qed.

Lemma Index_prefix (sep s : string) :
  strings.Index (sep +:+ s) sep = Some 0.
Proof. by rewrite Index_unfold, HasPrefix_app. Qed.

Lemma Index_char_app (d : ascii) (a b : string) :
  strings.Index a (String d EmptyString) = None →
  strings.Index (a +:+ String d b) (String d EmptyString)
  = Some (String.length a).
Proof.
  induction a as [|c a IH]; intros Hno.
  - change (strings.Index (String d b) (String d EmptyString) = Some 0).
    cbn [strings.Index]. rewrite HasPrefix_char. by rewrite bool_decide_eq_true_2.
  - change (strings.Index (String c (a +:+ String d b)) (String d EmptyString)
            = Some (S (String.length a))).
    cbn [strings.Index] in *. rewrite HasPrefix_char in *.
    destruct (bool_decide (d = c)); [done|].
    destruct (strings.Index a _) eqn:E; [done|].
    by rewrite IH.
Qed.

Lemma genSplit_more (s sep : string) (sepSave n : nat) :
  strings.genSplit s sep sepSave (S (S n))
  = match strings.Index s sep with
    | None => [s]
    | Some m =>
        strings.take (m + sepSave) s
          :: strings.genSplit (strings.drop (m + String.length sep) s)
               sep sepSave (S n)
    end.
Proof. done. Qed.

Lemma genSplit_no_sep (s sep : string) (sepSave n : nat) :
  strings.Index s sep = None → strings.genSplit s sep sepSave (S n) = [s].
Proof. intros Hno. destruct n; cbn; [done|]. by rewrite Hno. Qed.

Lemma Split_no_sep (s sep : string) :
  strings.Index s sep = None → strings.Split s sep = [s].
Proof. apply genSplit_no_sep. Qed.

Lemma Split_first_char (d : ascii) (a b : string) :
  strings.Index a (String d EmptyString) = None →
  strings.Split (a +:+ String d b) (String d EmptyString) !! 0 = Some a.
Proof.
  intros Hno. unfold strings.Split.
  destruct (String.length (a +:+ String d b)) as [|n] eqn:El.
  { destruct a; discriminate. }
  rewrite genSplit_more, Index_char_app by done.
  simpl. by rewrite Nat.add_0_r, take_app_length.
Qed.

Lemma Split_after_separator (sep s : string) :
  strings.Index s sep = None →
  strings.Split (sep +:+ s) sep = [""; s].
Proof.
  intros Hno. unfold strings.Split.
  destruct (String.length (sep +:+ s)) as [|n] eqn:Hlen.
  { destruct sep; [|done]. destruct s; [|done]. cbn in Hno. done. }
  rewrite genSplit_more, Index_prefix. cbn [plus].
  rewrite drop_app_length. by rewrite genSplit_no_sep.
Qed.

(** ** Key substitution *)

Lemma updateMap_lookup key value (m : gmap string jvalue) k :
  updateMap key value m !! k = updateEntry key value k <$> m !! k.
Proof. unfold updateMap. rewrite map_lookup_imap. by destruct (m !! k). Qed.

Lemma updateEntry_object key value k o :
  updateEntry key value k (JObject o) = JObject (updateMap key value o).
Proof. done. Qed.

Lemma updateEntry_array key value k s :
  updateEntry key value k (JArray s) = JArray (updateElement key value <$> s).
Proof. done. Qed.

Lemma updateEntry_scalar key value k v :
  isScalar v = true →
  updateEntry key value k v = if decide (k = key) then value else v.
Proof. by destruct v. Qed.

Lemma jget_scalar p v v' :
  isScalar v = true → jget p v = Some v' → p = [] ∧ v' = v.
Proof. destruct p as [|[k|i] p], v; cbn; try done; by intros _ [= <-]. Qed.

Lemma updateMap_dom key value (m : gmap string jvalue) :
  dom (updateMap key value m) = dom m.
Proof.
  apply set_eq. intros k. rewrite !elem_of_dom, updateMap_lookup.
  by rewrite fmap_is_Some.
Qed.

Lemma sameShape_refl v : isScalar v = false → sameShape v v.
Proof. by destruct v. Qed.

Lemma replaced_at_visited key value (n : nat) :
  ∀ p m v,
    length p < n →
    visited p = true →
    jget (p ++ [Key key]) (JObject m) = Some v →
    isScalar v = true →
    jget (p ++ [Key key]) (JObject (updateMap key value m)) = Some value.
Proof.
  induction n as [|n IH]; intros p m v Hlen Hvis Hget Hsc; [lia|].
  destruct p as [|[k|i] p]; [| |done].
  - cbn in *. rewrite updateMap_lookup.
    destruct (m !! key) as [v0|]; [|done]. cbn in *. injection Hget as ->.
    rewrite updateEntry_scalar by done. by rewrite decide_True.
  - cbn [app jget] in *. rewrite updateMap_lookup.
    destruct (m !! k) as [v0|]; [|done].
    cbn [fmap option_fmap option_map mbind option_bind] in *.
    cbn [length] in Hlen.
    destruct p as [|[k'|i] p].
    + cbn in Hget. destruct v0 as [| | | | |o]; try done.
      rewrite updateEntry_object.
      apply (IH [] o v); cbn; [lia|done|done|done].
    + destruct v0 as [| | | | |o]; try done.
      rewrite updateEntry_object.
      apply (IH (Key k' :: p) o v); [cbn [length] in *; lia|done|done|done].
    + destruct v0 as [| | | |s|]; try done.
      rewrite updateEntry_array. cbn [app jget] in *.
      rewrite list_lookup_fmap. destruct (s !! i) as [e|]; [|done].
      cbn [fmap option_fmap option_map mbind option_bind] in *.
      destruct e as [| | | | |o]; try (by destruct p as [|[?|?] ?]).
      cbn [updateElement]. cbn [length] in Hlen.
      apply (IH p o v); [lia|done|done|done].
Qed.

Lemma scalar_elsewhere key value (n : nat) :
  ∀ p m v,
    length p < n →
    jget p (JObject m) = Some v →
    isScalar v = true →
    last p ≠ Some (Key key) →
    jget p (JObject (updateMap key value m)) = Some v.
Proof.
  induction n as [|n IH]; intros p m v Hlen Hget Hsc Hlast; [lia|].
  destruct p as [|[k|i] p]; [by injection Hget as <-| |done].
  cbn [jget] in *. rewrite updateMap_lookup.
  destruct (m !! k) as [v0|]; [|done].
  cbn [fmap option_fmap option_map mbind option_bind] in *.
  destruct (isScalar v0) eqn:Hv0.
  - apply jget_scalar in Hget as [-> ->]; [|done].
    rewrite updateEntry_scalar by done. rewrite decide_False; [done|].
    intros ->. by apply Hlast.
  - destruct v0 as [| | | |s|o]; try done.
    + rewrite updateEntry_array.
      destruct p as [|[k'|i] p]; [by injection Hget as <-|done|].
      cbn [jget] in *. rewrite list_lookup_fmap.
      destruct (s !! i) as [e|]; [|done].
      cbn [fmap option_fmap option_map mbind option_bind] in *.
      destruct e as [| | | | |o]; try done.
      cbn [updateElement]. apply IH; [cbn in *; lia|done|done|].
      destruct p; [by injection Hget as <-|done].
    + rewrite updateEntry_object. apply IH; [cbn in *; lia|done|done|].
      destruct p; [by injection Hget as <-|done].
Qed.

Lemma container_kept key value (n : nat) :
  ∀ p m v,
    length p < n →
    jget p (JObject m) = Some v →
    isScalar v = false →
    ∃ v', jget p (JObject (updateMap key value m)) = Some v' ∧ sameShape v v'.
Proof.
  induction n as [|n IH]; intros p m v Hlen Hget Hsc; [lia|].
  destruct p as [|[k|i] p]; [| |done].
  { injection Hget as <-. eexists. split; [done|]. cbn. by rewrite updateMap_dom. }
  cbn [jget] in *. rewrite updateMap_lookup.
  destruct (m !! k) as [v0|]; [|done].
  cbn [fmap option_fmap option_map mbind option_bind] in *.
  destruct (isScalar v0) eqn:Hv0.
  { apply jget_scalar in Hget as [-> ->]; [congruence|done]. }
  destruct v0 as [| | | |s|o]; try done.
  - rewrite updateEntry_array. destruct p as [|[k'|i] p]; [|done|].
    + injection Hget as <-. eexists. split; [done|]. cbn. by rewrite length_fmap.
    + cbn [jget] in *. rewrite list_lookup_fmap.
      destruct (s !! i) as [e|]; [|done].
      cbn [fmap option_fmap option_map mbind option_bind] in *.
      destruct e as [| | | | |o];
        try (eexists; split; [done|]; by apply sameShape_refl).
      cbn [updateElement]. apply IH; [cbn in *; lia|done|done].
  - rewrite updateEntry_object. apply IH; [cbn in *; lia|done|done].
Qed.

(** json.go, what the walk does replace: one application of
    [updateKeyValuesInMap] replaces the value of every occurrence of the
    key that holds a scalar and lies in an object reached from the root
    through object members and through objects that are elements of array
    members, and it leaves every scalar at any other position (under
    another key, or as an element of an array) as it is. *)
Theorem updateKeyValuesInMap_scalars (key : string) (value : jvalue)
    (m : gmap string jvalue) (p : list step) (v : jvalue) :
  (visited p = true →
   jget (p ++ [Key key]) (JObject m) = Some v → isScalar v = true →
   jget (p ++ [Key key]) (JObject (updateKeyValuesInMap key value m)) = Some value)
  ∧ (jget p (JObject m) = Some v → isScalar v = true →
     last p ≠ Some (Key key) →
     jget p (JObject (updateKeyValuesInMap key value m)) = Some v).
Proof.
  unfold updateKeyValuesInMap. split.
  - by apply (replaced_at_visited key value (S (length p))); [lia|..].
  - by apply (scalar_elsewhere key value (S (length p))); [lia|..].
Qed.

(** A position that holds an object or an array still holds one of the same
    extent after the update: the walk never replaces a container. *)
Lemma updateKeyValuesInMap_containers (key : string) (value : jvalue)
    (m : gmap string jvalue) (p : list step) (v : jvalue) :
  jget p (JObject m) = Some v → isScalar v = false →
  ∃ v', jget p (JObject (updateKeyValuesInMap key value m)) = Some v'
        ∧ sameShape v v'.
Proof. by apply (container_kept key value (S (length p))); [lia|..]. Qed.

(** What the walk leaves under a member of a visited object. *)
Lemma entry_at_visited key value (n : nat) :
  ∀ p m k v,
    length p < n →
    visited p = true →
    jget (p ++ [Key k]) (JObject m) = Some v →
    jget (p ++ [Key k]) (JObject (updateMap key value m))
    = Some (updateEntry key value k v).
Proof.
  induction n as [|n IH]; intros p m k v Hlen Hvis Hget; [lia|].
  destruct p as [|[k0|i] p]; [| |done].
  - cbn in *. rewrite updateMap_lookup.
    destruct (m !! k) as [v0|]; [|done]. cbn in *. by injection Hget as ->.
  - cbn [app jget] in *. rewrite updateMap_lookup.
    destruct (m !! k0) as [v0|]; [|done].
    cbn [fmap option_fmap option_map mbind option_bind] in *.
    cbn [length] in Hlen.
    destruct p as [|[k'|i] p].
    + cbn in Hget. destruct v0 as [| | | | |o]; try done.
      rewrite updateEntry_object.
      apply (IH [] o k v); cbn; [lia|done|done].
    + destruct v0 as [| | | | |o]; try done.
      rewrite updateEntry_object.
      apply (IH (Key k' :: p) o k v); [cbn [length] in *; lia|done|done].
    + destruct v0 as [| | | |s|]; try done.
      rewrite updateEntry_array. cbn [app jget] in *.
      rewrite list_lookup_fmap. destruct (s !! i) as [e|]; [|done].
      cbn [fmap option_fmap option_map mbind option_bind] in *.
      destruct e as [| | | | |o]; try (by destruct p as [|[?|?] ?]).
      cbn [updateElement]. cbn [length] in Hlen.
      apply (IH p o k v); [lia|done|done].
Qed.

(** An element of an array that is not an object is left as it is, with
    all it holds. *)
Lemma below_element_kept key value (n : nat) :
  ∀ p m k i e q v,
    length p < n →
    visited p = true →
    jget (p ++ [Key k; Idx i]) (JObject m) = Some e →
    (∀ o, e ≠ JObject o) →
    jget (p ++ [Key k; Idx i] ++ q) (JObject m) = Some v →
    jget (p ++ [Key k; Idx i] ++ q) (JObject (updateMap key value m)) = Some v.
Proof.
  induction n as [|n IH]; intros p m k i e q v Hlen Hvis He Hno Hget; [lia|].
  destruct p as [|[k0|i0] p]; [| |done].
  - cbn [app jget] in *. rewrite updateMap_lookup.
    destruct (m !! k) as [v0|]; [|done].
    cbn [fmap option_fmap option_map mbind option_bind] in *.
    destruct v0 as [| | | |s|]; try done.
    rewrite updateEntry_array. rewrite list_lookup_fmap.
    destruct (s !! i) as [e'|]; [|done].
    cbn [fmap option_fmap option_map mbind option_bind] in *.
    injection He as ->.
    destruct e as [| | | | |o]; try done. by destruct (Hno o).
  - cbn [app jget] in *. rewrite updateMap_lookup.
    destruct (m !! k0) as [v0|]; [|done].
    cbn [fmap option_fmap option_map mbind option_bind] in *.
    cbn [length] in Hlen.
    destruct p as [|[k'|i'] p].
    + destruct v0 as [| | | | |o]; try done.
      rewrite updateEntry_object.
      apply (IH [] o k i e q v); cbn [length]; [lia|done..].
    + destruct v0 as [| | | | |o]; try done.
      rewrite updateEntry_object.
      apply (IH (Key k' :: p) o k i e q v); [cbn [length] in *; lia|done..].
    + destruct v0 as [| | | |s|]; try done.
      rewrite updateEntry_array. cbn [app jget] in *.
      rewrite list_lookup_fmap. destruct (s !! i') as [e'|]; [|done].
      cbn [fmap option_fmap option_map mbind option_bind] in *.
      destruct e' as [| | | | |o]; try (by destruct p as [|[?|?] ?]).
      cbn [updateElement]. cbn [length] in Hlen.
      apply (IH p o k i e q v); [lia|done..].
Qed.

(** C2 (the code departs from it, and from its own comment, "updates
    every instance of a key"): in an object that the walk visits, an
    occurrence of the key whose value is an object or an array is not
    given the value, the walk only continues inside it; and an element of
    an array that is not an object (an array nested in an array, in
    particular) is left as it is with all it holds, so that no occurrence
    of the key below it is replaced. *)
Theorem updateKeyValuesInMap_misses_occurrences
    (key : string) (value : jvalue) (m : gmap string jvalue) (p : list step) :
  visited p = true →
  (∀ o, jget (p ++ [Key key]) (JObject m) = Some (JObject o) →
        jget (p ++ [Key key]) (JObject (updateKeyValuesInMap key value m))
        = Some (JObject (updateKeyValuesInMap key value o)))
  ∧ (∀ s, jget (p ++ [Key key]) (JObject m) = Some (JArray s) →
          jget (p ++ [Key key]) (JObject (updateKeyValuesInMap key value m))
          = Some (JArray (updateElement key value <$> s)))
  ∧ (∀ k i e q v,
        jget (p ++ [Key k; Idx i]) (JObject m) = Some e →
        (∀ o, e ≠ JObject o) →
        jget (p ++ [Key k; Idx i] ++ q) (JObject m) = Some v →
        jget (p ++ [Key k; Idx i] ++ q)
             (JObject (updateKeyValuesInMap key value m)) = Some v).
Proof.
  intros Hvis. unfold updateKeyValuesInMap. split_and!.
  - intros o Hget.
    by rewrite (entry_at_visited key value (S (length p)) p m key _) by (lia || done).
  - intros s Hget.
    by rewrite (entry_at_visited key value (S (length p)) p m key _) by (lia || done).
  - intros k i e q v He Hno Hget.
    by apply (below_element_kept key value (S (length p)) p m k i e); [lia|..].
Qed.

(** Two documents on which the result differs from replacing every
    occurrence: an occurrence of the key whose value is an object keeps
    that object, and an occurrence inside an array nested in an array is
    not reached. *)
Lemma updateKeyValuesInMap_not_every_occurrence :
  jget [Key "k"] (JObject (updateKeyValuesInMap "k" (JString "v") docObjectValue))
    = Some (JObject {[ "a" := JNull ]})
  ∧ jget [Key "a"; Idx 0; Idx 0; Key "k"]
         (JObject (updateKeyValuesInMap "k" (JString "v") docNestedArray))
    = Some JNull
  ∧ replaceEverywhere "k" (JString "v") (JObject docObjectValue)
    = JObject {[ "k" := JString "v" ]}
  ∧ JObject (updateKeyValuesInMap "k" (JString "v") docObjectValue)
    ≠ replaceEverywhere "k" (JString "v") (JObject docObjectValue).
Proof.
  split_and!.
  - vm_compute. reflexivity.
  - vm_compute. reflexivity.
  - vm_compute. reflexivity.
  - vm_compute. intros [=].
Qed.

(** ** Frames *)

Lemma World_eta (w : World) :
  mkWorld (args w) (allSnapshots w) (snapshotsLoaded w) (SnapshotsDir w)
          (getConfigResult w) (os w) (testing w) (stdout w) (stderr w) = w.
Proof. by destruct w. Qed.

Lemma with_os_twice w o1 o2 : with_os (with_os w o1) o2 = with_os w o2.
Proof. done. Qed.

Lemma with_os_same w : with_os w (os w) = w.
Proof. by destruct w. Qed.

Lemma preserves_mret {A B} (f : World → B) (a : A) : preserves f (mret a).
Proof. by intros w r w' [= <- <-]. Qed.

Lemma preserves_mbind {A A' B} (f : World → B) (m : M A) (k : A → M A') :
  preserves f m → (∀ a, preserves f (k a)) → preserves f (m ≫= k).
Proof.
  intros Hm Hk w r w'. unfold mbind, M_bind.
  destruct (m w) as [[a| |msg] w1] eqn:E.
  - intros Hka. rewrite (Hk a _ _ _ Hka). eauto.
  - intros [= <- <-]. eauto.
  - intros [= <- <-]. eauto.
Qed.

Lemma preserves_gets {A B} (f : World → B) (g : World → A) : preserves f (gets g).
Proof. by intros w r w' [= <- <-]. Qed.

Lemma preserves_lift {A B} (f : World → B) (o : outcome A) : preserves f (lift o).
Proof. by intros w r w' [= <- <-]. Qed.

Lemma preserves_panic {A B} (f : World → B) (msg : string) :
  preserves f (panic (A:=A) msg).
Proof. by intros w r w' [= <- <-]. Qed.

Lemma preserves_modify {B} (f : World → B) (g : World → World) :
  (∀ w, f (g w) = f w) → preserves f (modify g).
Proof. intros Hg w r w' [= <- <-]. apply Hg. Qed.

Ltac frame_prim :=
  let w := fresh "w" in let r := fresh "r" in let w' := fresh "w'" in
  let H := fresh "H" in
  intros w r w' H;
  repeat match type of H with
         | context [bool_decide ?P] => destruct (bool_decide P)
         | context [match ?x with _ => _ end] => destruct x
         end;
  simplify_eq; reflexivity.

Ltac frame_step :=
  match goal with
  | |- preserves _ (mret _) => apply preserves_mret
  | |- preserves _ (gets _) => apply preserves_gets
  | |- preserves _ (lift _) => apply preserves_lift
  | |- preserves _ (panic _) => apply preserves_panic
  | |- preserves _ (_ ≫= _) => apply preserves_mbind; [|intros ?]
  | |- preserves _ (match ?x with _ => _ end) => destruct x
  | |- preserves _ getConfig => apply preserves_gets
  | |- preserves _ os_Getwd => apply preserves_gets
  | |- preserves _ getTestingPath => apply preserves_gets
  | |- preserves _ (os_Stat_IsNotExist _) => apply preserves_gets
  | |- preserves _ (ioutil_ReadDir _) => apply preserves_gets
  | |- preserves _ (readFile _) => apply preserves_gets
  | |- preserves _ (modify _) => apply preserves_modify; intros ?; reflexivity
  | |- preserves _ (t_Error _) => apply preserves_modify; intros ?; reflexivity
  | |- preserves _ (fmt_Printf _) => apply preserves_modify; intros ?; reflexivity
  | |- preserves _ (t_Fatal _) => unfold t_Fatal; frame_prim
  end.

Ltac frame := repeat frame_step; eauto.

Global Instance allSnapshots_os : OSIndependent allSnapshots.
Proof. done. Qed.
Global Instance snapshotsLoaded_os : OSIndependent snapshotsLoaded.
Proof. done. Qed.
Global Instance args_os : OSIndependent args.
Proof. done. Qed.
Global Instance stdout_os : OSIndependent stdout.
Proof. done. Qed.
Global Instance getConfigResult_os : OSIndependent getConfigResult.
Proof. done. Qed.
Global Instance args_store : StoreIndependent args.
Proof. done. Qed.
Global Instance stdout_store : StoreIndependent stdout.
Proof. done. Qed.
Global Instance getConfigResult_store : StoreIndependent getConfigResult.
Proof. done. Qed.

(** ** The registry invariant, and when decode returns *)

Lemma maintains_mbind {A A'} (P : World → Prop) (m : M A) (k : A → M A') :
  maintains P m → (∀ a, maintains P (k a)) → maintains P (m ≫= k).
Proof.
  intros Hm Hk w r w' HP. unfold mbind, M_bind.
  destruct (m w) as [[a| |msg] w1] eqn:E.
  - intros Hka. eapply Hk; [|done]. eauto.
  - intros [= <- <-]. eauto.
  - intros [= <- <-]. eauto.
Qed.

Lemma preserves_maintains {A} (m : M A) :
  preserves allSnapshots m → maintains registryKeyed m.
Proof.
  intros Hm w r w' HP Hrun reg Hreg. apply HP.
  by rewrite <-(Hm _ _ _ Hrun).
Qed.

Lemma decodeSegment_keyed s snaps snaps' :
  keyed snaps → decodeSegment s snaps = Ret snaps' → keyed snaps'.
Proof.
  unfold decodeSegment. intros Hk.
  destruct (_ !! 0) as [c0|]; [|done]. destruct (_ !! 1) as [c1|]; [|done].
  intros [= <-]. by apply map_Forall_insert_2.
Qed.

Lemma decodeLoop_keyed segs snaps snaps' :
  keyed snaps → decodeLoop segs snaps = Ret snaps' → keyed snaps'.
Proof.
  revert snaps. induction segs as [|s segs IH]; intros snaps Hk; cbn [decodeLoop].
  - by intros [= <-].
  - destruct (decide (s = "")); [by apply IH|].
    destruct (decodeSegment s snaps) as [snaps1| |] eqn:Hseg; [|done|done].
    apply IH. by eapply decodeSegment_keyed.
Qed.

Lemma decode_keyed data snaps err :
  decode data = Ret (snaps, err) → keyed snaps ∧ err = None.
Proof.
  unfold decode. destruct (decodeLoop _ ∅) as [m| |] eqn:Hloop; [|done|done].
  intros [= <- <-]. split; [|done].
  eapply decodeLoop_keyed; [|done]. apply map_Forall_empty.
Qed.

Lemma SplitAfterN_two (s sep : string) (i : nat) :
  strings.Index s sep = Some i →
  strings.SplitAfterN s sep 2
  = [strings.take (i + String.length sep) s;
     strings.drop (i + String.length sep) s].
Proof. intros Hi. unfold strings.SplitAfterN. by rewrite genSplit_more, Hi. Qed.

Lemma decodeSegment_returns s snaps :
  is_Some (strings.Index s LF) → ∃ snaps', decodeSegment s snaps = Ret snaps'.
Proof.
  intros [i Hi]. unfold decodeSegment. rewrite (SplitAfterN_two _ _ _ Hi). cbn.
  eauto.
Qed.

Lemma decodeSegment_panics s snaps :
  strings.Index s LF = None →
  decodeSegment s snaps = Panic "index out of range [1] with length 1".
Proof.
  intros Hno. unfold decodeSegment, strings.SplitAfterN.
  by rewrite genSplit_no_sep.
Qed.

Lemma decodeLoop_outcome segs snaps :
  (Forall decodable segs ∧ ∃ snaps', decodeLoop segs snaps = Ret snaps')
  ∨ (¬ Forall decodable segs
     ∧ decodeLoop segs snaps = Panic "index out of range [1] with length 1").
Proof.
  revert snaps. induction segs as [|s segs IH]; intros snaps; cbn [decodeLoop].
  { left. split; [constructor|eauto]. }
  destruct (decide (s = "")) as [->|Hne].
  { destruct (IH snaps) as [[Hall Hret]|[Hnot Hpanic]].
    - left. split; [|done]. constructor; [by left|done].
    - right. split; [|done]. by intros [_ ?]%Forall_cons. }
  destruct (strings.Index s LF) as [i|] eqn:Hi.
  - destruct (decodeSegment_returns s snaps) as [snaps1 ->]; [by rewrite Hi|].
    destruct (IH snaps1) as [[Hall Hret]|[Hnot Hpanic]].
    + left. split; [|done]. constructor; [right; by rewrite Hi|done].
    + right. split; [|done]. by intros [_ ?]%Forall_cons.
  - rewrite decodeSegment_panics by done. right. split; [|done].
    intros [[?|[? Hs]] _]%Forall_cons; [done|]. by rewrite Hi in Hs.
Qed.

(** [decode] never returns an error: it returns a record set and nil
    exactly when every non-empty segment between delimiters holds a
    newline, and panics otherwise. *)
Theorem decode_outcome (data : string) :
  (Forall decodable (strings.Split data snapshotSeparator)
   ∧ ∃ snaps, decode data = Ret (snaps, None))
  ∨ (¬ Forall decodable (strings.Split data snapshotSeparator)
     ∧ decode data = Panic "index out of range [1] with length 1").
Proof.
  unfold decode.
  destruct (decodeLoop_outcome (strings.Split data snapshotSeparator) ∅)
    as [[Hall [snaps ->]]|[Hnot ->]]; [left|right]; eauto.
Qed.

Section properties.
Context `{libs : Libs} `{runtime : Runtime}.

Lemma elem_of_range {V : Type} (m : gmap string V) k v :
  (k, v) ∈ range m ↔ m !! k = Some v.
Proof. by rewrite (range_perm V m), elem_of_map_to_list. Qed.

Lemma NoDup_fst_range {V : Type} (m : gmap string V) : NoDup (range m).*1.
Proof. rewrite (range_perm V m). apply NoDup_fst_map_to_list. Qed.

Lemma range_singleton {V : Type} (k : string) (v : V) :
  range ({[ k := v ]} : gmap string V) = [(k, v)].
Proof.
  apply Permutation_singleton_r. rewrite (range_perm V).
  by rewrite map_to_list_singleton.
Qed.

Lemma length_filter_range {V : Type} (P : string * V → Prop)
    `{!∀ x, Decision (P x)} (m : gmap string V) :
  length (filter P (range m)) = size (filter P m).
Proof.
  rewrite (range_perm V m).
  rewrite <-length_map_to_list, map_filter_alt.
  rewrite map_to_list_to_map; [done|].
  apply (sublist_NoDup _ ((map_to_list m).*1)).
  - apply NoDup_fst_map_to_list.
  - apply fmap_sublist, sublist_filter.
Qed.

(** ** CleanupOrFail *)

Lemma countUnused_spec (l : list (string * snapshot)) (n : nat) (w : World) :
  countUnused l n w
  = (Ret (n + length (filter (λ kv, evaluated kv.2 = false) l)),
     with_stderr w (stderr w ++ unusedMessages l)).
Proof.
  revert n w. induction l as [|[k s] l IH]; intros n w.
  - cbn. unfold unusedMessages; cbn. rewrite Nat.add_0_r, app_nil_r.
    unfold with_stderr. by rewrite World_eta.
  - cbn [countUnused]. unfold unusedMessages. rewrite !filter_cons. cbn [snd].
    destruct (evaluated s) eqn:Ev; cbn [negb].
    + rewrite decide_False by done. apply IH.
    + rewrite decide_True by done.
      unfold mbind, M_bind, fmt_Fprintf_Stderr, modify. rewrite IH.
      cbn. rewrite <-(assoc_L _ (stderr w)). cbn.
      by rewrite Nat.add_succ_r.
Qed.

Lemma unusedCount_pos (w : World) :
  unusedCount w ≠ 0
  ↔ ∃ k s, allSnapshots w ≫= (.!! k) = Some s ∧ evaluated s = false.
Proof.
  unfold unusedCount. rewrite map_size_non_empty_iff.
  destruct (allSnapshots w) as [m|]; cbn.
  - split.
    + intros Hne. apply map_choose in Hne as (k & s & Hks).
      apply map_lookup_filter_Some in Hks as [? ?]. eauto.
    + intros (k & s & Hks & Hev) Hempty.
      assert (filter (λ kv : string * snapshot, evaluated kv.2 = false) m !! k
              = Some s) as Hin by by apply map_lookup_filter_Some.
      by rewrite Hempty in Hin.
  - rewrite map_filter_empty. split; [done|]. by intros (k & s & ? & ?).
Qed.

(** C5: in single-run mode [CleanupOrFail] returns nil and does nothing.
    With single-run and update mode both off it returns an error exactly
    when some record of the registry has [evaluated = false], the error
    message carries the number of such records, and nothing but the
    diagnostic output changes. *)
Theorem CleanupOrFail_strict (w : World) :
  (singleRun (args w) = true → CleanupOrFail w = (Ret None, w))
  ∧ (singleRun (args w) = false → shouldUpdate (args w) = false →
     ∃ w',
       CleanupOrFail w
       = (Ret (if decide (unusedCount w = 0) then None
               else Some (pretty (unusedCount w) +:+ " unused snapshots")), w')
       ∧ with_stderr w' (stderr w) = w
       ∧ (unusedCount w ≠ 0
          ↔ ∃ k s, allSnapshots w ≫= (.!! k) = Some s ∧ evaluated s = false)).
Proof.
  split.
  - intros Hs. unfold CleanupOrFail, mbind, M_bind, gets. by rewrite Hs.
  - intros Hs Hu. unfold CleanupOrFail, mbind, M_bind, gets. rewrite Hs, Hu.
    rewrite countUnused_spec. cbn [plus].
    assert (length (filter (λ kv : string * snapshot, evaluated kv.2 = false)
                      (rangeSnapshots (allSnapshots w))) = unusedCount w) as ->.
    { unfold unusedCount, rangeSnapshots. destruct (allSnapshots w) as [m|]; cbn.
      - apply length_filter_range.
      - by rewrite map_filter_empty, map_size_empty. }
    eexists. split_and!.
    + destruct (decide (unusedCount w = 0)) as [->|Hne].
      * rewrite bool_decide_eq_false_2 by lia. reflexivity.
      * rewrite bool_decide_eq_true_2 by lia. reflexivity.
    + unfold with_stderr; cbn. apply World_eta.
    + apply unusedCount_pos.
Qed.

(** ** Frames of the store operations *)

Lemma os_Mkdir_frame {B} (f : World → B) `{!OSIndependent f} dir :
  preserves f (os_Mkdir dir).
Proof.
  intros w r w'. unfold os_Mkdir. case_bool_decide; intros [= <- <-]; [done|].
  apply os_independent.
Qed.

Lemma ioutil_WriteFile_frame {B} (f : World → B) `{!OSIndependent f} p data :
  preserves f (ioutil_WriteFile p data).
Proof.
  intros w r w'. unfold ioutil_WriteFile.
  case_bool_decide; intros [= <- <-]; [done|].
  apply os_independent.
Qed.

Lemma findOrCreateSnapshotDirectory_frame {B} (f : World → B)
    `{!OSIndependent f} :
  preserves f findOrCreateSnapshotDirectory.
Proof. unfold findOrCreateSnapshotDirectory. frame. by apply os_Mkdir_frame. Qed.

Lemma getTestingPackage_frame {B} (f : World → B) : preserves f getTestingPackage.
Proof. unfold getTestingPackage. frame. Qed.

Lemma parseAll_frame {B} (f : World → B) paths snaps :
  preserves f (parseAll paths snaps).
Proof.
  revert snaps. induction paths as [|p rest IH]; intros snaps; cbn [parseAll].
  - frame.
  - unfold parseOne. frame.
Qed.

Lemma parseSnapshotsFromPaths_frame {B} (f : World → B) paths :
  preserves f (parseSnapshotsFromPaths paths).
Proof. unfold parseSnapshotsFromPaths. frame. apply parseAll_frame. Qed.

Lemma parseSnapshotsFromPaths_nil_error paths w snaps err w' :
  parseSnapshotsFromPaths paths w = (Ret (snaps, err), w') → err = None.
Proof.
  unfold parseSnapshotsFromPaths, mbind, M_bind.
  destruct (parseAll _ _ w) as [[a| |msg] w1]; by intros [= <- <- <-].
Qed.

Lemma saveFiles_frame {B} (f : World → B) `{!OSIndependent f} l :
  preserves f (saveFiles l).
Proof.
  induction l as [|[p snaps] l IH]; cbn [saveFiles]; [frame|].
  destruct (decide (p = "")); [done|].
  destruct (encode _) as [data [e|]]; [frame|].
  apply preserves_mbind; [by apply ioutil_WriteFile_frame|].
  intros [e|]; [frame|done].
Qed.

Lemma save_frame {B} (f : World → B) `{!OSIndependent f} s : preserves f (save s).
Proof. unfold save. by apply saveFiles_frame. Qed.

Lemma reloadSnapshots_frame {B} (f : World → B)
    `{!OSIndependent f, !StoreIndependent f} :
  preserves f reloadSnapshots.
Proof.
  unfold reloadSnapshots.
  apply preserves_mbind; [by apply findOrCreateSnapshotDirectory_frame|].
  intros [dir [e|]]; [frame|].
  apply preserves_mbind; [frame|]. intros [files [e|]]; [frame|].
  apply preserves_mbind; [apply parseSnapshotsFromPaths_frame|].
  intros [snaps err]. apply preserves_mbind; [|intros ?; frame].
  apply preserves_modify. intros w. apply store_independent_reg.
Qed.

Lemma loadSnapshots_frame {B} (f : World → B)
    `{!OSIndependent f, !StoreIndependent f} :
  preserves f loadSnapshots.
Proof.
  intros w r w'. unfold loadSnapshots. destruct (snapshotsLoaded w).
  - by intros [= <- <-].
  - destruct (reloadSnapshots w) as [r0 w0] eqn:Hre. intros [= <- <-].
    rewrite store_independent_loaded. by eapply reloadSnapshots_frame.
Qed.

Lemma getSnapshot_frame {B} (f : World → B)
    `{!OSIndependent f, !StoreIndependent f} id :
  preserves f (getSnapshot id).
Proof.
  unfold getSnapshot. apply preserves_mbind; [by apply loadSnapshots_frame|].
  intros [e|]; frame.
Qed.

Lemma storeSnapshot_frame {B} (f : World → B) `{!StoreIndependent f} id s :
  preserves f (storeSnapshot id s).
Proof.
  intros w r w'. unfold storeSnapshot.
  destruct (allSnapshots w); intros [= <- <-]; [|done].
  apply store_independent_reg.
Qed.

Lemma writeSnapshot_frame {B} (f : World → B)
    `{!OSIndependent f, !StoreIndependent f} id value isUpdate :
  preserves f (writeSnapshot id value isUpdate).
Proof.
  unfold writeSnapshot. cbn [isValid negb].
  apply preserves_mbind; [by apply loadSnapshots_frame|]. intros [e|]; [frame|].
  apply preserves_mbind; [by apply findOrCreateSnapshotDirectory_frame|].
  intros [dir [e|]]; [frame|].
  apply preserves_mbind; [by apply getTestingPackage_frame|].
  intros [pkg [e|]]; [frame|].
  apply preserves_mbind; [by apply storeSnapshot_frame|]. intros _.
  apply preserves_mbind; [frame|]. intros all.
  apply preserves_mbind; [by apply save_frame|]. intros [e|]; frame.
Qed.

(** ** Loading once *)

Lemma reloadSnapshots_error w e w' :
  reloadSnapshots w = (Ret (Some e), w') → allSnapshots w' = allSnapshots w.
Proof.
  unfold reloadSnapshots, mbind at 1, M_bind at 1.
  destruct (findOrCreateSnapshotDirectory w) as [[[dir [e1|]]| |] w1] eqn:Hdir;
    try by intros [=].
  - intros [= <- <-].
    by apply (findOrCreateSnapshotDirectory_frame allSnapshots) in Hdir.
  - apply (findOrCreateSnapshotDirectory_frame allSnapshots) in Hdir as <-.
    unfold mbind at 1, M_bind at 1, ioutil_ReadDir at 1, gets at 1.
    destruct (bool_decide _); [|by intros [= <- <-]].
    unfold mbind at 1, M_bind at 1.
    destruct (parseSnapshotsFromPaths _ w1) as [[[snaps err]| |] w2] eqn:Hparse;
      try by intros [=].
    apply parseSnapshotsFromPaths_nil_error in Hparse as ->.
    by intros [=].
Qed.

(** C10: the registry load runs at most once.  A call made when the guard
    is set returns nil and leaves the state as it is; every call, however
    it ends, sets the guard, so the call after it is such a call; and a
    first call that returned an error has left the registry untouched, so
    that a registry that was nil stays nil and every later lookup finds
    no record and reports no error. *)
Theorem loadSnapshots_once (w : World) :
  (snapshotsLoaded w = true → loadSnapshots w = (Ret None, w))
  ∧ (∀ r w', loadSnapshots w = (r, w') →
       snapshotsLoaded w' = true ∧ loadSnapshots w' = (Ret None, w'))
  ∧ (∀ e w', snapshotsLoaded w = false → loadSnapshots w = (Ret (Some e), w') →
       allSnapshots w' = allSnapshots w
       ∧ (allSnapshots w = None → ∀ id, getSnapshot id w' = (Ret None, w'))).
Proof.
  assert (∀ w0, snapshotsLoaded w0 = true → loadSnapshots w0 = (Ret None, w0))
    as Hdone.
  { intros w0 Hl. unfold loadSnapshots. by rewrite Hl. }
  assert (∀ r w', loadSnapshots w = (r, w') → snapshotsLoaded w' = true) as Hset.
  { intros r w'. unfold loadSnapshots.
    destruct (snapshotsLoaded w) eqn:Hl.
    - by intros [= <- <-].
    - destruct (reloadSnapshots w) as [r0 w0]. by intros [= <- <-]. }
  split; [apply Hdone|]. split; [by eauto|].
  intros e w' Hl Hload.
  assert (allSnapshots w' = allSnapshots w) as Hreg.
  { revert Hload. unfold loadSnapshots. rewrite Hl.
    destruct (reloadSnapshots w) as [r0 w0] eqn:Hre. intros [= -> <-].
    cbn. by apply reloadSnapshots_error in Hre. }
  split; [done|].
  intros Hnil id. unfold getSnapshot, mbind, M_bind.
  rewrite (Hdone w') by eauto. unfold gets. by rewrite Hreg, Hnil.
Qed.

Lemma loadSnapshots_loaded w r w' :
  loadSnapshots w = (r, w') → snapshotsLoaded w' = true.
Proof.
  intros H. unfold loadSnapshots in H. destruct (snapshotsLoaded w) eqn:Hl.
  - by injection H as <- <-.
  - destruct (reloadSnapshots w) as [r0 w0]. by injection H as <- <-.
Qed.

Lemma loadSnapshots_done w :
  snapshotsLoaded w = true → loadSnapshots w = (Ret None, w).
Proof. intros Hl. unfold loadSnapshots. by rewrite Hl. Qed.

(** ** save *)

Lemma groupByPath_snoc l e :
  groupByPath (l ++ [e])
  = <[snap_path e.2 := default [] (groupByPath l !! snap_path e.2) ++ [e.2]]>
      (groupByPath l).
Proof. unfold groupByPath. by rewrite foldl_snoc. Qed.

Lemma groupByPath_lookup (l : list (string * snapshot)) (p : string) :
  groupByPath l !! p
  = (let g := filter (λ s, snap_path s = p) l.*2 in
     if decide (g = []) then None else Some g).
Proof.
  induction l as [|e l IH] using rev_ind; [done|].
  rewrite groupByPath_snoc, fmap_app, filter_app. cbn [fmap list_fmap].
  destruct (decide (snap_path e.2 = p)) as [Hp|Hne].
  - rewrite filter_cons_True, filter_nil by done. subst p.
    rewrite lookup_insert_eq, IH. cbn zeta.
    set (f := filter _ l.*2).
    destruct (decide (f ++ [e.2] = [])) as [[? ?]%app_eq_nil|_]; [done|].
    f_equal. f_equal. by destruct (decide (f = [])) as [->|].
  - rewrite filter_cons_False, filter_nil by done.
    rewrite lookup_insert_ne by done. rewrite IH. cbn zeta. by rewrite app_nil_r.
Qed.

Lemma snapshotMapOf_snoc l x :
  snapshotMapOf (l ++ [x])
  = if shouldRemove x then snapshotMapOf l
    else <[snap_id x := x]> (snapshotMapOf l).
Proof. unfold snapshotMapOf. by rewrite foldl_snoc. Qed.

Lemma snapshotMapOf_lookup (l : list snapshot) (k : string) (s : snapshot) :
  NoDup (snap_id <$> l) →
  snapshotMapOf l !! k = Some s ↔ s ∈ l ∧ shouldRemove s = false ∧ snap_id s = k.
Proof.
  induction l as [|x l IH] using rev_ind; intros Hnd.
  { cbn. rewrite lookup_empty. split; [done|]. by intros [?%elem_of_nil _]. }
  rewrite fmap_app in Hnd. apply NoDup_app in Hnd as (Hnd & Hnotin & _).
  specialize (IH Hnd).
  rewrite snapshotMapOf_snoc, elem_of_app, list_elem_of_singleton.
  destruct (shouldRemove x) eqn:Hx.
  - rewrite IH. split.
    + intros (? & ? & ?). auto.
    + intros ([?| ->] & ? & ?); [done|congruence].
  - destruct (decide (snap_id x = k)) as [<-|Hne].
    + rewrite lookup_insert_eq. split; [intros [= <-]; auto|].
      intros ([Hin| ->] & ? & Hid); [|done].
      exfalso. apply (Hnotin (snap_id x)).
      * rewrite <-Hid. by apply list_elem_of_fmap_2.
      * cbn. apply list_elem_of_singleton. done.
    + rewrite lookup_insert_ne by done. rewrite IH. split.
      * intros (? & ? & ?). auto.
      * intros ([?| ->] & ? & ?); [done|congruence].
Qed.

Lemma snapshotMapOf_group (reg : gmap string snapshot) (p : string) :
  keyed reg →
  snapshotMapOf (filter (λ s, snap_path s = p) (range reg).*2) = persisted reg p.
Proof.
  intros Hkeyed. apply map_eq. intros k. apply option_eq. intros s.
  assert (snap_id <$> (range reg).*2 = (range reg).*1) as Hids.
  { apply list_eq_Forall2. rewrite <-!list_fmap_compose.
    apply Forall2_fmap, Forall_Forall2_diag, Forall_forall.
    intros [k' s'] Hin%elem_of_range. cbn. by apply Hkeyed. }
  rewrite snapshotMapOf_lookup.
  - unfold persisted. rewrite map_lookup_filter_Some, list_elem_of_filter. cbn.
    rewrite list_elem_of_fmap. split.
    + intros ((Hp & [k' s'] & -> & Hin%elem_of_range) & Hrm & Hid). cbn in *.
      rewrite <-Hid, (Hkeyed _ _ Hin). done.
    + intros (Hin & Hp & Hrm). pose proof (Hkeyed _ _ Hin).
      split_and!; [done| |done|done]. exists (k, s). by rewrite elem_of_range.
  - apply (sublist_NoDup _ (snap_id <$> (range reg).*2)).
    + rewrite Hids. apply NoDup_fst_range.
    + apply fmap_sublist, sublist_filter.
Qed.

Lemma encode_nil_error (m : gmap string snapshot) : (encode m).2 = None.
Proof. done. Qed.

Lemma saveFiles_spec (l : list (string * list snapshot)) (w : World) :
  NoDup l.*1 →
  ∃ (err : option error) (w' : World),
    saveFiles l w = (Ret err, w')
    ∧ with_os w' (os w) = w
    ∧ cwd (os w') = cwd (os w)
    ∧ dirs (os w') = dirs (os w)
    ∧ denied (os w') = denied (os w)
    ∧ (∀ p, files (os w') !! p = files (os w) !! p
            ∨ (p ≠ "" ∧ ∃ snaps, (p, snaps) ∈ l
                 ∧ files (os w') !! p = Some (fileContent snaps)))
    ∧ (err = None → ∀ p snaps, (p, snaps) ∈ l → p ≠ "" →
         files (os w') !! p = Some (fileContent snaps))
    ∧ ((∀ p snaps, (p, snaps) ∈ l → p ≠ "" →
          (p ∉ denied (os w)) ∧ (p ∉ dirs (os w))) → err = None).
Proof.
  revert w. induction l as [|[p0 s0] l IH]; intros w Hnd.
  { exists None, w. split_and!; try done.
    - apply with_os_same.
    - by left.
    - by intros _ p snaps ?%elem_of_nil. }
  cbn in Hnd. apply NoDup_cons in Hnd as [Hp0 Hnd].
  cbn [saveFiles]. destruct (decide (p0 = "")) as [->|Hne].
  { destruct (IH w Hnd)
      as (err & w' & -> & Hw & Hcwd & Hdirs & Hdenied & Hch & Hok & Hden).
    exists err, w'. split_and!; try done.
    - intros p. destruct (Hch p) as [?|(? & snaps & ? & ?)]; [by left|right].
      split; [done|]. exists snaps. split; [by right|done].
    - intros -> p snaps [[= -> ->]|Hin]%elem_of_cons ?; [done|].
      by apply (Hok eq_refl p snaps).
    - intros Hall. apply Hden. intros p snaps Hin. apply (Hall p snaps). by right. }
  destruct (encode (snapshotMapOf s0)) as [data err0] eqn:Henc.
  pose proof (encode_nil_error (snapshotMapOf s0)) as Herr0.
  rewrite Henc in Herr0. cbn in Herr0. subst err0.
  assert (data = fileContent s0) as -> by (unfold fileContent; by rewrite Henc).
  unfold mbind at 1, M_bind at 1, ioutil_WriteFile at 1.
  case_bool_decide as Hdeny.
  { exists (Some ("open " +:+ p0 +:+ ": failed")), w. split_and!; try done.
    - apply with_os_same.
    - by left.
    - intros Hall. destruct (Hall p0 s0) as [? ?]; [by left|done|]. tauto. }
  set (o1 := mkOS _ _ _ _).
  destruct (IH (with_os w o1) Hnd)
    as (err & w' & -> & Hw & Hcwd & Hdirs & Hdenied & Hch & Hok & Hden).
  exists err, w'. split_and!; try done.
  - apply (f_equal (λ w0, with_os w0 (os w))) in Hw.
    rewrite !with_os_twice in Hw. by rewrite Hw, with_os_same.
  - intros p. destruct (Hch p) as [Heq|(? & snaps & ? & ?)].
    + cbn in Heq. destruct (decide (p = p0)) as [->|Hpp].
      * right. split; [done|]. exists s0. split; [by left|].
        by rewrite Heq, lookup_insert_eq.
      * left. by rewrite Heq, lookup_insert_ne.
    + right. split; [done|]. exists snaps. split; [by right|done].
  - intros -> p snaps [[= -> ->]|Hin]%elem_of_cons Hpne;
      [|by apply (Hok eq_refl p snaps)].
    destruct (Hch p0) as [Heq|(_ & snaps & Hin & _)].
    + cbn in Heq. by rewrite Heq, lookup_insert_eq.
    + exfalso. apply Hp0. apply list_elem_of_fmap. by exists (p0, snaps).
  - intros Hall. apply Hden. intros p snaps Hin Hpne. cbn.
    apply (Hall p snaps); [by right|done].
Qed.

(** C6: for a registry in which every record is stored under its own
    identifier, [save] returns, changes nothing but the contents of files,
    and every file it has changed has a non-empty path that owns a record
    and holds the encoding of exactly the records of that path that are
    not marked should-remove; no file is written for the empty path.  When
    [save] returns nil every non-empty owning path holds that encoding,
    and it returns nil whenever none of these paths refuses the write. *)
Theorem save_persists (reg : gmap string snapshot) (w : World) :
  keyed reg →
  ∃ (err : option error) (w' : World),
    save (Some reg) w = (Ret err, w')
    ∧ with_os w' (os w) = w
    ∧ cwd (os w') = cwd (os w)
    ∧ dirs (os w') = dirs (os w)
    ∧ denied (os w') = denied (os w)
    ∧ (∀ p, files (os w') !! p = files (os w) !! p
            ∨ (p ≠ "" ∧ owns reg p
                 ∧ files (os w') !! p = Some (encode (persisted reg p)).1))
    ∧ (err = None → ∀ p, p ≠ "" → owns reg p →
         files (os w') !! p = Some (encode (persisted reg p)).1)
    ∧ ((∀ p, owns reg p → p ≠ "" →
          (p ∉ denied (os w)) ∧ (p ∉ dirs (os w))) → err = None).
Proof.
  intros Hkeyed. unfold save. cbn [rangeSnapshots].
  set (g := groupByPath (range reg)).
  assert (∀ p snaps, (p, snaps) ∈ range g →
            owns reg p ∧ fileContent snaps = (encode (persisted reg p)).1)
    as Hgroup.
  { intros p snaps Hin%elem_of_range. subst g. rewrite groupByPath_lookup in Hin.
    cbn zeta in Hin. case_decide as Hnil; [done|]. injection Hin as <-. split.
    - destruct (filter _ _) as [|s l'] eqn:Hf; [done|].
      assert (s ∈ filter (λ s, snap_path s = p) (range reg).*2) as Hs
        by (rewrite Hf; left).
      apply list_elem_of_filter in Hs as [Hp Hs].
      apply list_elem_of_fmap in Hs as ([k s'] & -> & Hks%elem_of_range).
      by exists k, s'.
    - unfold fileContent. by rewrite snapshotMapOf_group. }
  assert (∀ p, owns reg p → ∃ snaps, (p, snaps) ∈ range g) as Howned.
  { intros p (k & s & Hks & Hp). subst g.
    exists (filter (λ s, snap_path s = p) (range reg).*2).
    apply elem_of_range. rewrite groupByPath_lookup. cbn zeta.
    rewrite decide_False; [done|]. intros Hnil.
    assert (s ∈ filter (λ s, snap_path s = p) (range reg).*2) as Hs.
    { apply list_elem_of_filter. split; [done|]. apply list_elem_of_fmap.
      exists (k, s). by rewrite elem_of_range. }
    rewrite Hnil in Hs. by apply elem_of_nil in Hs. }
  destruct (saveFiles_spec (range g) w (NoDup_fst_range g))
    as (err & w' & Hsave & Hw & Hcwd & Hdirs & Hdenied & Hch & Hok & Hden).
  exists err, w'. split_and!; try done.
  - intros p. destruct (Hch p) as [?|(? & snaps & Hin & Hf)]; [by left|right].
    destruct (Hgroup _ _ Hin) as [? <-]. done.
  - intros Herr p Hpne Hown. destruct (Howned p Hown) as [snaps Hin].
    destruct (Hgroup _ _ Hin) as [_ <-]. by apply (Hok Herr p snaps).
  - intros Hall. apply Hden. intros p snaps Hin Hpne.
    destruct (Hgroup _ _ Hin) as [Hown _]. by apply Hall.
Qed.

(** ** The HTTP/JSON comparison *)

Lemma jsonBodyCleanup_empty (c : option config) (h : httpRequest) :
  body h = "" → jsonBodyCleanup c h = (h, None).
Proof. intros Hb. unfold jsonBodyCleanup. by rewrite Hb. Qed.

(** C1 (the code departs from it): when both bodies are empty after
    parsing, the header lines are equal after cleanup, the text diff finds
    no difference between equal texts and the JSON comparison reports two
    empty documents as both invalid, [compareResultsHTTPRequestJSON]
    returns a single line feed, not the empty string: the line feed is
    appended before the case of two empty bodies is looked at. *)
Theorem compareResultsHTTPRequestJSON_empty_bodies
    (w : World) (c : option config) (existing new explanation : string) :
  getConfigResult w = (c, None) →
  body (configCleanup c (plainToInternalRequest existing)) = "" →
  body (configCleanup c (plainToInternalRequest new)) = "" →
  headerDump (configCleanup c (plainToInternalRequest existing))
    = headerDump (configCleanup c (plainToInternalRequest new)) →
  (∀ text, nonEqual (DiffMain text text) = []) →
  jsondiff_Compare "" "" = (BothArgsAreInvalidJson, explanation) →
  compareResultsHTTPRequestJSON existing new w = (Ret LF, w) ∧ LF ≠ "".
Proof.
  intros Hc He Hn Hh Hdiff Hcmp. split; [|done].
  unfold compareResultsHTTPRequestJSON, mbind, M_bind, getConfig, gets.
  rewrite Hc. rewrite !jsonBodyCleanup_empty by done. cbn [fst].
  rewrite Hh, Hdiff. unfold byteBody. rewrite He, Hn, Hcmp. cbn.
  done.
Qed.

(** ** Creating a snapshot and asserting it again *)

(** The state right after a successful [writeSnapshot]. *)
Lemma writeSnapshot_spec id value isUpdate w p w' :
  writeSnapshot id value isUpdate w = (Ret (p, None), w') →
  p = Some id ∧ snapshotsLoaded w' = true
  ∧ ∃ m path, allSnapshots w' = Some m
              ∧ m !! id = Some (mkSnapshot id value path isUpdate false).
Proof.
  unfold writeSnapshot. cbn [isValid negb].
  unfold mbind at 1, M_bind at 1.
  destruct (loadSnapshots w) as [[[e|]| |] wa] eqn:Hload; try by intros [=].
  apply loadSnapshots_loaded in Hload.
  unfold mbind at 1, M_bind at 1.
  destruct (findOrCreateSnapshotDirectory wa) as [[[dir [e|]]| |] wb] eqn:Hdir;
    try by intros [=].
  apply (findOrCreateSnapshotDirectory_frame snapshotsLoaded) in Hdir as Hlb.
  unfold mbind at 1, M_bind at 1.
  destruct (getTestingPackage wb) as [[[pkg [e|]]| |] wc] eqn:Hpkg;
    try by intros [=].
  apply (getTestingPackage_frame snapshotsLoaded) in Hpkg as Hlc.
  unfold mbind at 1, M_bind at 1, storeSnapshot at 1.
  destruct (allSnapshots wc) as [m|] eqn:Hreg; [|by intros [=]].
  unfold mbind at 1, M_bind at 1, gets at 1. cbn [allSnapshots with_allSnapshots].
  unfold mbind at 1, M_bind at 1.
  destruct (save _ _) as [[[e|]| |] wd] eqn:Hsave; try by intros [=].
  intros [= <- <-].
  apply (save_frame snapshotsLoaded) in Hsave as Hld.
  apply (save_frame allSnapshots) in Hsave as Hrd.
  cbn in Hld, Hrd. split; [done|]. split; [congruence|].
  eexists _, _. split; [done|]. by rewrite lookup_insert_eq.
Qed.

(** The state right after [createOrUpdateSnapshot] has created a record. *)
Lemma fresh_snapshot_state (w w1 : World) (id data format : string) :
  shouldUpdate (args w) = true →
  (getSnapshot id w).1 = Ret None →
  createOrUpdateSnapshot id data format w = (Ret tt, w1) →
  snapshotsLoaded w1 = true ∧ args w1 = args w
  ∧ getConfigResult w1 = getConfigResult w
  ∧ ∃ m path, allSnapshots w1 = Some m
       ∧ m !! id = Some (mkSnapshot id data path true false).
Proof.
  intros Hupd Hnone. unfold createOrUpdateSnapshot.
  unfold mbind at 1, M_bind at 1.
  destruct (getSnapshot id w) as [r0 w0] eqn:Hget. cbn in Hnone. subst r0.
  apply (getSnapshot_frame args) in Hget as Ha0.
  apply (getSnapshot_frame getConfigResult) in Hget as Hc0.
  unfold mbind at 1, M_bind at 1, gets at 1. rewrite Ha0, Hupd. cbn [negb].
  unfold mbind at 1, M_bind at 1, fmt_Printf at 1, modify at 1.
  unfold mbind at 1, M_bind at 1, createSnapshot.
  destruct (writeSnapshot _ _ _ _) as [[[p [e|]]| |] wa] eqn:Hwrite;
    try by intros [=].
  apply (writeSnapshot_frame args) in Hwrite as Haa.
  apply (writeSnapshot_frame getConfigResult) in Hwrite as Hca.
  apply writeSnapshot_spec in Hwrite as (-> & Hla & m & path & Hma & Hida).
  intros [= <-]. cbn. rewrite Hma. cbn.
  split_and!; [done|by rewrite Haa|by rewrite Hca|].
  eexists _, path. split; [done|]. rewrite lookup_alter_eq, Hida. done.
Qed.

(** C3 (the code departs from it): let a snapshot be freshly created in
    update mode from a value with leading or trailing white space, and let
    the diff engines report a difference between different texts.  The
    same call made again compares the stored, untrimmed value with the
    trimmed one, finds a non-empty diff, and takes the update branch: the
    update notice is printed and the record is written again. *)
Theorem second_call_rewrites_snapshot
    (w w1 : World) (id data : string) (format : string) (c : option config) :
  shouldUpdate (args w) = true →
  getConfigResult w = (c, None) →
  (getSnapshot id w).1 = Ret None →
  createOrUpdateSnapshot id data format w = (Ret tt, w1) →
  strings.TrimSpace data ≠ data →
  (∀ a b, a ≠ b →
     nonEqual (DiffMain a b) ≠ [] ∧ DiffPrettyText (DiffMain a b) ≠ "") →
  (∀ a b, a ≠ b → unifiedDiff id a b ≠ "") →
  (∃ diff, diff ≠ ""
     ∧ compareResults id data (strings.TrimSpace data) w1 = (Ret diff, w1))
  ∧ ∃ r w2,
      createOrUpdateSnapshot id data SnapshotGeneric w1 = (r, w2)
      ∧ stdout w2 = stdout w1 ++ ["Updating snapshot `" +:+ id +:+ "`" +:+ LF].
Proof.
  intros Hupd Hcfg Hnone Hfirst Htrim Hdmp Huni.
  destruct (fresh_snapshot_state _ _ _ _ _ Hupd Hnone Hfirst)
    as (Hl1 & Ha1 & Hc1 & m & path & Hm1 & Hid1).
  rewrite Hcfg in Hc1.
  assert (∃ diff, diff ≠ "" ∧ ∀ w', getConfigResult w' = (c, None) →
            compareResults id data (strings.TrimSpace data) w' = (Ret diff, w'))
    as (diff & Hdiff & Hcmp).
  { destruct (match c with Some c => UnifiedDiff c | None => false end) eqn:Hu.
    - exists (unifiedDiff id data (strings.TrimSpace data)).
      split; [by apply Huni|].
      intros w' Hc'. unfold compareResults, mbind, M_bind, getConfig, gets.
      by rewrite Hc', Hu.
    - destruct (Hdmp data (strings.TrimSpace data)) as [Hne Hpretty]; [done|].
      exists (DiffPrettyText (DiffMain data (strings.TrimSpace data))).
      split; [done|].
      intros w' Hc'. unfold compareResults, mbind, M_bind, getConfig, gets.
      rewrite Hc', Hu. rewrite bool_decide_eq_false_2; [done|].
      by destruct (nonEqual _). }
  split; [by eauto|].
  unfold createOrUpdateSnapshot.
  unfold mbind at 1, M_bind at 1, getSnapshot at 1.
  unfold mbind at 1, M_bind at 1. rewrite (loadSnapshots_done w1 Hl1).
  unfold gets at 1. rewrite Hm1. cbn [mbind option_bind]. rewrite Hid1.
  unfold mbind at 1, M_bind at 1, setEvaluated at 1, modify at 1.
  rewrite decide_False by done. cbn [snap_value].
  unfold mbind at 1, M_bind at 1. rewrite Hcmp by done.
  rewrite decide_True by done.
  unfold mbind at 1, M_bind at 1, gets at 1. cbn [args with_allSnapshots].
  rewrite Ha1, Hupd.
  unfold mbind at 1, M_bind at 1, fmt_Printf at 1, modify at 1.
  unfold mbind at 1, M_bind at 1, updateSnapshot.
  destruct (writeSnapshot _ _ _ _) as [r wa] eqn:Hwrite.
  apply (writeSnapshot_frame stdout) in Hwrite. cbn in Hwrite.
  destruct r as [[p [e|]]| |]; eexists _, _; (split; [reflexivity|]); cbn; done.
Qed.

(** For a value without surrounding white space the second call does
    pass: it returns with the whole state unchanged, provided the diff
    engines find no difference between equal texts. *)
Theorem second_call_passes_when_trimmed
    (w w1 : World) (id data : string) (format : string) (c : option config) :
  shouldUpdate (args w) = true →
  getConfigResult w = (c, None) →
  (getSnapshot id w).1 = Ret None →
  createOrUpdateSnapshot id data format w = (Ret tt, w1) →
  strings.TrimSpace data = data →
  (∀ a, nonEqual (DiffMain a a) = []) →
  (∀ a, unifiedDiff id a a = "") →
  createOrUpdateSnapshot id data SnapshotGeneric w1 = (Ret tt, w1).
Proof.
  intros Hupd Hcfg Hnone Hfirst Htrim Hdmp Huni.
  destruct (fresh_snapshot_state _ _ _ _ _ Hupd Hnone Hfirst)
    as (Hl1 & Ha1 & Hc1 & m & path & Hm1 & Hid1).
  rewrite Hcfg in Hc1.
  unfold createOrUpdateSnapshot.
  unfold mbind at 1, M_bind at 1, getSnapshot at 1.
  unfold mbind at 1, M_bind at 1. rewrite (loadSnapshots_done w1 Hl1).
  unfold gets at 1. rewrite Hm1. cbn [mbind option_bind]. rewrite Hid1.
  unfold mbind at 1, M_bind at 1, setEvaluated at 1, modify at 1.
  assert (with_allSnapshots w1
            (alter (λ s, mkSnapshot (snap_id s) (snap_value s) (snap_path s)
                                    true (shouldRemove s)) id <$> allSnapshots w1)
          = w1) as ->.
  { rewrite Hm1. cbn. rewrite alter_id.
    - rewrite <-Hm1. unfold with_allSnapshots. apply World_eta.
    - intros s Hs. rewrite Hid1 in Hs. by injection Hs as <-. }
  rewrite decide_False by done. cbn [snap_value]. rewrite Htrim.
  unfold mbind at 1, M_bind at 1.
  unfold compareResults, mbind at 1, M_bind at 1, getConfig, gets at 1.
  rewrite Hc1.
  destruct (match c with Some c => UnifiedDiff c | None => false end).
  - rewrite Huni. unfold mret at 1, M_ret at 1.
    by rewrite decide_False by (by intros []).
  - rewrite Hdmp. cbn [length]. rewrite bool_decide_eq_true_2 by done.
    unfold mret at 1, M_ret at 1.
    by rewrite decide_False by (by intros []).
Qed.

(** ** The registry stays keyed *)

Lemma parseOne_keyed p snaps w snaps' w' :
  keyed snaps → parseOne p snaps w = (Ret snaps', w') → keyed snaps'.
Proof.
  intros Hk. unfold parseOne, mbind, M_bind, readFile, gets, lift.
  destruct (files (os w) !! p) as [data|]; [|by intros [= <- <-]].
  destruct (decode data) as [[s [e|]]| |] eqn:Hdec; try by intros [=].
  { by intros [= <- <-]. }
  intros [= <- <-]. apply decode_keyed in Hdec as [Hs _].
  apply map_Forall_union_2; [|done].
  intros k s'. rewrite lookup_fmap. destruct (s !! k) as [s0|] eqn:Hk0; [|done].
  intros [= <-]. cbn. by apply Hs.
Qed.

Lemma parseAll_keyed paths snaps w snaps' w' :
  keyed snaps → parseAll paths snaps w = (Ret snaps', w') → keyed snaps'.
Proof.
  revert snaps w. induction paths as [|p rest IH]; intros snaps w Hk;
    cbn [parseAll].
  - by intros [= <- <-].
  - unfold mbind, M_bind.
    destruct (parseOne p snaps w) as [[snaps1| |] w1] eqn:Hone; try by intros [=].
    apply IH. by eapply parseOne_keyed.
Qed.

Lemma reloadSnapshots_keyed : maintains registryKeyed reloadSnapshots.
Proof.
  unfold reloadSnapshots.
  apply maintains_mbind.
  { apply preserves_maintains. by apply findOrCreateSnapshotDirectory_frame. }
  intros [dir [e|]]; [apply preserves_maintains; frame|].
  apply maintains_mbind; [apply preserves_maintains; frame|].
  intros [files [e|]]; [apply preserves_maintains; frame|].
  intros w r w' HP. unfold mbind at 1, M_bind at 1, parseSnapshotsFromPaths.
  unfold mbind at 1, M_bind at 1.
  destruct (parseAll _ _ w) as [[snaps| |] w1] eqn:Hparse.
  - apply parseAll_keyed in Hparse; [|apply map_Forall_empty].
    intros [= <- <-] m [= <-]. done.
  - apply (parseAll_frame allSnapshots) in Hparse.
    intros [= <- <-] m Hm. apply HP. by rewrite <-Hparse.
  - apply (parseAll_frame allSnapshots) in Hparse.
    intros [= <- <-] m Hm. apply HP. by rewrite <-Hparse.
Qed.

Lemma loadSnapshots_keyed : maintains registryKeyed loadSnapshots.
Proof.
  intros w r w' HP. unfold loadSnapshots. destruct (snapshotsLoaded w).
  - by intros [= <- <-].
  - destruct (reloadSnapshots w) as [r0 w0] eqn:Hre. intros [= <- <-].
    intros m Hm. by apply (reloadSnapshots_keyed _ _ _ HP Hre).
Qed.

Lemma storeSnapshot_keyed id value path isUpdate :
  maintains registryKeyed
    (storeSnapshot id (mkSnapshot id value path isUpdate false)).
Proof.
  intros w r w' HP. unfold storeSnapshot.
  destruct (allSnapshots w) as [m|] eqn:Hm; intros [= <- <-]; [|done].
  intros m' [= <-]. apply map_Forall_insert_2; [done|]. by apply HP.
Qed.

Lemma writeSnapshot_keyed id value isUpdate :
  maintains registryKeyed (writeSnapshot id value isUpdate).
Proof.
  unfold writeSnapshot. cbn [isValid negb].
  apply maintains_mbind; [apply loadSnapshots_keyed|].
  intros [e|]; [apply preserves_maintains; frame|].
  apply maintains_mbind.
  { apply preserves_maintains. by apply findOrCreateSnapshotDirectory_frame. }
  intros [dir [e|]]; [apply preserves_maintains; frame|].
  apply maintains_mbind.
  { apply preserves_maintains. by apply getTestingPackage_frame. }
  intros [pkg [e|]]; [apply preserves_maintains; frame|].
  apply maintains_mbind; [apply storeSnapshot_keyed|]. intros _.
  apply maintains_mbind; [apply preserves_maintains; frame|]. intros all.
  apply maintains_mbind; [apply preserves_maintains; by apply save_frame|].
  intros [e|]; apply preserves_maintains; frame.
Qed.

Lemma alter_keyed (f : snapshot → snapshot) k :
  (∀ s, snap_id (f s) = snap_id s) →
  maintains registryKeyed
    (modify (λ w, with_allSnapshots w (alter f k <$> allSnapshots w))).
Proof.
  intros Hf w r w' HP [= <- <-] m. cbn.
  destruct (allSnapshots w) as [m0|] eqn:Hm0; [|done]. intros [= <-].
  intros k' s. rewrite lookup_alter. case_decide as Hk; [subst k'|by apply HP].
  destruct (m0 !! k) as [s0|] eqn:Hs0; [|done]. intros [= <-].
  rewrite Hf. by apply (HP m0).
Qed.

Lemma compareResults_frame {B} (f : World → B) id existing new :
  (∀ w t, f (with_testing w t) = f w) →
  preserves f (compareResults id existing new).
Proof.
  intros Hf. unfold compareResults.
  apply preserves_mbind; [frame|]. intros [c [e|]].
  - intros w r w' [= <- <-]. apply Hf.
  - destruct (match c with Some c => _ | None => _ end); [frame|].
    destruct (bool_decide _); frame.
Qed.

Lemma compareResultsHTTPRequestJSON_frame {B} (f : World → B) existing new :
  (∀ w t, f (with_testing w t) = f w) →
  preserves f (compareResultsHTTPRequestJSON existing new).
Proof.
  intros Hf. unfold compareResultsHTTPRequestJSON.
  apply preserves_mbind; [frame|]. intros [c [e|]].
  - intros w r w' [= <- <-]. apply Hf.
  - cbv zeta. destruct (jsondiff_Compare _ _) as [[] explanation]; frame.
Qed.

(** Every assertion keeps the registry keyed by the identifiers of its
    records, however the call ends. *)
Theorem createOrUpdateSnapshot_keeps_registry_keyed (id data format : string) :
  maintains registryKeyed (createOrUpdateSnapshot id data format).
Proof.
  unfold createOrUpdateSnapshot.
  apply maintains_mbind.
  { unfold getSnapshot. apply maintains_mbind; [apply loadSnapshots_keyed|].
    intros [e|]; apply preserves_maintains; frame. }
  intros [snapshot|].
  - apply maintains_mbind; [by apply alter_keyed|]. intros _.
    apply maintains_mbind.
    { apply preserves_maintains. destruct (decide _).
      - by apply compareResultsHTTPRequestJSON_frame.
      - by apply compareResults_frame. }
    intros diff. destruct (decide (diff ≠ "")); [|apply preserves_maintains; frame].
    apply maintains_mbind; [apply preserves_maintains; frame|]. intros a.
    destruct (shouldUpdate a); [|apply preserves_maintains; frame].
    apply maintains_mbind; [apply preserves_maintains; frame|]. intros _.
    apply maintains_mbind; [apply writeSnapshot_keyed|].
    intros [p [e|]]; apply preserves_maintains; frame.
  - apply maintains_mbind; [apply preserves_maintains; frame|]. intros a.
    destruct (negb (shouldUpdate a)); [apply preserves_maintains; frame|].
    apply maintains_mbind; [apply preserves_maintains; frame|]. intros _.
    apply maintains_mbind; [apply writeSnapshot_keyed|].
    intros [[p|] [e|]].
    + apply preserves_maintains; frame.
    + by apply alter_keyed.
    + apply preserves_maintains; frame.
    + apply preserves_maintains; frame.
Qed.

(** ** The on-disk encoding *)

(** C4 (the code departs from it): the file made of the single block for
    the identifier [a] with an empty value is well formed and decodes to
    one record; [encode] of that record set trims the final newline off
    the delimiter line; and [decode] of the result panics instead of
    giving the record set back. *)
Theorem roundtrip_empty_value_panics :
  wellFormedFile emptyValueFile
  ∧ decode emptyValueFile
    = Ret ({[ "a" := mkSnapshot "a" "" "" false false ]}, None)
  ∧ (encode {[ "a" := mkSnapshot "a" "" "" false false ]}).1
    = "/* snapshot: a */"
  ∧ decode "/* snapshot: a */" = Panic "index out of range [1] with length 1".
Proof.
  split_and!.
  - exists [("a", "")]. split; [done|]. repeat constructor.
  - vm_compute. reflexivity.
  - unfold encode. rewrite range_singleton. vm_compute. reflexivity.
  - vm_compute. reflexivity.
Qed.

End properties.

(** C9 (the code departs from it): [decode] is not total.  On a delimiter
    that is not followed by a newline, [SplitAfterN] yields one component
    only and reading the second one panics. *)
Theorem decode_unterminated_delimiter_panics (id : string) :
  id ≠ "" →
  strings.Index id LF = None →
  strings.Index id snapshotSeparator = None →
  decode (snapshotSeparator +:+ id) = Panic "index out of range [1] with length 1".
Proof.
  intros Hne Hnl Hsep. unfold decode. rewrite Split_after_separator by done.
  cbn [decodeLoop]. rewrite decide_True by done. rewrite decide_False by done.
  unfold decodeSegment, strings.SplitAfterN. by rewrite genSplit_no_sep.
Qed.

(* ===================================================================== *)
(** * Further properties *)
(* ===================================================================== *)

(** ** Strings as byte sequences *)


Lemma str_app_cons (c : ascii) (a b : string) :
  String c a +:+ b = String c (a +:+ b).
Proof. done. Qed.

Lemma str_app_nil_l (a : string) : "" +:+ a = a.
Proof. done. Qed.

Lemma str_app_nil_r (a : string) : a +:+ "" = a.
Proof. induction a as [|c a IH]; [done|]. by rewrite str_app_cons, IH. Qed.

Lemma str_app_assoc (a b c : string) : a +:+ (b +:+ c) = (a +:+ b) +:+ c.
Proof. induction a as [|x a IH]; [done|]. by rewrite !str_app_cons, IH. Qed.

Lemma str_length_app (a b : string) :
  String.length (a +:+ b) = String.length a + String.length b.
Proof. induction a as [|x a IH]; [done|]. rewrite str_app_cons. simpl. by rewrite IH. Qed.

Lemma chars_app (a b : string) :
  list_ascii_of_string (a +:+ b)
  = list_ascii_of_string a ++ list_ascii_of_string b.
Proof. induction a as [|x a IH]; [done|]. rewrite str_app_cons. simpl. by rewrite IH. Qed.

Lemma str_length_zero (s : string) : String.length s = 0 → s = "".
Proof. by destruct s. Qed.

Lemma str_take_drop (n : nat) (s : string) :
  strings.take n s +:+ strings.drop n s = s.
Proof.
  revert s. induction n as [|n IH]; intros [|c s]; simpl; try done.
  by rewrite str_app_cons, IH.
Qed.

Lemma str_length_take (n : nat) (s : string) :
  String.length (strings.take n s) = n `min` String.length s.
Proof. revert s. induction n as [|n IH]; intros [|c s]; simpl; try done. by rewrite IH. Qed.

Lemma str_length_drop (n : nat) (s : string) :
  String.length (strings.drop n s) = String.length s - n.
Proof. revert s. induction n as [|n IH]; intros [|c s]; simpl; try done. Qed.

Lemma str_drop_add (n k : nat) (s : string) :
  strings.drop (n + k) s = strings.drop k (strings.drop n s).
Proof.
  revert s. induction n as [|n IH]; intros [|c s]; simpl; try done.
  by destruct k.
Qed.

Lemma HasPrefix_spec (s p : string) :
  strings.HasPrefix s p = true ↔ ∃ t, s = p +:+ t.
Proof.
  unfold strings.HasPrefix. revert s. induction p as [|c p IH]; intros s.
  - split; [intros _; by exists s|]. intros _. by destruct s.
  - destruct s as [|d s]; simpl.
    + split; [done|]. by intros [t Ht].
    + destruct (Ascii.ascii_dec c d) as [->|Hne].
      * rewrite IH. split; intros [t Ht]; exists t.
        -- by rewrite str_app_cons, Ht.
        -- rewrite str_app_cons in Ht. by simplify_eq.
      * split; [done|]. intros [t Ht]. rewrite str_app_cons in Ht. by simplify_eq.
Qed.

Lemma HasSuffix_spec (s p : string) :
  strings.HasSuffix s p = true ↔ ∃ t, s = t +:+ p.
Proof.
  unfold strings.HasSuffix. rewrite andb_true_iff, Nat.leb_le, String.eqb_eq.
  split.
  - intros [Hle Hd].
    exists (strings.take (String.length s - String.length p) s).
    rewrite <-Hd at 2. by rewrite str_take_drop.
  - intros [t ->]. rewrite str_length_app. split; [lia|].
    replace (String.length t + String.length p - String.length p)
      with (String.length t) by lia.
    apply drop_app_length.
Qed.

Lemma HasPrefix_app_long (s t p : string) :
  String.length p ≤ String.length s →
  strings.HasPrefix (s +:+ t) p = strings.HasPrefix s p.
Proof.
  unfold strings.HasPrefix. revert s. induction p as [|c p IH]; intros s Hle.
  - by destruct s, t.
  - destruct s as [|d s]; simpl in Hle; [lia|].
    rewrite str_app_cons. simpl. destruct (Ascii.ascii_dec c d); [|done].
    apply IH. lia.
Qed.

Lemma HasSuffix_app_long (s t p : string) :
  String.length p ≤ String.length s →
  strings.HasSuffix (t +:+ s) p = strings.HasSuffix s p.
Proof.
  intros Hle. unfold strings.HasSuffix. rewrite str_length_app.
  replace (String.length t + String.length s - String.length p)
    with (String.length t + (String.length s - String.length p)) by lia.
  rewrite str_drop_add, drop_app_length.
  f_equal. destruct (Nat.leb_spec (String.length p) (String.length s)),
    (Nat.leb_spec (String.length p) (String.length t + String.length s)); done || lia.
Qed.

(** ** Occurrences of a separator *)

(** The separator without its last byte. *)
Lemma Index_first (a b sep : string) :
  sep ≠ "" →
  strings.Index (a +:+ strings.take (String.length sep - 1) sep) sep = None →
  strings.Index (a +:+ sep +:+ b) sep = Some (String.length a).
Proof.
  intros Hsep. set (pre := strings.take (String.length sep - 1) sep).
  induction a as [|c a IH]; intros Hno.
  { rewrite str_app_nil_l. apply Index_prefix. }
  rewrite str_app_cons, Index_unfold in Hno.
  destruct (strings.HasPrefix (String c (a +:+ pre)) sep) eqn:E; [done|].
  destruct (strings.Index (a +:+ pre) sep) eqn:E2; [done|].
  rewrite str_app_cons, Index_unfold.
  assert (strings.HasPrefix (String c (a +:+ sep +:+ b)) sep = false) as ->.
  { rewrite <-E. rewrite <-(str_take_drop (String.length sep - 1) sep) at 1.
    fold pre. rewrite <-!str_app_assoc, (str_app_assoc a), <-str_app_cons.
    apply HasPrefix_app_long. simpl. rewrite str_length_app.
    unfold pre. rewrite str_length_take. lia. }
  rewrite IH by done. done.
Qed.

Lemma genSplit_segments (sep : string) (segs : list string) (last : string) (n : nat) :
  sep ≠ "" →
  Forall (λ seg, strings.Index
                   (seg +:+ strings.take (String.length sep - 1) sep) sep = None)
         segs →
  strings.Index last sep = None →
  length segs < n →
  strings.genSplit (foldr (λ seg rest, seg +:+ sep +:+ rest) last segs) sep 0 n
  = segs ++ [last].
Proof.
  intros Hsep Hsegs Hlast. revert n.
  induction Hsegs as [|seg segs Hseg _ IH]; intros n Hn.
  - destruct n as [|n]; [simpl in Hn; lia|]. by apply genSplit_no_sep.
  - destruct n as [|[|n]]; simpl in Hn; [lia..|].
    cbn [foldr]. rewrite genSplit_more, Index_first by done.
    rewrite Nat.add_0_r, take_app_length.
    rewrite str_drop_add, drop_app_length, drop_app_length.
    rewrite IH by lia. done.
Qed.

Lemma length_segments (sep : string) (segs : list string) (last : string) :
  sep ≠ "" →
  length segs ≤ String.length (foldr (λ seg rest, seg +:+ sep +:+ rest) last segs).
Proof.
  intros Hsep. induction segs as [|seg segs IH]; cbn [foldr length]; [lia|].
  rewrite !str_length_app. destruct sep; [done|]. simpl. lia.
Qed.

Lemma Split_segments (sep : string) (segs : list string) (last : string) :
  sep ≠ "" →
  Forall (λ seg, strings.Index
                   (seg +:+ strings.take (String.length sep - 1) sep) sep = None)
         segs →
  strings.Index last sep = None →
  strings.Split (foldr (λ seg rest, seg +:+ sep +:+ rest) last segs) sep
  = segs ++ [last].
Proof.
  intros Hsep Hsegs Hlast. apply genSplit_segments; [done..|].
  pose proof (length_segments sep segs last Hsep). lia.
Qed.

Lemma str_app_eq_inv (a b c d : string) :
  a +:+ b = c +:+ d →
  (∃ k, a = c +:+ k ∧ d = k +:+ b) ∨ (∃ k, c = a +:+ k ∧ b = k +:+ d).
Proof.
  revert c. induction a as [|x a IH]; intros c H.
  - right. exists c. by rewrite !str_app_nil_l in *.
  - destruct c as [|y c].
    + left. exists (String x a). by rewrite !str_app_nil_l in *.
    + rewrite !str_app_cons in H. injection H as -> H.
      destruct (IH _ H) as [[k [-> ->]]|[k [-> ->]]]; [left|right]; by exists k.
Qed.

Lemma HasPrefix_before_char (a b sep : string) (c : ascii) :
  c ∉ list_ascii_of_string sep →
  strings.HasPrefix (a +:+ String c b) sep = true →
  strings.HasPrefix a sep = true.
Proof.
  unfold strings.HasPrefix. revert a. induction sep as [|d sep IH]; intros a Hc.
  - by destruct a.
  - simpl in Hc. apply not_elem_of_cons in Hc as [Hcd Hc].
    destruct a as [|x a]; rewrite ?str_app_nil_l, ?str_app_cons; simpl.
    + destruct (Ascii.ascii_dec d c); [congruence|done].
    + destruct (Ascii.ascii_dec d x); [|done]. by apply IH.
Qed.

(** A separator that does not hold the byte [c] is found neither astride
    nor next to an occurrence of [c]. *)
Lemma Index_app_char (a b sep : string) (c : ascii) :
  c ∉ list_ascii_of_string sep →
  strings.Index a sep = None →
  strings.Index b sep = None →
  strings.Index (a +:+ String c b) sep = None.
Proof.
  intros Hc Ha Hb. induction a as [|x a IH].
  - rewrite str_app_nil_l, Index_unfold, Hb.
    destruct (strings.HasPrefix (String c b) sep) eqn:E; [|done].
    apply (HasPrefix_before_char "" b) in E; [|done].
    by rewrite Index_unfold, E in Ha.
  - rewrite Index_unfold in Ha.
    destruct (strings.HasPrefix (String x a) sep) eqn:E; [done|].
    destruct (strings.Index a sep) eqn:E2; [done|].
    rewrite str_app_cons, Index_unfold, IH by done.
    destruct (strings.HasPrefix (String x (a +:+ String c b)) sep) eqn:E3; [|done].
    rewrite <-str_app_cons in E3. apply HasPrefix_before_char in E3; [|done].
    congruence.
Qed.

(** ** White space *)

Lemma whiteSpace_nonempty :
  Forall (λ w, 1 ≤ String.length w) strings.whiteSpace.
Proof. vm_compute. repeat constructor. Qed.

(** Among the encodings of white space only the line feed itself holds the
    byte of the line feed. *)
Lemma whiteSpace_LF :
  Forall (λ w, w = LF ∨ "010"%char ∉ list_ascii_of_string w) strings.whiteSpace.
Proof.
  assert (Forall (λ w, bool_decide (w = LF)
                       || bool_decide ("010"%char ∉ list_ascii_of_string w) = true)
                 strings.whiteSpace) as H.
  { unfold strings.whiteSpace. repeat (constructor; [by vm_compute|]). constructor. }
  eapply Forall_impl; [exact H|]. intros w [Hw|Hw]%orb_true_iff.
  - left. by apply bool_decide_eq_true in Hw.
  - right. by apply bool_decide_eq_true in Hw.
Qed.

Lemma whiteSpace_LF_inv (w a b : string) :
  w ∈ strings.whiteSpace → w = a +:+ LF +:+ b → a = "" ∧ b = "".
Proof.
  intros Hw Heq. pose proof whiteSpace_LF as H.
  rewrite Forall_forall in H. destruct (H w Hw) as [->|Hno].
  - destruct a as [|x [|y a]]; [|done..]. by destruct b.
  - exfalso. apply Hno. rewrite Heq, !chars_app.
    apply elem_of_app. right. apply elem_of_app. left. constructor.
Qed.

Lemma find_None {A} (f : A → bool) (l : list A) :
  List.find f l = None ↔ ∀ x, x ∈ l → f x = false.
Proof.
  induction l as [|y l IH]; simpl.
  - split; [|done]. intros _ x Hx. by apply elem_of_nil in Hx.
  - destruct (f y) eqn:E.
    + split; [done|]. intros H. rewrite H in E; [done|left].
    + rewrite IH. split.
      * intros H x [->|Hx]%elem_of_cons; auto.
      * intros H x Hx. apply H. by right.
Qed.

Lemma find_Some_elem {A} (f : A → bool) (l : list A) (x : A) :
  List.find f l = Some x → x ∈ l ∧ f x = true.
Proof.
  intros [H1 H2]%List.find_some. split; [|done]. by apply list_elem_of_In.
Qed.

Lemma trimLeftSpace_id (f : nat) (s : string) :
  List.find (strings.HasPrefix s) strings.whiteSpace = None →
  strings.trimLeftSpace f s = s.
Proof. intros H. destruct f; [done|]. cbn [strings.trimLeftSpace strings.trimRightSpace]. by rewrite H. Qed.

Lemma trimRightSpace_id (f : nat) (s : string) :
  List.find (strings.HasSuffix s) strings.whiteSpace = None →
  strings.trimRightSpace f s = s.
Proof. intros H. destruct f; [done|]. cbn [strings.trimLeftSpace strings.trimRightSpace]. by rewrite H. Qed.

Lemma trimLeftSpace_result (f : nat) (s : string) :
  String.length s ≤ f →
  List.find (strings.HasPrefix (strings.trimLeftSpace f s)) strings.whiteSpace
  = None.
Proof.
  revert s. induction f as [|f IH]; intros s Hlen.
  - rewrite (str_length_zero s) by lia. done.
  - cbn [strings.trimLeftSpace strings.trimRightSpace]. destruct (List.find (strings.HasPrefix s) _) as [w|] eqn:E; [|done].
    apply find_Some_elem in E as [Hw Hp]. apply IH.
    pose proof whiteSpace_nonempty as Hne. rewrite Forall_forall in Hne.
    specialize (Hne w Hw). rewrite str_length_drop.
    apply HasPrefix_spec in Hp as [t ->]. rewrite str_length_app in *. lia.
Qed.

Lemma trimRightSpace_result (f : nat) (s : string) :
  String.length s ≤ f →
  List.find (strings.HasSuffix (strings.trimRightSpace f s)) strings.whiteSpace
  = None.
Proof.
  revert s. induction f as [|f IH]; intros s Hlen.
  - rewrite (str_length_zero s) by lia. done.
  - cbn [strings.trimLeftSpace strings.trimRightSpace]. destruct (List.find (strings.HasSuffix s) _) as [w|] eqn:E; [|done].
    apply find_Some_elem in E as [Hw Hp]. apply IH.
    pose proof whiteSpace_nonempty as Hne. rewrite Forall_forall in Hne.
    specialize (Hne w Hw). rewrite str_length_take.
    apply HasSuffix_spec in Hp as [t ->]. rewrite str_length_app in *. lia.
Qed.

Lemma trimRightSpace_prefix (f : nat) (s : string) :
  ∃ t, s = strings.trimRightSpace f s +:+ t.
Proof.
  revert s. induction f as [|f IH]; intros s;
    cbn [strings.trimLeftSpace strings.trimRightSpace].
  - exists "". by rewrite str_app_nil_r.
  - destruct (List.find _ _) as [w|]; [|exists ""; by rewrite str_app_nil_r].
    destruct (IH (strings.take (String.length s - String.length w) s)) as [t Ht].
    exists (t +:+ strings.drop (String.length s - String.length w) s).
    rewrite str_app_assoc, <-Ht. by rewrite str_take_drop.
Qed.

(** The result of [TrimSpace] neither starts nor ends with white space. *)
Lemma TrimSpace_trimmed (s : string) :
  List.find (strings.HasPrefix (strings.TrimSpace s)) strings.whiteSpace = None
  ∧ List.find (strings.HasSuffix (strings.TrimSpace s)) strings.whiteSpace = None.
Proof.
  unfold strings.TrimSpace.
  set (l := strings.trimLeftSpace (String.length s) s).
  assert (List.find (strings.HasPrefix l) strings.whiteSpace = None) as Hl
    by by apply trimLeftSpace_result.
  split; [|by apply trimRightSpace_result].
  destruct (trimRightSpace_prefix (String.length l) l) as [t Ht].
  apply find_None. intros w Hw.
  rewrite find_None in Hl. specialize (Hl w Hw).
  destruct (strings.HasPrefix (strings.trimRightSpace _ l) w) eqn:E; [|done].
  apply HasPrefix_spec in E as [u Hu].
  rewrite <-Hl. symmetry. apply HasPrefix_spec. exists (u +:+ t).
  by rewrite Ht at 1; rewrite Hu, str_app_assoc.
Qed.

Lemma TrimSpace_id (s : string) :
  List.find (strings.HasPrefix s) strings.whiteSpace = None →
  List.find (strings.HasSuffix s) strings.whiteSpace = None →
  strings.TrimSpace s = s.
Proof.
  intros Hp Hs. unfold strings.TrimSpace.
  rewrite trimLeftSpace_id by done. by apply trimRightSpace_id.
Qed.

Lemma TrimSpace_idemp (s : string) :
  strings.TrimSpace (strings.TrimSpace s) = strings.TrimSpace s.
Proof. apply TrimSpace_id; apply TrimSpace_trimmed. Qed.

Lemma find_cons {A} (f : A → bool) (a : A) (l : list A) :
  List.find f (a :: l) = if f a then Some a else List.find f l.
Proof. done. Qed.

Lemma find_HasSuffix_LF (x : string) :
  List.find (strings.HasSuffix (x +:+ LF)) strings.whiteSpace = Some LF.
Proof.
  change strings.whiteSpace
    with (strings.bytes [9] :: LF :: drop 2 strings.whiteSpace).
  rewrite !find_cons, !(HasSuffix_app_long LF x) by (vm_compute; lia). done.
Qed.

Lemma trimRightSpace_LF (f : nat) (x : string) :
  strings.trimRightSpace (S f) (x +:+ LF) = strings.trimRightSpace f x.
Proof.
  cbn [strings.trimRightSpace]. rewrite find_HasSuffix_LF, str_length_app.
  replace (String.length x + String.length LF - String.length LF)
    with (String.length x) by lia.
  by rewrite take_app_length.
Qed.

Lemma find_HasSuffix_after_LF (x v : string) :
  v ≠ "" →
  List.find (strings.HasSuffix v) strings.whiteSpace = None →
  List.find (strings.HasSuffix (x +:+ LF +:+ v)) strings.whiteSpace = None.
Proof.
  intros Hv H. apply find_None. intros w Hw.
  rewrite find_None in H. specialize (H w Hw).
  destruct (decide (String.length w ≤ String.length v)) as [Hle|Hgt].
  { by rewrite str_app_assoc, HasSuffix_app_long. }
  destruct (strings.HasSuffix (x +:+ LF +:+ v) w) eqn:E; [exfalso|done].
  apply HasSuffix_spec in E as [t Ht]. rewrite str_app_assoc in Ht.
  apply str_app_eq_inv in Ht as [[k [Hk1 Hk2]]|[k [Hk1 Hk2]]].
  - assert (∃ k', k = k' +:+ LF) as [k' ->].
    { apply str_app_eq_inv in Hk1 as [[k' [_ Hk']]|[k' [_ Hk']]]; [by exists k'|].
      destruct k' as [|c [|??]]; [|destruct k; [|done]..].
      - exists "". by rewrite !str_app_nil_l in *.
      - subst w. rewrite str_app_nil_l in Hgt. lia.
      - subst w. rewrite str_app_nil_l in Hgt. lia. }
    rewrite <-str_app_assoc in Hk2.
    destruct (whiteSpace_LF_inv _ _ _ Hw Hk2) as [_ ?]. done.
  - subst v. rewrite str_length_app in Hgt. lia.
Qed.

Lemma find_HasPrefix_before_LF (v t : string) :
  v ≠ "" →
  List.find (strings.HasPrefix v) strings.whiteSpace = None →
  List.find (strings.HasPrefix (v +:+ LF +:+ t)) strings.whiteSpace = None.
Proof.
  intros Hv H. apply find_None. intros w Hw.
  rewrite find_None in H. specialize (H w Hw).
  destruct (decide (String.length w ≤ String.length v)) as [Hle|Hgt].
  { by rewrite HasPrefix_app_long. }
  destruct (strings.HasPrefix (v +:+ LF +:+ t) w) eqn:E; [exfalso|done].
  apply HasPrefix_spec in E as [u Hu].
  apply str_app_eq_inv in Hu as [[k [Hk1 Hk2]]|[k [Hk1 Hk2]]].
  - subst v. rewrite str_length_app in Hgt. lia.
  - destruct k as [|c k].
    { subst w. rewrite str_app_nil_r in Hgt. lia. }
    injection Hk2 as <- _.
    destruct (whiteSpace_LF_inv w v k Hw Hk1) as [? _]. done.
Qed.

Lemma TrimSpace_fixed (v : string) :
  strings.TrimSpace v = v →
  List.find (strings.HasPrefix v) strings.whiteSpace = None
  ∧ List.find (strings.HasSuffix v) strings.whiteSpace = None.
Proof. intros <-. apply TrimSpace_trimmed. Qed.

(** The blank line that ends a block is trimmed away, and nothing else. *)
Lemma TrimSpace_value_line (v : string) :
  strings.TrimSpace v = v → strings.TrimSpace (v +:+ LF +:+ LF) = v.
Proof.
  intros [Hp Hs]%TrimSpace_fixed. destruct (decide (v = "")) as [->|Hv]; [done|].
  unfold strings.TrimSpace.
  rewrite trimLeftSpace_id by by apply find_HasPrefix_before_LF.
  rewrite !str_length_app. replace (String.length v + (String.length LF + String.length LF))
    with (S (S (String.length v))) by (simpl; lia).
  rewrite str_app_assoc, !trimRightSpace_LF. by apply trimRightSpace_id.
Qed.

(** Trimming a buffer that ends with a block whose value is not empty
    removes the blank line after that value. *)
Lemma TrimSpace_last_block (x v : string) :
  v ≠ "" →
  strings.TrimSpace v = v →
  List.find (strings.HasPrefix (x +:+ LF +:+ v +:+ LF +:+ LF)) strings.whiteSpace
  = None →
  strings.TrimSpace (x +:+ LF +:+ v +:+ LF +:+ LF) = x +:+ LF +:+ v.
Proof.
  intros Hv [Hp Hs]%TrimSpace_fixed Hx. unfold strings.TrimSpace.
  rewrite trimLeftSpace_id by done.
  rewrite !str_length_app.
  replace (String.length x + (String.length LF + (String.length v + (String.length LF + String.length LF))))
    with (S (S (String.length x + String.length LF + String.length v))) by (simpl; lia).
  rewrite !str_app_assoc, !trimRightSpace_LF.
  rewrite <-!str_app_assoc. apply trimRightSpace_id. by apply find_HasSuffix_after_LF.
Qed.

(** ** decode on the text of a block *)

Lemma decodeSegment_block (id rest : string) (snaps : gmap string snapshot) :
  strings.Index id LF = None →
  decodeSegment (id +:+ " */" +:+ LF +:+ rest) snaps
  = Ret (<[id := mkSnapshot id (strings.TrimSpace rest) "" false false]> snaps).
Proof.
  intros Hid. unfold decodeSegment.
  assert (strings.Index (id +:+ " */") LF = None) as Hhead.
  { apply (Index_app_char id "*/" LF " "%char); [|done..].
    intros Hin. by apply list_elem_of_singleton in Hin. }
  rewrite (str_app_assoc id), (SplitAfterN_two _ _ (String.length (id +:+ " */")))
    by by apply (Index_char_app "010" (id +:+ " */") rest).
  rewrite (str_app_assoc _ LF).
  replace (String.length (id +:+ " */") + String.length LF)
    with (String.length ((id +:+ " */") +:+ LF)) by by rewrite str_length_app.
  rewrite take_app_length, drop_app_length. cbn [lookup list_lookup].
  assert (strings.TrimSuffix ((id +:+ " */") +:+ LF) (" */" +:+ LF) = id) as ->;
    [|done].
  unfold strings.TrimSuffix.
  assert (strings.HasSuffix ((id +:+ " */") +:+ LF) (" */" +:+ LF) = true) as ->.
  { apply HasSuffix_spec. exists id. by rewrite str_app_assoc. }
  rewrite <-str_app_assoc, str_length_app.
  replace (String.length id + String.length (" */" +:+ LF) - String.length (" */" +:+ LF))
    with (String.length id) by lia.
  apply take_app_length.
Qed.


(** ** sort.Strings *)

Lemma insert_perm (x : string) (l : list string) : sort.insert x l ≡ₚ x :: l.
Proof.
  induction l as [|y l IH]; simpl; [done|].
  destruct (String.leb x y); [done|]. rewrite IH. apply Permutation_swap.
Qed.

Lemma Strings_perm (l : list string) : sort.Strings l ≡ₚ l.
Proof.
  induction l as [|x l IH]; simpl; [done|].
  unfold sort.Strings in *. by rewrite insert_perm, IH.
Qed.

Lemma insert_sorted (x : string) (l : list string) :
  StronglySorted String.le l → StronglySorted String.le (sort.insert x l).
Proof.
  induction 1 as [|y l Hl IH Hy]; simpl.
  - by repeat constructor.
  - destruct (String.leb x y) eqn:E.
    + constructor; [by constructor|]. constructor.
      * unfold String.le. by rewrite E.
      * eapply Forall_impl; [exact Hy|]. intros z Hz.
        transitivity y; [|done]. unfold String.le. by rewrite E.
    + constructor; [done|]. rewrite insert_perm. constructor; [|done].
      destruct (total String.le x y) as [H|H]; [|done].
      unfold String.le in H. by rewrite E in H.
Qed.

Lemma Strings_sorted (l : list string) : StronglySorted String.le (sort.Strings l).
Proof.
  induction l as [|x l IH]; [constructor|]. by apply insert_sorted.
Qed.

(** The result depends on the elements only, not on their order. *)
Lemma Strings_permutation (l1 l2 : list string) :
  l1 ≡ₚ l2 → sort.Strings l1 = sort.Strings l2.
Proof.
  intros H. apply (StronglySorted_unique String.le); try apply Strings_sorted.
  by rewrite !Strings_perm.
Qed.

Lemma Strings_last (l : list string) (x : string) :
  last (sort.Strings l) = Some x → ∀ y, y ∈ l → String.le y x.
Proof.
  intros [l' Hl']%last_Some y Hy.
  pose proof (Strings_sorted l) as Hs. rewrite Hl' in Hs.
  rewrite <-Strings_perm, Hl' in Hy.
  apply elem_of_app in Hy as [Hy|Hy].
  - eapply StronglySorted_app_1_elem_of; [done..|]. constructor.
  - apply list_elem_of_singleton in Hy as ->. done.
Qed.

(** ** Reading back what [encode] writes *)

Lemma blocks_cons (s : snapshot) (rs : list snapshot) :
  blocks (s :: rs) = block (snap_id s) (snap_value s) +:+ blocks rs.
Proof. done. Qed.

Lemma blocks_app (rs1 rs2 : list snapshot) :
  blocks (rs1 ++ rs2) = blocks rs1 +:+ blocks rs2.
Proof.
  induction rs1 as [|s rs1 IH]; [done|].
  cbn [app]. by rewrite !blocks_cons, IH, str_app_assoc.
Qed.

Lemma blocks_segments (rs : list snapshot) (rest : string) :
  blocks rs +:+ snapshotSeparator +:+ rest
  = snapshotSeparator
      +:+ foldr (λ seg rest, seg +:+ snapshotSeparator +:+ rest) rest
                (segmentOf <$> rs).
Proof.
  induction rs as [|s rs IH]; [done|].
  rewrite blocks_cons. cbn [foldr fmap list_fmap]. unfold block, segmentOf.
  rewrite <-!str_app_assoc. do 7 f_equal. apply IH.
Qed.

Lemma LF_not_in_separator :
  "010"%char ∉ list_ascii_of_string snapshotSeparator.
Proof.
  assert (bool_decide ("010"%char ∉ list_ascii_of_string snapshotSeparator)
          = true) as H by by vm_compute.
  by apply bool_decide_eq_true in H.
Qed.

Lemma segmentOf_no_separator (s : snapshot) :
  readable s →
  strings.Index
    (segmentOf s +:+ strings.take (String.length snapshotSeparator - 1)
                                  snapshotSeparator)
    snapshotSeparator = None.
Proof.
  intros (_ & Hid & Hv & _). unfold segmentOf.
  rewrite (str_app_assoc (snap_id s)).
  set (hd := snap_id s +:+ " */") in *. rewrite <-!str_app_assoc.
  apply (Index_app_char hd _ _ "010"); [apply LF_not_in_separator|done|].
  apply (Index_app_char (snap_value s) _ _ "010"); [apply LF_not_in_separator|done|].
  apply (Index_app_char "" _ _ "010"); [apply LF_not_in_separator|done..].
Qed.

Lemma lastSegment_no_separator (s : snapshot) :
  readable s →
  strings.Index (snap_id s +:+ " */" +:+ LF +:+ snap_value s) snapshotSeparator
  = None.
Proof.
  intros (_ & Hid & Hv & _). rewrite (str_app_assoc (snap_id s)).
  by apply (Index_app_char _ _ _ "010"); [apply LF_not_in_separator|..].
Qed.

Lemma decodeLoop_app (l1 l2 : list string) (snaps : gmap string snapshot) :
  decodeLoop (l1 ++ l2) snaps
  = match decodeLoop l1 snaps with
    | Ret snaps' => decodeLoop l2 snaps'
    | Goexit => Goexit
    | Panic msg => Panic msg
    end.
Proof.
  revert snaps. induction l1 as [|s l1 IH]; intros snaps; [done|].
  cbn [app decodeLoop]. destruct (decide (s = "")); [apply IH|].
  destruct (decodeSegment s snaps); [apply IH|done..].
Qed.

Lemma segmentOf_nonempty (s : snapshot) (rest : string) :
  snap_id s +:+ " */" +:+ rest ≠ "".
Proof. by destruct (snap_id s). Qed.

Lemma decodeLoop_segments (rs : list snapshot) (snaps : gmap string snapshot) :
  Forall readable rs →
  decodeLoop (segmentOf <$> rs) snaps
  = Ret (foldl (λ acc s, <[snap_id s := asDecoded s]> acc) snaps rs).
Proof.
  intros Hrs. revert snaps. induction Hrs as [|s rs Hs _ IH]; intros snaps; [done|].
  cbn [fmap list_fmap decodeLoop foldl].
  rewrite decide_False by apply segmentOf_nonempty.
  destruct Hs as (Hid & _ & _ & Htrim). unfold segmentOf at 1.
  rewrite decodeSegment_block, TrimSpace_value_line by done. apply IH.
Qed.

Lemma blocks_start (rs : list snapshot) (rest : string) :
  ∃ r, blocks rs +:+ snapshotSeparator +:+ rest = String "/" r.
Proof. rewrite blocks_segments. by eexists. Qed.

Lemma find_HasPrefix_slash (r : string) :
  List.find (strings.HasPrefix (String "/" r)) strings.whiteSpace = None.
Proof. done. Qed.

(** [decode] reads the trimmed text of a list of blocks back, record by
    record, when the last value is not empty. *)
Lemma decode_blocks (rs : list snapshot) :
  Forall readable rs →
  (∀ s, last rs = Some s → snap_value s ≠ "") →
  decode (strings.TrimSpace (blocks rs))
  = Ret (foldl (λ acc s, <[snap_id s := asDecoded s]> acc) ∅ rs, None).
Proof.
  intros Hrs Hlast. destruct rs as [|s rs _] using rev_ind; [done|].
  apply Forall_app in Hrs as [Hrs Hs%Forall_inv].
  specialize (Hlast s (last_snoc _ _)).
  rewrite blocks_app, blocks_cons.
  change (blocks []) with "". rewrite str_app_nil_r. unfold block.
  set (x := blocks rs +:+ snapshotSeparator +:+ snap_id s +:+ " */").
  assert (blocks rs +:+ snapshotSeparator +:+ snap_id s +:+ " */" +:+ LF
            +:+ snap_value s +:+ LF +:+ LF
          = x +:+ LF +:+ snap_value s +:+ LF +:+ LF) as ->.
  { unfold x. by rewrite <-!str_app_assoc. }
  rewrite TrimSpace_last_block; [|done|apply Hs|].
  2:{ unfold x. rewrite <-!str_app_assoc.
      destruct (blocks_start rs (snap_id s +:+ " */" +:+ LF +:+ snap_value s
                                   +:+ LF +:+ LF)) as [r ->].
      apply find_HasPrefix_slash. }
  unfold x. rewrite <-!str_app_assoc, blocks_segments.
  unfold decode.
  change (snapshotSeparator +:+ ?t)
    with (foldr (λ seg rest, seg +:+ snapshotSeparator +:+ rest)
                (snap_id s +:+ " */" +:+ LF +:+ snap_value s)
                ("" :: (segmentOf <$> rs))) at 1.
  rewrite Split_segments; [|done| |by apply lastSegment_no_separator].
  2:{ constructor; [done|]. apply Forall_fmap. eapply Forall_impl; [exact Hrs|].
      intros s'. apply segmentOf_no_separator. }
  cbn [app decodeLoop]. rewrite decide_True by done.
  rewrite decodeLoop_app, decodeLoop_segments by done.
  cbn [decodeLoop]. rewrite decide_False by apply segmentOf_nonempty.
  destruct Hs as (Hid & _ & _ & Htrim).
  rewrite decodeSegment_block, Htrim by done.
  by rewrite foldl_app.
Qed.

(** What [encode] returns does not depend on the order in which [range]
    yields the identifiers: they are sorted before the blocks are written. *)
Theorem encode_order_independent (rt1 rt2 : Runtime) (m : gmap string snapshot) :
  @encode rt1 m = @encode rt2 m.
Proof.
  unfold encode.
  rewrite (Strings_permutation (@range rt1 _ m).*1 (@range rt2 _ m).*1); [done|].
  by rewrite !range_perm.
Qed.

Section roundtrip.
Context `{runtime : Runtime}.

Lemma encode_buffer (m : gmap string snapshot) (ids : list string) (buf : string) :
  foldl (λ buf id,
           match m !! id with
           | Some s =>
               buf +:+ (snapshotSeparator +:+ snap_id s +:+ " */" +:+ LF)
                   +:+ (snap_value s +:+ LF +:+ LF)
           | None => buf
           end) buf ids
  = buf +:+ blocks (omap (λ id, m !! id) ids).
Proof.
  revert buf. induction ids as [|id ids IH]; intros buf.
  - by rewrite str_app_nil_r.
  - cbn [foldl omap list_omap]. rewrite IH. destruct (m !! id) as [s|]; [|done].
    rewrite blocks_cons. unfold block. by rewrite <-!str_app_assoc.
Qed.

Lemma encode_blocks (m : gmap string snapshot) :
  (encode m).1
  = strings.TrimSpace
      (blocks (omap (λ id, m !! id) (sort.Strings (range m).*1))).
Proof. unfold encode. cbn [fst]. by rewrite encode_buffer. Qed.

Lemma elem_of_sorted_ids (m : gmap string snapshot) (id : string) :
  id ∈ sort.Strings (range m).*1 ↔ is_Some (m !! id).
Proof.
  rewrite Strings_perm, range_perm, list_elem_of_fmap. split.
  - intros [[k s] [-> Hks%elem_of_map_to_list]]. by exists s.
  - intros [s Hs]. exists (id, s). split; [done|]. by apply elem_of_map_to_list.
Qed.

Lemma NoDup_sorted_ids (m : gmap string snapshot) :
  NoDup (sort.Strings (range m).*1).
Proof. rewrite Strings_perm, range_perm. apply NoDup_fst_map_to_list. Qed.

Lemma records_ids (m : gmap string snapshot) (ids : list string) :
  keyed m → (∀ id, id ∈ ids → is_Some (m !! id)) →
  snap_id <$> omap (λ id, m !! id) ids = ids.
Proof.
  intros Hk. induction ids as [|id ids IH]; intros Hin; [done|].
  cbn [omap list_omap]. destruct (Hin id) as [s Hs]; [left|]. rewrite Hs.
  cbn [fmap list_fmap]. rewrite (Hk id s Hs). f_equal. apply IH.
  intros id' Hid'. apply Hin. by right.
Qed.

Lemma foldl_insert_lookup (rs : list snapshot) (k : string) (x : snapshot) :
  NoDup (snap_id <$> rs) →
  foldl (λ acc s, <[snap_id s := asDecoded s]> acc)
        (∅ : gmap string snapshot) rs !! k = Some x
  ↔ ∃ s, s ∈ rs ∧ snap_id s = k ∧ x = asDecoded s.
Proof.
  induction rs as [|s rs IH] using rev_ind; intros Hnd.
  - cbn [foldl]. rewrite lookup_empty. split; [done|].
    intros (s & Hs & _). by apply elem_of_nil in Hs.
  - rewrite fmap_app in Hnd. apply NoDup_app in Hnd as (Hnd & Hfresh & _).
    rewrite foldl_app. cbn [foldl].
    destruct (decide (snap_id s = k)) as [<-|Hne].
    + rewrite lookup_insert_eq. split.
      * intros [= <-]. exists s. split; [|done]. apply elem_of_app. right. constructor.
      * intros (s' & [Hs'|Hs']%elem_of_app & Hid & ->).
        -- exfalso. apply (Hfresh (snap_id s)).
           ++ rewrite <-Hid. by apply list_elem_of_fmap_2.
           ++ cbn. constructor.
        -- by apply list_elem_of_singleton in Hs' as ->.
    + rewrite lookup_insert_ne by done. rewrite IH by done. split.
      * intros (s' & Hs' & Hid & ->). exists s'. split; [|done].
        apply elem_of_app. by left.
      * intros (s' & [Hs'|Hs']%elem_of_app & Hid & ->); [by exists s'|].
        apply list_elem_of_singleton in Hs' as ->. done.
Qed.

Lemma decode_encode (m : gmap string snapshot) :
  keyed m →
  map_Forall (λ _ s, readable s) m →
  (∀ k s, m !! k = Some s → (∀ k', is_Some (m !! k') → String.le k' k) →
          snap_value s ≠ "") →
  decode (encode m).1 = Ret (asDecoded <$> m, None).
Proof.
  intros Hk Hr Hlast. rewrite encode_blocks.
  set (ids := sort.Strings (range m).*1).
  set (rs := omap (λ id, m !! id) ids).
  assert (snap_id <$> rs = ids) as Hids.
  { apply records_ids; [done|]. intros id. apply elem_of_sorted_ids. }
  assert (∀ s, s ∈ rs ↔ m !! snap_id s = Some s) as Hrs.
  { intros s. unfold rs. rewrite list_elem_of_omap. split.
    - intros (id & _ & Hs). by rewrite (Hk id s Hs).
    - intros Hs. exists (snap_id s). split; [|done].
      apply elem_of_sorted_ids. by exists s. }
  rewrite decode_blocks.
  - do 2 f_equal. apply map_eq. intros k. apply option_eq. intros x.
    rewrite foldl_insert_lookup by (rewrite Hids; apply NoDup_sorted_ids).
    rewrite lookup_fmap, fmap_Some. split.
    + intros (s & Hs%Hrs & <- & ->). by exists s.
    + intros (s & Hs & ->). exists s. rewrite Hrs, (Hk k s Hs). done.
  - apply Forall_forall. intros s Hs%Hrs. by apply (Hr _ _ Hs).
  - intros s Hs. apply (Hlast (snap_id s)).
    + apply Hrs. by apply last_Some_elem_of.
    + intros k' Hk'. apply (Strings_last (range m).*1).
      * fold ids. by rewrite <-Hids, fmap_last, Hs.
      * rewrite <-Strings_perm. by apply elem_of_sorted_ids.
Qed.

(** [decode] reads back what [encode] has written: for a registry keyed by
    its identifiers, whose records have an identifier without line feed, a
    delimiter line and a value without the delimiter text, and a value
    without surrounding white space, decoding the encoding returns the
    same identifiers and values (without path and marks), provided the
    value of the record with the greatest identifier is not empty. *)
Theorem decode_encode_roundtrip (m : gmap string snapshot) :
  keyed m →
  map_Forall (λ _ s, readable s) m →
  (∀ k s, m !! k = Some s → (∀ k', is_Some (m !! k') → String.le k' k) →
          snap_value s ≠ "") →
  decode (encode m).1 = Ret (asDecoded <$> m, None).
Proof. apply decode_encode. Qed.

End roundtrip.


(** ** What decode returns *)

Lemma decodeSegment_asRead s snaps snaps' :
  map_Forall asRead snaps → decodeSegment s snaps = Ret snaps' →
  map_Forall asRead snaps'.
Proof.
  intros Hk. unfold decodeSegment.
  destruct (_ !! 0) as [c0|]; [|done]. destruct (_ !! 1) as [c1|]; [|done].
  intros [= <-]. apply map_Forall_insert_2; [|done].
  split_and!; try done. apply TrimSpace_idemp.
Qed.

Lemma decodeLoop_asRead segs snaps snaps' :
  map_Forall asRead snaps → decodeLoop segs snaps = Ret snaps' →
  map_Forall asRead snaps'.
Proof.
  revert snaps. induction segs as [|s segs IH]; intros snaps Hk; cbn [decodeLoop].
  - by intros [= <-].
  - destruct (decide (s = "")); [by apply IH|].
    destruct (decodeSegment s snaps) as [snaps1| |] eqn:E; [|done..].
    apply IH. by eapply decodeSegment_asRead.
Qed.

Lemma decode_asRead (data : string) (snaps : gmap string snapshot) (err : option error) :
  decode data = Ret (snaps, err) → map_Forall asRead snaps ∧ err = None.
Proof.
  unfold decode. destruct (decodeLoop _ _) as [m| |] eqn:E; [|done..].
  intros [= <- <-]. split; [|done]. eapply decodeLoop_asRead; [|exact E].
  apply map_Forall_empty.
Qed.

(** Every record [decode] returns is stored under its own identifier, has
    no path, is neither evaluated nor marked for removal, and has a value
    without surrounding white space; the error is nil. *)
Theorem decode_records_as_read
    (data : string) (snaps : gmap string snapshot) (err : option error) :
  decode data = Ret (snaps, err) → map_Forall asRead snaps ∧ err = None.
Proof. apply decode_asRead. Qed.

Section more.
Context `{libs : Libs} `{runtime : Runtime}.

(** ** The snapshot directory *)


(** ** The HTTP/JSON comparison *)

Lemma str_app_LF_nonempty (a b : string) : (a +:+ LF) +:+ b ≠ "".
Proof. by destruct a. Qed.

(** The HTTP/JSON comparison returns the empty diff only when [jsondiff]
    reports a full match: with any other verdict the result holds at least
    a line feed.  On a full match the result is the header diff, which is
    empty when the headers have no differing part. *)
Theorem compareResultsHTTPRequestJSON_empty_diff
    (w : World) (c : option config) (existing new : string) :
  getConfigResult w = (c, None) →
  let existingR :=
    (jsonBodyCleanup c (configCleanup c (plainToInternalRequest existing))).1 in
  let newR :=
    (jsonBodyCleanup c (configCleanup c (plainToInternalRequest new))).1 in
  let verdict := (jsondiff_Compare (byteBody existingR) (byteBody newR)).1 in
  let headerDiffs := DiffMain (headerDump existingR) (headerDump newR) in
  ∃ diff,
    compareResultsHTTPRequestJSON existing new w = (Ret diff, w)
    ∧ (diff = "" → verdict = FullMatch)
    ∧ (verdict = FullMatch →
       diff = if decide (nonEqual headerDiffs = []) then ""
              else DiffPrettyText headerDiffs).
Proof.
  intros Hc existingR newR verdict headerDiffs.
  unfold compareResultsHTTPRequestJSON, getConfig, mbind, M_bind, gets.
  rewrite Hc. fold existingR newR. fold headerDiffs.
  subst verdict.
  destruct (jsondiff_Compare (byteBody existingR) (byteBody newR))
    as [verdict explanation].
  set (diffSoFar := if bool_decide (length (nonEqual headerDiffs) ≠ 0)
                    then DiffPrettyText headerDiffs else "").
  assert (diffSoFar = if decide (nonEqual headerDiffs = []) then ""
                      else DiffPrettyText headerDiffs) as Hd.
  { unfold diffSoFar. destruct (nonEqual headerDiffs) eqn:E; by cbn. }
  cbn [fst].
  destruct verdict; try (eexists; split; [reflexivity|]; split; [|done]);
    try (by intros ?%str_app_LF_nonempty); try done.
  case_bool_decide; eexists; (split; [reflexivity|]); (split; [|done]).
  - intros H'. by destruct diffSoFar.
  - rewrite <-!str_app_assoc. intros H'. by destruct diffSoFar.
Qed.

(** ** Without the update flag nothing is written *)

Lemma os_Mkdir_files dir : preserves (λ w, files (os w)) (os_Mkdir dir).
Proof. intros w r w'. unfold os_Mkdir. by case_bool_decide; intros [= <- <-]. Qed.

Lemma findOrCreateSnapshotDirectory_files :
  preserves (λ w, files (os w)) findOrCreateSnapshotDirectory.
Proof. unfold findOrCreateSnapshotDirectory. frame. apply os_Mkdir_files. Qed.

Lemma reloadSnapshots_files : preserves (λ w, files (os w)) reloadSnapshots.
Proof.
  unfold reloadSnapshots.
  apply preserves_mbind; [apply findOrCreateSnapshotDirectory_files|].
  intros [dir [e|]]; [frame|].
  apply preserves_mbind; [frame|]. intros [fs [e|]]; [frame|].
  apply preserves_mbind; [apply parseSnapshotsFromPaths_frame|].
  intros [snaps err]. frame.
Qed.

Lemma loadSnapshots_files : preserves (λ w, files (os w)) loadSnapshots.
Proof.
  intros w r w'. unfold loadSnapshots. destruct (snapshotsLoaded w).
  - by intros [= <- <-].
  - destruct (reloadSnapshots w) as [r0 w0] eqn:Hre. intros [= <- <-].
    cbn. by eapply reloadSnapshots_files.
Qed.

Lemma getSnapshot_files id : preserves (λ w, files (os w)) (getSnapshot id).
Proof.
  unfold getSnapshot. apply preserves_mbind; [apply loadSnapshots_files|].
  intros [e|]; frame.
Qed.

Lemma createOrUpdateSnapshot_strict_files
    (id data format : string) (w : World) (r : outcome unit) (w' : World) :
  shouldUpdate (args w) = false →
  createOrUpdateSnapshot id data format w = (r, w') →
  files (os w') = files (os w).
Proof.
  intros Hupd. unfold createOrUpdateSnapshot, mbind at 1, M_bind at 1.
  destruct (getSnapshot id w) as [o w1] eqn:Hget.
  pose proof (getSnapshot_files id _ _ _ Hget) as Hf. cbn in Hf.
  pose proof (getSnapshot_frame args id _ _ _ Hget) as Ha.
  rewrite <-Hf. clear Hf Hget.
  destruct o as [[s|]| |]; [| |by intros [= <- <-]..].
  - set (cmp := if decide (format = SnapshotHTTPRespJSON) then _ else _).
    assert (preserves (λ w, files (os w)) cmp ∧ preserves args cmp) as [Hcf Hca].
    { unfold cmp. destruct (decide _).
      - split; by apply compareResultsHTTPRequestJSON_frame.
      - split; by apply compareResults_frame. }
    unfold mbind, M_bind, setEvaluated, modify.
    destruct (cmp _) as [[diff| |] w2] eqn:Hcmp;
      pose proof (Hcf _ _ _ Hcmp) as Hf; pose proof (Hca _ _ _ Hcmp) as Ha2;
      cbn in Hf, Ha2; [|by intros [= <- <-]..].
    destruct (decide (diff ≠ "")); [|by intros [= <- <-]].
    unfold gets. rewrite Ha2, Ha, Hupd. by intros [= <- <-].
  - unfold mbind, M_bind, gets. rewrite Ha, Hupd. by intros [= <- <-].
Qed.

(** ** What a successful write leaves behind *)

Lemma str_rev_app_app (a b acc : string) :
  String.rev_app (a +:+ b) acc = String.rev_app b (String.rev_app a acc).
Proof.
  revert acc. induction a as [|c a IH]; intros acc; [done|].
  rewrite str_app_cons. cbn [String.rev_app]. apply IH.
Qed.

Lemma Ext_snapshot (x : string) : filepath.Ext (x +:+ snapshotExt) = snapshotExt.
Proof. unfold filepath.Ext, String.rev. by rewrite str_rev_app_app. Qed.

(** The last element of a path takes what is appended to the path, when
    that is a single element. *)
Lemma elems_app_element (x s : string) :
  filepath.elems s = [s] →
  ∃ init l, filepath.elems x = init ++ [l]
            ∧ filepath.elems (x +:+ s) = init ++ [l +:+ s].
Proof.
  intros Hs. induction x as [|c x (init & l & Hx & Hxs)].
  { by exists [], "". }
  rewrite str_app_cons. cbn [filepath.elems]. rewrite Hx, Hxs.
  destruct (decide (c = "/"%char)).
  - by exists ("" :: init), l.
  - destruct init as [|i init]; [by exists [], (String c l)|].
    by exists (String c i :: init), l.
Qed.

Lemma Join_snoc (l : list string) (e : string) :
  ∃ z, strings.Join (l ++ [e]) "/" = z +:+ e.
Proof.
  unfold strings.Join. induction l as [|x l [z IH]]; [by exists ""|].
  exists (x +:+ "/" +:+ z). rewrite <-!str_app_assoc, <-IH.
  cbn [app String.concat]. by destruct l.
Qed.

(** Cleaning keeps the snapshot extension at the end of a path. *)
Lemma Clean_snapshotExt (x : string) :
  ∃ z, filepath.Clean (x +:+ snapshotExt) = z +:+ snapshotExt.
Proof.
  assert (∀ l s, l +:+ snapshotExt = s → String.length s ≥ 9) as Hlen.
  { intros l s <-. rewrite str_length_app. cbn. lia. }
  unfold filepath.Clean.
  destruct (decide (x +:+ snapshotExt = "")) as [H%Hlen|_]; [cbn in H; lia|].
  cbv zeta.
  destruct (elems_app_element x snapshotExt) as (init & l & _ & ->); [done|].
  rewrite foldl_app. cbn [foldl]. set (kept := foldl _ [] init).
  unfold filepath.cleanStep.
  destruct (decide (_ ∨ _)) as [[H%Hlen|H%Hlen]|_]; [cbn in H; lia..|].
  destruct (decide (_ = "..")) as [H%Hlen|_]; [cbn in H; lia|].
  rewrite reverse_cons.
  destruct (Join_snoc (reverse kept) (l +:+ snapshotExt)) as [z ->].
  set (pre := if strings.HasPrefix _ _ then _ else _).
  rewrite !str_app_assoc.
  destruct (decide (_ = "")) as [H%Hlen|_]; [cbn in H; lia|by eexists].
Qed.

(** The file of a package is a snapshot file, whatever the directory and
    the name of the package. *)
Lemma isSnapshot_package_file (dir pkg : string) :
  isSnapshot (filepath.Join dir (pkg +:+ snapshotExt)) = true.
Proof.
  unfold isSnapshot. apply bool_decide_eq_true. unfold filepath.Join.
  destruct (decide (dir = "")).
  - destruct (decide (pkg +:+ snapshotExt = "")) as [Hnil|_].
    { by destruct pkg. }
    destruct (Clean_snapshotExt pkg) as [z ->]. apply Ext_snapshot.
  - rewrite !str_app_assoc.
    destruct (Clean_snapshotExt ((dir +:+ "/") +:+ pkg)) as [z ->].
    apply Ext_snapshot.
Qed.

Lemma isSnapshot_nonempty (p : string) : isSnapshot p = true → p ≠ "".
Proof. by intros H ->. Qed.

Lemma save_result (reg : gmap string snapshot) (w : World) :
  keyed reg →
  ∃ (err : option error) (w' : World),
    save (Some reg) w = (Ret err, w')
    ∧ with_os w' (os w) = w
    ∧ dirs (os w') = dirs (os w)
    ∧ (∀ p, files (os w') !! p = files (os w) !! p
            ∨ (p ≠ "" ∧ owns reg p
                 ∧ files (os w') !! p = Some (encode (persisted reg p)).1))
    ∧ (err = None → ∀ p, p ≠ "" → owns reg p →
         files (os w') !! p = Some (encode (persisted reg p)).1).
Proof.
  intros Hkeyed. unfold save. cbn [rangeSnapshots].
  set (g := groupByPath (range reg)).
  assert (∀ p snaps, (p, snaps) ∈ range g →
            owns reg p ∧ fileContent snaps = (encode (persisted reg p)).1)
    as Hgroup.
  { intros p snaps Hin%elem_of_range. subst g. rewrite groupByPath_lookup in Hin.
    cbn zeta in Hin. case_decide as Hnil; [done|]. injection Hin as <-. split.
    - destruct (filter _ _) as [|s l'] eqn:Hf; [done|].
      assert (s ∈ filter (λ s, snap_path s = p) (range reg).*2) as Hs
        by (rewrite Hf; left).
      apply list_elem_of_filter in Hs as [Hp Hs].
      apply list_elem_of_fmap in Hs as ([k s'] & -> & Hks%elem_of_range).
      by exists k, s'.
    - unfold fileContent. by rewrite snapshotMapOf_group. }
  assert (∀ p, owns reg p → ∃ snaps, (p, snaps) ∈ range g) as Howned.
  { intros p (k & s & Hks & Hp). subst g.
    exists (filter (λ s, snap_path s = p) (range reg).*2).
    apply elem_of_range. rewrite groupByPath_lookup. cbn zeta.
    rewrite decide_False; [done|]. intros Hnil.
    assert (s ∈ filter (λ s, snap_path s = p) (range reg).*2) as Hs.
    { apply list_elem_of_filter. split; [done|]. apply list_elem_of_fmap.
      exists (k, s). by rewrite elem_of_range. }
    rewrite Hnil in Hs. by apply elem_of_nil in Hs. }
  destruct (saveFiles_spec (range g) w (NoDup_fst_range g))
    as (err & w' & Hsave & Hw & Hcwd & Hdirs & Hdenied & Hch & Hok & Hden).
  exists err, w'. split_and!; try done.
  - intros p. destruct (Hch p) as [?|(? & snaps & Hin & Hf)]; [by left|right].
    destruct (Hgroup _ _ Hin) as [? <-]. done.
  - intros Herr p Hpne Hown. destruct (Howned p Hown) as [snaps Hin].
    destruct (Hgroup _ _ Hin) as [_ <-]. by apply (Hok Herr p snaps).
Qed.

Lemma writeSnapshot_file
    (id value : string) (isUpdate : bool) (w w' : World) (p : option string) :
  registryKeyed w →
  writeSnapshot id value isUpdate w = (Ret (p, None), w') →
  ∃ (m : gmap string snapshot) (path : string),
    allSnapshots w' = Some m
    ∧ m !! id = Some (mkSnapshot id value path isUpdate false)
    ∧ isSnapshot path = true
    ∧ files (os w') !! path = Some (encode (persisted m path)).1.
Proof.
  intros Hkeyed. unfold writeSnapshot. cbn [isValid negb].
  unfold mbind at 1, M_bind at 1.
  destruct (loadSnapshots w) as [[[e|]| |] w1] eqn:Hload; try by intros [=].
  apply loadSnapshots_keyed in Hload; [|done]. clear Hkeyed.
  unfold mbind at 1, M_bind at 1.
  destruct (findOrCreateSnapshotDirectory w1) as [[[dir [e|]]| |] w2] eqn:Hdir;
    try by intros [=].
  apply (findOrCreateSnapshotDirectory_frame allSnapshots) in Hdir.
  unfold mbind at 1, M_bind at 1.
  destruct (getTestingPackage w2) as [[[pkg [e|]]| |] w3] eqn:Hpkg;
    try by intros [=].
  apply (getTestingPackage_frame allSnapshots) in Hpkg.
  unfold mbind at 1, M_bind at 1, storeSnapshot at 1.
  destruct (allSnapshots w3) as [m|] eqn:Hm; [|by intros [=]].
  unfold mbind at 1, M_bind at 1, gets at 1.
  cbn [allSnapshots with_allSnapshots].
  set (path := filepath.Join dir (pkg +:+ snapshotExt)).
  set (s := mkSnapshot id value path isUpdate false).
  assert (keyed (<[id := s]> m)) as Hk.
  { apply map_Forall_insert_2; [done|]. apply Hload. congruence. }
  destruct (save_result (<[id := s]> m) (with_allSnapshots w3 (Some (<[id := s]> m))) Hk)
    as (err & w4 & Hsave & Hw & _ & _ & Hok).
  unfold mbind, M_bind. rewrite Hsave. destruct err as [e|]; [by intros [=]|].
  intros [= <- <-]. exists (<[id := s]> m), path. split_and!.
  - apply (f_equal allSnapshots) in Hw. by cbn in Hw.
  - by rewrite lookup_insert_eq.
  - apply isSnapshot_package_file.
  - apply Hok; [done| |].
    + apply isSnapshot_nonempty, isSnapshot_package_file.
    + exists id, s. by rewrite lookup_insert_eq.
Qed.

(** *** Where the file of the package is *)

Global Instance SnapshotsDir_os : OSIndependent SnapshotsDir.
Proof. done. Qed.
Global Instance SnapshotsDir_store : StoreIndependent SnapshotsDir.
Proof. done. Qed.

Lemma os_Mkdir_cwd dir : preserves (λ w, cwd (os w)) (os_Mkdir dir).
Proof. intros w r w'. unfold os_Mkdir. by case_bool_decide; intros [= <- <-]. Qed.

Lemma findOrCreateSnapshotDirectory_cwd :
  preserves (λ w, cwd (os w)) findOrCreateSnapshotDirectory.
Proof. unfold findOrCreateSnapshotDirectory. frame. apply os_Mkdir_cwd. Qed.

Lemma reloadSnapshots_cwd : preserves (λ w, cwd (os w)) reloadSnapshots.
Proof.
  unfold reloadSnapshots.
  apply preserves_mbind; [apply findOrCreateSnapshotDirectory_cwd|].
  intros [dir [e|]]; [frame|].
  apply preserves_mbind; [frame|]. intros [fs [e|]]; [frame|].
  apply preserves_mbind; [apply parseSnapshotsFromPaths_frame|].
  intros [snaps err]. frame.
Qed.

Lemma loadSnapshots_cwd : preserves (λ w, cwd (os w)) loadSnapshots.
Proof.
  intros w r w'. unfold loadSnapshots. destruct (snapshotsLoaded w).
  - by intros [= <- <-].
  - destruct (reloadSnapshots w) as [r0 w0] eqn:Hre. intros [= <- <-].
    cbn. by eapply reloadSnapshots_cwd.
Qed.

(** The directory returned is the join of the working directory and
    [SnapshotsDir]. *)
Lemma findOrCreateSnapshotDirectory_dir (w w' : World) (dir : string) :
  findOrCreateSnapshotDirectory w = (Ret (dir, None), w') →
  ∃ d, cwd (os w) = Some d ∧ dir = filepath.Join d (SnapshotsDir w).
Proof.
  unfold findOrCreateSnapshotDirectory, getTestingPath, os_Getwd,
    os_Stat_IsNotExist, os_Mkdir, mbind, M_bind, gets, mret, M_ret.
  destruct (cwd (os w)) as [d|]; cbn; [|done].
  case_bool_decide.
  - case_bool_decide; [done|]. intros [= <- <-]. by exists d.
  - intros [= <- <-]. by exists d.
Qed.

(** The package is named after the last element of the working
    directory. *)
Lemma getTestingPackage_pkg (w w' : World) (pkg : string) :
  getTestingPackage w = (Ret (pkg, None), w') →
  ∃ d, cwd (os w) = Some d ∧ pkg = filepath.Base d.
Proof.
  unfold getTestingPackage, getTestingPath, os_Getwd, mbind, M_bind, gets,
    mret, M_ret.
  destruct (cwd (os w)) as [d|]; cbn; [|done]. intros [= <- <-]. by exists d.
Qed.

Lemma writeSnapshot_file_at
    (id value : string) (isUpdate : bool) (w w' : World) (p : option string) :
  registryKeyed w →
  writeSnapshot id value isUpdate w = (Ret (p, None), w') →
  ∃ (m : gmap string snapshot) (d : string),
    let path := filepath.Join (filepath.Join d (SnapshotsDir w))
                              (filepath.Base d +:+ snapshotExt) in
    cwd (os w) = Some d
    ∧ allSnapshots w' = Some m
    ∧ m !! id = Some (mkSnapshot id value path isUpdate false)
    ∧ isSnapshot path = true
    ∧ files (os w') !! path = Some (encode (persisted m path)).1.
Proof.
  intros Hkeyed. unfold writeSnapshot. cbn [isValid negb].
  unfold mbind at 1, M_bind at 1.
  destruct (loadSnapshots w) as [[[e|]| |] w1] eqn:Hload; try by intros [=].
  pose proof (loadSnapshots_cwd _ _ _ Hload) as Hcwd1.
  pose proof (loadSnapshots_frame SnapshotsDir _ _ _ Hload) as Hsd1.
  apply loadSnapshots_keyed in Hload; [|done]. clear Hkeyed.
  unfold mbind at 1, M_bind at 1.
  destruct (findOrCreateSnapshotDirectory w1) as [[[dir [e|]]| |] w2] eqn:Hdir;
    try by intros [=].
  pose proof (findOrCreateSnapshotDirectory_cwd _ _ _ Hdir) as Hcwd2.
  destruct (findOrCreateSnapshotDirectory_dir _ _ _ Hdir) as (d & Hd & ->).
  apply (findOrCreateSnapshotDirectory_frame allSnapshots) in Hdir.
  unfold mbind at 1, M_bind at 1.
  destruct (getTestingPackage w2) as [[[pkg [e|]]| |] w3] eqn:Hpkg;
    try by intros [=].
  destruct (getTestingPackage_pkg _ _ _ Hpkg) as (d' & Hd' & ->).
  cbn beta in Hcwd1, Hcwd2.
  assert (d' = d) as -> by congruence.
  apply (getTestingPackage_frame allSnapshots) in Hpkg.
  unfold mbind at 1, M_bind at 1, storeSnapshot at 1.
  destruct (allSnapshots w3) as [m|] eqn:Hm; [|by intros [=]].
  unfold mbind at 1, M_bind at 1, gets at 1.
  cbn [allSnapshots with_allSnapshots].
  rewrite Hsd1.
  set (path := filepath.Join (filepath.Join d (SnapshotsDir w))
                             (filepath.Base d +:+ snapshotExt)).
  set (s := mkSnapshot id value path isUpdate false).
  assert (keyed (<[id := s]> m)) as Hk.
  { apply map_Forall_insert_2; [done|]. apply Hload. congruence. }
  destruct (save_result (<[id := s]> m) (with_allSnapshots w3 (Some (<[id := s]> m))) Hk)
    as (err & w4 & Hsave & Hw & _ & _ & Hok).
  unfold mbind, M_bind. rewrite Hsave. destruct err as [e|]; [by intros [=]|].
  intros [= <- <-]. exists (<[id := s]> m), d. cbv zeta. fold path. split_and!.
  - congruence.
  - apply (f_equal allSnapshots) in Hw. by cbn in Hw.
  - by rewrite lookup_insert_eq.
  - apply isSnapshot_package_file.
  - apply Hok; [done| |].
    + apply isSnapshot_nonempty, isSnapshot_package_file.
    + exists id, s. by rewrite lookup_insert_eq.
Qed.

(** A successful [writeSnapshot] leaves the record in the registry with
    the value as given, under the file of the package: the file in the
    snapshot directory (the working directory joined with [SnapshotsDir])
    that is named after the last element of the working directory, with
    the snapshot extension.  That path is a snapshot file, and the file
    holds the encoding of the records of the registry that belong to it. *)
Theorem writeSnapshot_persists
    (id value : string) (isUpdate : bool) (w w' : World) (p : option string) :
  registryKeyed w →
  writeSnapshot id value isUpdate w = (Ret (p, None), w') →
  ∃ (m : gmap string snapshot) (d : string),
    let path := filepath.Join (filepath.Join d (SnapshotsDir w))
                              (filepath.Base d +:+ snapshotExt) in
    cwd (os w) = Some d
    ∧ allSnapshots w' = Some m
    ∧ m !! id = Some (mkSnapshot id value path isUpdate false)
    ∧ isSnapshot path = true
    ∧ files (os w') !! path = Some (encode (persisted m path)).1.
Proof. apply writeSnapshot_file_at. Qed.

End more.


(** ** Cleanup *)

Lemma pruned_idemp a s : pruned a (pruned a s) = pruned a s.
Proof.
  unfold pruned. destruct (evaluated s) eqn:E, (shouldUpdate a), (singleRun a);
    cbn; rewrite ?E; done.
Qed.

Lemma pruned_evaluated a s : evaluated (pruned a s) = evaluated s.
Proof. unfold pruned. by destruct (_ && _ && _). Qed.

Lemma pruned_path a s : snap_path (pruned a s) = snap_path s.
Proof. unfold pruned. by destruct (_ && _ && _). Qed.

Lemma pruned_id a s : snap_id (pruned a s) = snap_id s.
Proof. unfold pruned. by destruct (_ && _ && _). Qed.

Section cleanup.
Context `{libs : Libs} `{runtime : Runtime}.

Lemma cleanupLoop_spec (l : list (string * snapshot)) (w : World)
    (reg : gmap string snapshot) :
  allSnapshots w = Some reg →
  (∀ k s, (k, s) ∈ l → ∃ s', reg !! k = Some s' ∧ evaluated s' = evaluated s) →
  ∃ w' reg',
    cleanupLoop l w = (Ret tt, w')
    ∧ args w' = args w ∧ os w' = os w
    ∧ allSnapshots w' = Some reg'
    ∧ ∀ k, reg' !! k
           = if decide (k ∈ l.*1) then pruned (args w) <$> reg !! k
             else reg !! k.
Proof.
  revert w reg. induction l as [|[k0 s0] l IH]; intros w reg Hreg Hl.
  { exists w, reg. by split_and!. }
  cbn [cleanupLoop]. unfold mbind at 1, M_bind at 1, gets at 1.
  destruct (Hl k0 s0) as (s0' & Hs0 & Hev); [left|].
  set (c := negb (evaluated s0) && shouldUpdate (args w) && negb (singleRun (args w))).
  set (mark := λ s, mkSnapshot (snap_id s) (snap_value s) (snap_path s)
                               (evaluated s) true).
  set (w1 := if c then with_stdout
                         (with_allSnapshots w (Some (alter mark k0 reg)))
                         (stdout w ++ ["Removing unused snapshot `" +:+ snap_id s0 +:+ "`" +:+ LF])
             else w).
  set (reg1 := if c then alter mark k0 reg else reg).
  assert (allSnapshots w1 = Some reg1 ∧ args w1 = args w ∧ os w1 = os w)
    as (Hreg1 & Ha1 & Ho1).
  { unfold w1, reg1. by destruct c. }
  assert (reg1 !! k0 = pruned (args w) <$> reg !! k0) as Hk0.
  { assert (negb (evaluated s0') && shouldUpdate (args w)
              && negb (singleRun (args w)) = c) as Hc by by rewrite Hev.
    unfold reg1, pruned. rewrite Hs0. cbn [fmap option_fmap option_map].
    rewrite Hc. destruct c; rewrite ?lookup_alter_eq, Hs0; done. }
  assert (∀ k, k ≠ k0 → reg1 !! k = reg !! k) as Hother.
  { intros k Hne. unfold reg1. destruct c; [by rewrite lookup_alter_ne|done]. }
  destruct (IH w1 reg1 Hreg1) as (w' & reg' & Hrun & Ha & Ho & Hreg' & Hlook).
  { intros k s Hin. destruct (Hl k s) as (s' & Hs' & Hev'); [by right|].
    destruct (decide (k = k0)) as [->|Hne].
    - rewrite Hk0, Hs'. cbn. eexists. split; [done|]. by rewrite pruned_evaluated.
    - rewrite Hother by done. by exists s'. }
  exists w', reg'. split_and!; try congruence.
  - unfold mbind, M_bind. rewrite <-Hrun. unfold w1.
    fold c. destruct c; [|done].
    unfold markShouldRemove, fmt_Printf, modify. cbn. by rewrite Hreg.
  - intros k. rewrite Hlook, Ha1. cbn [fmap list_fmap fst].
    destruct (decide (k = k0)) as [->|Hne].
    + rewrite (decide_True _ _ (list_elem_of_here k0 l.*1)), Hk0.
      destruct (decide _); [|done]. rewrite <-option_fmap_compose.
      apply option_fmap_ext. intros s. apply pruned_idemp.
    + rewrite Hother by done.
      destruct (decide (k ∈ l.*1)) as [Hin|Hnin].
      * rewrite decide_True; [done|by right].
      * rewrite decide_False; [done|]. by intros [?|?]%elem_of_cons.
Qed.

(** [Cleanup] marks the records that were not evaluated, when the update
    flag is set for a whole run, and writes the files again: every file
    that owns a record then holds the records of its path that were
    evaluated (and were not already marked). *)
Theorem Cleanup_prunes (w w' : World) (reg : gmap string snapshot) :
  allSnapshots w = Some reg →
  keyed reg →
  Cleanup w = (Ret None, w') →
  allSnapshots w' = Some (pruned (args w) <$> reg)
  ∧ (∀ p, p ≠ "" → owns reg p →
       files (os w') !! p
       = Some (encode (persisted (pruned (args w) <$> reg) p)).1)
  ∧ (shouldUpdate (args w) = true → singleRun (args w) = false →
     ∀ p, persisted (pruned (args w) <$> reg) p
          = filter (λ kv : string * snapshot,
                      snap_path kv.2 = p ∧ evaluated kv.2 = true
                      ∧ shouldRemove kv.2 = false) reg).
Proof.
  intros Hreg Hk. unfold Cleanup, mbind at 1, M_bind at 1, gets at 1.
  rewrite Hreg. cbn [rangeSnapshots].
  destruct (cleanupLoop_spec (range reg) w reg Hreg)
    as (w1 & reg1 & Hrun & Ha & Ho & Hreg1 & Hlook).
  { intros k s Hin%elem_of_range. by exists s. }
  assert (reg1 = pruned (args w) <$> reg) as ->.
  { apply map_eq. intros k. rewrite Hlook, lookup_fmap.
    destruct (decide _) as [|Hnin]; [done|].
    destruct (reg !! k) as [s|] eqn:Hs; [|done].
    exfalso. apply Hnin. apply list_elem_of_fmap. exists (k, s).
    by rewrite elem_of_range. }
  unfold mbind at 1, M_bind at 1. rewrite Hrun.
  unfold mbind, M_bind, gets. rewrite Hreg1.
  assert (keyed (pruned (args w) <$> reg)) as Hk1.
  { intros k s. rewrite lookup_fmap, fmap_Some. intros (s0 & Hs0 & ->).
    rewrite pruned_id. by apply Hk. }
  destruct (save_result _ w1 Hk1) as (err & w2 & Hsave & Hw & _ & _ & Hok).
  rewrite Hsave. intros [= -> <-]. split_and!.
  - apply (f_equal allSnapshots) in Hw. cbn in Hw. congruence.
  - intros p Hp (k & s & Hs & Hpath). apply Hok; [done..|].
    exists k, (pruned (args w) s). rewrite lookup_fmap, Hs. split; [done|].
    by rewrite pruned_path.
  - intros Hu Hs p. unfold persisted. apply map_eq. intros k.
    apply option_eq. intros x.
    rewrite !map_lookup_filter_Some, lookup_fmap, fmap_Some. cbn. split.
    + intros ((s & Hks & ->) & Hp & Hrm). revert Hp Hrm. unfold pruned.
      rewrite Hu, Hs. destruct (evaluated s) eqn:He; cbn; [|done].
      intros ? ?. by rewrite He.
    + intros (Hkx & Hp & He & Hrm). split; [|done]. exists x. split; [done|].
      unfold pruned. by rewrite He.
Qed.

End cleanup.


(** ** Substitution of defaults *)

Lemma jdepth_member (m : gmap string jvalue) (k : string) (v : jvalue) :
  m !! k = Some v → jdepth v < jdepth (JObject m).
Proof.
  cbn [jdepth]. intros Hk. apply Nat.lt_succ_r. revert k v Hk.
  apply (map_fold_weak_ind (λ r m, ∀ k v, m !! k = Some v → jdepth v ≤ r)).
  - intros k v. by rewrite lookup_empty.
  - intros i x m' r Hi IH k v. destruct (decide (k = i)) as [->|Hne].
    + rewrite lookup_insert_eq. intros [= ->]. lia.
    + rewrite lookup_insert_ne by done. intros Hk. specialize (IH k v Hk). lia.
Qed.

Lemma jdepth_element (s : list jvalue) (e : jvalue) :
  e ∈ s → jdepth e < jdepth (JArray s).
Proof.
  cbn [jdepth]. intros He. apply Nat.lt_succ_r.
  induction He as [e s|e e' s _ IH]; cbn [foldr]; lia.
Qed.

Lemma updateEntry_commute (k1 k2 : string) (v1 v2 : jvalue) (n : nat) :
  k1 ≠ k2 → isScalar v1 = true → isScalar v2 = true →
  ∀ x kk, jdepth x < n →
    updateEntry k1 v1 kk (updateEntry k2 v2 kk x)
    = updateEntry k2 v2 kk (updateEntry k1 v1 kk x).
Proof.
  intros Hne Hv1 Hv2. induction n as [|n IH]; intros x kk Hd; [lia|].
  destruct (isScalar x) eqn:Hx.
  - rewrite (updateEntry_scalar k2 v2 kk x), (updateEntry_scalar k1 v1 kk x)
      by done.
    destruct (decide (kk = k2)) as [Hk2|Hk2], (decide (kk = k1)) as [Hk1|Hk1];
      try congruence;
      rewrite ?(updateEntry_scalar k1 v1), ?(updateEntry_scalar k2 v2) by done;
      repeat case_decide; congruence.
  - destruct x as [| | | |s|o]; try done.
    + rewrite !updateEntry_array. f_equal. rewrite <-!list_fmap_compose.
      apply list_fmap_ext. intros i e He%list_elem_of_lookup_2. cbn.
      destruct e as [| | | | |o]; try done. cbn [updateElement].
      pose proof (jdepth_element _ _ He) as Hlt.
      assert (jdepth (JObject o) < n) as Ho by lia.
      pose proof (IH (JObject o) "" Ho) as Heq.
      by rewrite !updateEntry_object in Heq.
    + rewrite !updateEntry_object. f_equal. apply map_eq. intros k.
      rewrite !updateMap_lookup. destruct (o !! k) as [y|] eqn:Hy; [|done].
      cbn. f_equal. apply IH. pose proof (jdepth_member _ _ _ Hy). lia.
Qed.

Lemma updateMap_commute (k1 k2 : string) (v1 v2 : jvalue) (m : gmap string jvalue) :
  k1 ≠ k2 → isScalar v1 = true → isScalar v2 = true →
  updateMap k1 v1 (updateMap k2 v2 m) = updateMap k2 v2 (updateMap k1 v1 m).
Proof.
  intros Hne Hv1 Hv2.
  pose proof (updateEntry_commute k1 k2 v1 v2 (S (jdepth (JObject m)))
                Hne Hv1 Hv2 (JObject m) "") as H.
  rewrite !updateEntry_object in H. injection H; [done|lia].
Qed.

Lemma updateEntry_idemp (k : string) (v : jvalue) (n : nat) :
  isScalar v = true →
  ∀ x kk, jdepth x < n →
    updateEntry k v kk (updateEntry k v kk x) = updateEntry k v kk x.
Proof.
  intros Hv. induction n as [|n IH]; intros x kk Hd; [lia|].
  destruct (isScalar x) eqn:Hx.
  - rewrite (updateEntry_scalar k v kk x) by done.
    destruct (decide (kk = k)) as [Hk|Hk];
      rewrite updateEntry_scalar by done;
      repeat case_decide; congruence.
  - destruct x as [| | | |s|o]; try done.
    + rewrite !updateEntry_array. f_equal. rewrite <-!list_fmap_compose.
      apply list_fmap_ext. intros i e He%list_elem_of_lookup_2. cbn.
      destruct e as [| | | | |o]; try done. cbn [updateElement].
      pose proof (jdepth_element _ _ He) as Hlt.
      assert (jdepth (JObject o) < n) as Ho by lia.
      pose proof (IH (JObject o) "" Ho) as Heq.
      by rewrite !updateEntry_object in Heq.
    + rewrite !updateEntry_object. f_equal. apply map_eq. intros k'.
      rewrite !updateMap_lookup. destruct (o !! k') as [y|] eqn:Hy; [|done].
      cbn. f_equal. apply IH. pose proof (jdepth_member _ _ _ Hy). lia.
Qed.

Lemma updateMap_idemp (k : string) (v : jvalue) (m : gmap string jvalue) :
  isScalar v = true →
  updateMap k v (updateMap k v m) = updateMap k v m.
Proof.
  intros Hv.
  pose proof (updateEntry_idemp k v (S (jdepth (JObject m))) Hv (JObject m) "")
    as H.
  rewrite !updateEntry_object in H. injection H; [done|lia].
Qed.

(** json.go: substitutions of scalar values for different keys can be made
    in either order, and making one twice is making it once. *)
Theorem updateKeyValuesInMap_commute_idempotent
    (k1 k2 : string) (v1 v2 : jvalue) (m : gmap string jvalue) :
  isScalar v1 = true → isScalar v2 = true →
  (k1 ≠ k2 →
   updateKeyValuesInMap k1 v1 (updateKeyValuesInMap k2 v2 m)
   = updateKeyValuesInMap k2 v2 (updateKeyValuesInMap k1 v1 m))
  ∧ updateKeyValuesInMap k1 v1 (updateKeyValuesInMap k1 v1 m)
    = updateKeyValuesInMap k1 v1 m.
Proof.
  intros Hv1 Hv2. unfold updateKeyValuesInMap. split.
  - intros Hne. by apply updateMap_commute.
  - by apply updateMap_idemp.
Qed.

Lemma foldl_defaults_permutation (l1 l2 : list (string * jvalue))
    (j : option (gmap string jvalue)) :
  l1 ≡ₚ l2 → NoDup l1.*1 → Forall (λ kv, isScalar kv.2 = true) l1 →
  foldl (λ j kv, updateKeyValuesInMap kv.1 kv.2 <$> j) j l1
  = foldl (λ j kv, updateKeyValuesInMap kv.1 kv.2 <$> j) j l2.
Proof.
  intros Hp. revert j.
  induction Hp as [|x l l' Hp IH|x y l|l1 l2 l3 Hp1 IH1 Hp2 IH2];
    intros j Hnd Hsc.
  - done.
  - cbn [foldl]. cbn in Hnd. apply NoDup_cons in Hnd as [_ Hnd].
    apply Forall_cons in Hsc as [_ Hsc]. by apply IH.
  - cbn [foldl]. f_equal. cbn in Hnd.
    apply NoDup_cons in Hnd as [Hy _].
    apply Forall_cons in Hsc as [Hy' [Hx' _]%Forall_cons].
    rewrite <-!option_fmap_compose. apply option_fmap_ext. intros m. cbn.
    unfold updateKeyValuesInMap. apply updateMap_commute; [|done..].
    intros Heq. apply Hy. rewrite Heq. left.
  - rewrite IH1 by done. apply IH2.
    + by rewrite <-Hp1.
    + by rewrite <-Hp1.
Qed.

Lemma jsonBodyCleanup_any_order
    (libs : Libs) (rt1 rt2 : Runtime) (c : option config) (h : httpRequest) :
  (∀ cfg k v, c = Some cfg → Defaults cfg !! k = Some v → isScalar v = true) →
  @jsonBodyCleanup libs rt1 c h = @jsonBodyCleanup libs rt2 c h.
Proof.
  intros Hsc. unfold jsonBodyCleanup.
  destruct (decide _); [done|].
  destruct (json_Unmarshal (body h)) as [j [e|]]; [done|].
  destruct c as [cfg|]; [|done].
  rewrite (foldl_defaults_permutation (@range rt1 _ (Defaults cfg))
                                      (@range rt2 _ (Defaults cfg))); [done|..].
  - by rewrite !range_perm.
  - rewrite range_perm. apply NoDup_fst_map_to_list.
  - apply Forall_forall. intros [k v] Hin. cbn.
    apply (Hsc cfg k v eq_refl).
    rewrite range_perm in Hin. by apply elem_of_map_to_list in Hin.
Qed.

(** assert_http.go: with scalar defaults the cleaned body does not depend on
    the order in which [range] visits the table of defaults. *)
Theorem jsonBodyCleanup_order_independent
    (libs : Libs) (rt1 rt2 : Runtime) (c : option config) (h : httpRequest) :
  (∀ cfg k v, c = Some cfg → Defaults cfg !! k = Some v → isScalar v = true) →
  @jsonBodyCleanup libs rt1 c h = @jsonBodyCleanup libs rt2 c h.
Proof. apply jsonBodyCleanup_any_order. Qed.


(** ** The loader *)

Lemma decode_never_exits (data : string) :
  (∃ snaps, decode data = Ret (snaps, None))
  ∨ decode data = Panic "index out of range [1] with length 1".
Proof.
  unfold decode.
  destruct (decodeLoop_outcome (strings.Split data snapshotSeparator) ∅)
    as [[_ [snaps ->]]|[_ ->]]; [left; by eexists|by right].
Qed.

Lemma fileRecords_outcome (fs : gmap string string) (p : string) :
  (∃ m, fileRecords fs p = Ret m)
  ∨ fileRecords fs p = Panic "index out of range [1] with length 1".
Proof.
  unfold fileRecords. destruct (fs !! p) as [data|]; [|left; by eexists].
  destruct (decode_never_exits data) as [[snaps ->]| ->];
    [left; by eexists|by right].
Qed.

Lemma parseOne_run (p : string) (snaps : gmap string snapshot) (w : World) :
  parseOne p snaps w = (loadStep (files (os w)) (Ret snaps) p, w).
Proof.
  unfold parseOne, readFile, lift, mbind, M_bind, gets, loadStep, fileRecords.
  destruct (files (os w) !! p) as [data|]; [|by rewrite (left_id ∅ (∪))].
  destruct (decode_never_exits data) as [[s ->]| ->]; done.
Qed.

Lemma loadStep_stuck (fs : gmap string string) (paths : list string)
    (r : outcome (gmap string snapshot)) :
  (∀ snaps, r ≠ Ret snaps) → foldl (loadStep fs) r paths = r.
Proof.
  intros Hr. induction paths as [|p paths IH]; [done|].
  cbn [foldl]. destruct r; [by destruct (Hr a)|apply IH..].
Qed.

Lemma parseAll_run (paths : list string) (snaps : gmap string snapshot) (w : World) :
  parseAll paths snaps w = (foldl (loadStep (files (os w))) (Ret snaps) paths, w).
Proof.
  revert snaps. induction paths as [|p paths IH]; intros snaps; [done|].
  cbn [parseAll foldl]. unfold mbind, M_bind. rewrite parseOne_run.
  destruct (loadStep _ _ p) as [m| |msg] eqn:E; [apply IH|..];
    by rewrite loadStep_stuck.
Qed.

Lemma loadStep_commute (fs : gmap string string) (p1 p2 : string)
    (r : outcome (gmap string snapshot)) :
  (∀ m1 m2, p1 ≠ p2 → fileRecords fs p1 = Ret m1 → fileRecords fs p2 = Ret m2 →
            m1 ##ₘ m2) →
  loadStep fs (loadStep fs r p1) p2 = loadStep fs (loadStep fs r p2) p1.
Proof.
  intros Hdisj. destruct (decide (p1 = p2)) as [->|Hne]; [done|].
  destruct r as [snaps| |msg]; [|done..]. cbn [loadStep].
  destruct (fileRecords_outcome fs p1) as [[m1 H1]|H1],
           (fileRecords_outcome fs p2) as [[m2 H2]|H2];
    rewrite H1, H2; cbn [loadStep]; rewrite ?H1, ?H2; try done.
  f_equal. rewrite !(assoc_L (∪)). f_equal. apply map_union_comm.
  symmetry. by apply Hdisj.
Qed.

Lemma foldl_loadStep_permutation (fs : gmap string string)
    (l1 l2 : list string) (r : outcome (gmap string snapshot)) :
  l1 ≡ₚ l2 →
  (∀ p1 p2 m1 m2, p1 ∈ l1 → p2 ∈ l1 → p1 ≠ p2 →
     fileRecords fs p1 = Ret m1 → fileRecords fs p2 = Ret m2 → m1 ##ₘ m2) →
  foldl (loadStep fs) r l1 = foldl (loadStep fs) r l2.
Proof.
  intros Hp. revert r.
  induction Hp as [|x l l' Hp IH|x y l|l1 l2 l3 Hp1 IH1 Hp2 IH2]; intros r Hd.
  - done.
  - cbn [foldl]. apply IH. intros p1 p2 m1 m2 H1 H2.
    apply Hd; by right.
  - cbn [foldl]. f_equal. apply loadStep_commute. intros m1 m2.
    apply Hd; [left|right; left].
  - rewrite IH1 by done. apply IH2. intros p1 p2 m1 m2 H1 H2.
    apply Hd; by rewrite Hp1.
Qed.

(** The registry that is loaded does not depend on the order in which the
    goroutines of the loader take the mutex, when no identifier occurs in
    two of the files. *)
Theorem parseSnapshotsFromPaths_schedule_independent
    (rt1 rt2 : Runtime) (paths : list string) (w : World) :
  (∀ p1 p2 m1 m2, p1 ∈ paths → p2 ∈ paths → p1 ≠ p2 →
     fileRecords (files (os w)) p1 = Ret m1 →
     fileRecords (files (os w)) p2 = Ret m2 → m1 ##ₘ m2) →
  @parseSnapshotsFromPaths rt1 paths w = @parseSnapshotsFromPaths rt2 paths w.
Proof.
  intros Hd. unfold parseSnapshotsFromPaths, mbind, M_bind.
  rewrite !parseAll_run.
  rewrite (foldl_loadStep_permutation _ (@schedule rt1 paths) (@schedule rt2 paths));
    [done|by rewrite !schedule_perm|].
  intros p1 p2 m1 m2 H1 H2. apply Hd; by rewrite <-(@schedule_perm rt1).
Qed.

Lemma fileRecords_record (fs : gmap string string) (p : string)
    (fm : gmap string snapshot) (k : string) (s : snapshot) :
  fileRecords fs p = Ret fm → fm !! k = Some s →
  snap_id s = k ∧ snap_path s = p ∧ evaluated s = false
  ∧ shouldRemove s = false ∧ strings.TrimSpace (snap_value s) = snap_value s.
Proof.
  unfold fileRecords. destruct (fs !! p) as [data|].
  - destruct (decode data) as [[m err]| |] eqn:Hd; [|done..].
    apply decode_asRead in Hd as [Hm _]. intros [= <-].
    rewrite lookup_fmap, fmap_Some. intros (s0 & Hs0 & ->).
    destruct (Hm k s0 Hs0) as (? & ? & ? & ? & ?). done.
  - intros [= <-]. by rewrite lookup_empty.
Qed.

Lemma foldl_loadStep_sound (fs : gmap string string) (paths l : list string)
    (acc m : gmap string snapshot) :
  (∀ p, p ∈ l → p ∈ paths) →
  map_Forall (λ k s, snap_path s ∈ paths
                     ∧ ∃ fm, fileRecords fs (snap_path s) = Ret fm
                             ∧ fm !! k = Some s) acc →
  foldl (loadStep fs) (Ret acc) l = Ret m →
  map_Forall (λ k s, snap_path s ∈ paths
                     ∧ ∃ fm, fileRecords fs (snap_path s) = Ret fm
                             ∧ fm !! k = Some s) m.
Proof.
  revert acc. induction l as [|p l IH]; intros acc Hl Hacc.
  - by intros [= <-].
  - cbn [foldl loadStep].
    destruct (fileRecords fs p) as [fm| |msg] eqn:Hp;
      [|by rewrite loadStep_stuck..].
    apply IH; [intros p' Hp'; apply Hl; by right|].
    intros k s [Hs|[_ Hs]]%lookup_union_Some_raw; [|by apply Hacc].
    destruct (fileRecords_record _ _ _ _ _ Hp Hs) as (_ & -> & _).
    split; [apply Hl; left|]. by exists fm.
Qed.

Section loading.
Context `{runtime : Runtime}.

(** Every record of a registry that has just been loaded is a record of
    the snapshot file named by its path, and it is neither evaluated nor
    marked for removal. *)
Theorem loadSnapshots_sound (w w' : World) :
  snapshotsLoaded w = false →
  loadSnapshots w = (Ret None, w') →
  ∃ m, allSnapshots w' = Some m
       ∧ map_Forall
           (λ k s, isSnapshot (snap_path s) = true
                   ∧ evaluated s = false ∧ shouldRemove s = false
                   ∧ ∃ fm, fileRecords (files (os w')) (snap_path s) = Ret fm
                           ∧ fm !! k = Some s) m.
Proof.
  intros Hl. unfold loadSnapshots. rewrite Hl.
  destruct (reloadSnapshots w) as [r w0] eqn:Hre. intros [= -> <-].
  pose proof (reloadSnapshots_files _ _ _ Hre) as Hfiles. cbn in Hfiles.
  revert Hre. unfold reloadSnapshots, mbind at 1, M_bind at 1.
  destruct (findOrCreateSnapshotDirectory w) as [[[dir [e1|]]| |] w1] eqn:Hdir;
    try by intros [=].
  unfold mbind at 1, M_bind at 1, ioutil_ReadDir at 1, gets at 1.
  destruct (bool_decide _); [|by intros [=]].
  set (paths := filter _ _).
  unfold parseSnapshotsFromPaths, mbind, M_bind. rewrite parseAll_run.
  destruct (foldl _ _ _) as [m| |msg] eqn:Hfold; try by intros [=].
  unfold modify. intros [= <-]. exists m. split; [done|].
  cbn [files os with_allSnapshots with_snapshotsLoaded].
  pose proof (foldl_loadStep_sound (files (os w1)) paths (schedule paths) ∅ m)
    as Hsound.
  intros k s Hks. destruct (Hsound) with (i := k) (x := s) as [Hin (fm & Hfm & Hk)];
    try done.
  - intros p. by rewrite schedule_perm.
  - apply list_elem_of_filter in Hin as [Hsnap _].
    destruct (fileRecords_record _ _ _ _ _ Hfm Hk) as (_ & _ & ? & ? & _).
    split_and!; try done. by exists fm.
Qed.

End loading.


(** ** Files written and read back *)

Section files.
Context `{libs : Libs} `{runtime : Runtime}.

Lemma blocks_ext (m1 m2 : gmap string snapshot) (ids : list string) :
  (∀ k, option_Forall2 (λ s1 s2, snap_id s1 = snap_id s2
                                 ∧ snap_value s1 = snap_value s2)
                       (m1 !! k) (m2 !! k)) →
  blocks (omap (λ id, m1 !! id) ids) = blocks (omap (λ id, m2 !! id) ids).
Proof.
  intros H. induction ids as [|id ids IH]; [done|].
  cbn [omap list_omap]. destruct (H id) as [s1 s2 [Hid Hv]|]; [|done].
  by rewrite !blocks_cons, Hid, Hv, IH.
Qed.

(** What [encode] writes depends on the identifiers and the values only. *)
Lemma encode_ext (m1 m2 : gmap string snapshot) :
  (∀ k, option_Forall2 (λ s1 s2, snap_id s1 = snap_id s2
                                 ∧ snap_value s1 = snap_value s2)
                       (m1 !! k) (m2 !! k)) →
  (encode m1).1 = (encode m2).1.
Proof.
  intros H. rewrite !encode_blocks.
  rewrite (Strings_permutation (range m1).*1 (range m2).*1).
  - by rewrite (blocks_ext m1 m2).
  - apply NoDup_Permutation; try apply NoDup_fst_range.
    intros k. rewrite !list_elem_of_fmap. split.
    + intros ([k' s] & -> & Hs%elem_of_range). cbn.
      specialize (H k'). rewrite Hs in H.
      destruct (m2 !! k') as [s2|] eqn:Hs2; [|by inversion H].
      exists (k', s2). by rewrite elem_of_range.
    + intros ([k' s] & -> & Hs%elem_of_range). cbn.
      specialize (H k'). rewrite Hs in H.
      destruct (m1 !! k') as [s1|] eqn:Hs1; [|by inversion H].
      exists (k', s1). by rewrite elem_of_range.
Qed.

Lemma keyed_filter (P : string * snapshot → Prop) `{!∀ x, Decision (P x)}
    (reg : gmap string snapshot) :
  keyed reg → keyed (filter P reg).
Proof. intros Hk k s [Hs _]%map_lookup_filter_Some. by apply Hk. Qed.

(** What [save] has written is read back by the loader as the records it
    persisted, none of them evaluated. *)
Theorem saved_files_read_back (reg : gmap string snapshot) (w w' : World) :
  keyed reg →
  map_Forall (λ _ s, readable s ∧ snap_value s ≠ "") reg →
  save (Some reg) w = (Ret None, w') →
  ∀ p, p ≠ "" → owns reg p →
    fileRecords (files (os w')) p = Ret (unevaluated <$> persisted reg p).
Proof.
  intros Hk Hr Hsave p Hp Hown.
  destruct (save_result reg w Hk) as (err & w1 & Hsave' & _ & _ & _ & Hok).
  rewrite Hsave in Hsave'. injection Hsave' as <- <-.
  unfold fileRecords. rewrite (Hok eq_refl p Hp Hown).
  rewrite decode_encode.
  - f_equal. rewrite <-map_fmap_compose. apply map_fmap_ext.
    intros k s [Hs [Hpath Hrm]]%map_lookup_filter_Some. cbn in *.
    unfold unevaluated. by rewrite Hpath, Hrm.
  - by apply keyed_filter.
  - intros k s [Hs _]%map_lookup_filter_Some. by apply (Hr k s Hs).
  - intros k s [Hs _]%map_lookup_filter_Some _. by apply (Hr k s Hs).
Qed.

Lemma assertHTTP_strict_files (id body : string) (isJSON : bool)
    (w : World) (r : outcome unit) (w' : World) :
  shouldUpdate (args w) = false →
  assertHTTP id body isJSON w = (r, w') →
  files (os w') = files (os w).
Proof.
  intros Hupd. unfold assertHTTP, getConfig, mbind, M_bind, gets.
  destruct (getConfigResult w) as [c [e|]]; [by intros [= <- <-]|].
  destruct isJSON.
  - destruct (jsonBodyCleanup _ _) as [h [e|]]; [by intros [= <- <-]|].
    by apply createOrUpdateSnapshot_strict_files.
  - by apply createOrUpdateSnapshot_strict_files.
Qed.

(** Without the update flag no assertion of the package writes a file. *)
Theorem assertions_write_only_on_update (w : World) :
  shouldUpdate (args w) = false →
  (∀ id data r w', Assert id data w = (r, w') → files (os w') = files (os w))
  ∧ (∀ id readAll r w',
       AssertReader id readAll w = (r, w') → files (os w') = files (os w))
  ∧ (∀ id dumped contentType r w',
       AssertHTTPResponse id dumped contentType w = (r, w') →
       files (os w') = files (os w))
  ∧ (∀ id dumped contentType r w',
       AssertHTTPRequestOut id dumped contentType w = (r, w') →
       files (os w') = files (os w))
  ∧ (∀ id dumped contentType r w',
       AssertHTTPRequest id dumped contentType w = (r, w') →
       files (os w') = files (os w)).
Proof.
  intros Hupd. split_and!.
  - intros id data r w'. by apply createOrUpdateSnapshot_strict_files.
  - intros id [data [e|]] r w'; cbn; [by intros [= <- <-]|].
    by apply createOrUpdateSnapshot_strict_files.
  - intros id [body [e|]] ct r w'; cbn; [by intros [= <- <-]|].
    by apply assertHTTP_strict_files.
  - intros id [body [e|]] ct r w'; cbn; [by intros [= <- <-]|].
    by apply assertHTTP_strict_files.
  - intros id [body [e|]] ct r w'; cbn; [by intros [= <- <-]|].
    by apply assertHTTP_strict_files.
Qed.

Lemma persisted_alter (f : snapshot → snapshot) (i p : string)
    (m : gmap string snapshot) :
  (∀ s, snap_id (f s) = snap_id s ∧ snap_value (f s) = snap_value s
        ∧ snap_path (f s) = snap_path s ∧ shouldRemove (f s) = shouldRemove s) →
  ∀ k, option_Forall2 (λ s1 s2, snap_id s1 = snap_id s2
                                ∧ snap_value s1 = snap_value s2)
                      (persisted (alter f i m) p !! k) (persisted m p !! k).
Proof.
  intros Hf k. unfold persisted. rewrite !map_lookup_filter.
  destruct (decide (k = i)) as [->|Hne].
  - rewrite lookup_alter_eq. destruct (m !! i) as [s|]; cbn; [|constructor].
    destruct (Hf s) as (Hid & Hv & Hp & Hrm).
    rewrite !option_guard_decide. rewrite Hp, Hrm.
    destruct (decide _); constructor. done.
  - rewrite lookup_alter_ne by done. destruct (m !! k) as [s|]; cbn; [|constructor].
    rewrite !option_guard_decide. destruct (decide _); by constructor.
Qed.

(** In update mode the first assertion of an identifier stores the value
    as given, marks the record as evaluated, and leaves the snapshot file
    of the package holding the encoding of the records of that file. *)
Theorem first_assertion_persists
    (w w1 : World) (id data format : string) :
  shouldUpdate (args w) = true →
  registryKeyed w →
  (getSnapshot id w).1 = Ret None →
  createOrUpdateSnapshot id data format w = (Ret tt, w1) →
  ∃ (m : gmap string snapshot) (path : string),
    allSnapshots w1 = Some m
    ∧ m !! id = Some (mkSnapshot id data path true false)
    ∧ isSnapshot path = true
    ∧ files (os w1) !! path = Some (encode (persisted m path)).1.
Proof.
  intros Hupd Hkeyed Hget. unfold createOrUpdateSnapshot, mbind at 1, M_bind at 1.
  destruct (getSnapshot id w) as [o w0] eqn:Hg. cbn in Hget. subst o.
  pose proof (getSnapshot_frame args id _ _ _ Hg) as Ha.
  assert (registryKeyed w0) as Hk0.
  { revert Hg. unfold getSnapshot, mbind, M_bind.
    destruct (loadSnapshots w) as [[[e|]| |] w'] eqn:Hl; try by intros [=].
    unfold gets. intros [= _ <-]. by eapply loadSnapshots_keyed. }
  unfold mbind at 1, M_bind at 1, gets at 1. rewrite Ha, Hupd. cbn [negb].
  unfold mbind at 1, M_bind at 1, fmt_Printf at 1, modify at 1.
  set (w0' := with_stdout w0 _).
  unfold mbind at 1, M_bind at 1, createSnapshot.
  destruct (writeSnapshot id data false w0') as [[[p [e|]]| |] w2] eqn:Hwrite;
    try by intros [=].
  destruct (writeSnapshot_file id data false w0' w2 p Hk0 Hwrite)
    as (m & path & Hm & Hid & Hsnap & Hfile).
  apply writeSnapshot_spec in Hwrite as [-> _].
  unfold setEvaluated, modify. intros [= <-].
  cbn [allSnapshots with_allSnapshots os files]. rewrite Hm. cbn.
  eexists _, path. split; [done|]. split_and!.
  - by rewrite lookup_alter_eq, Hid.
  - done.
  - rewrite Hfile. f_equal. symmetry. apply encode_ext.
    by apply persisted_alter.
Qed.

End files.


(** ** Normal forms of HTTP dumps *)

Lemma HasPrefix_take (n : nat) (s sep : string) :
  strings.HasPrefix (strings.take n s) sep = true →
  strings.HasPrefix s sep = true.
Proof.
  intros [t Ht]%HasPrefix_spec. apply HasPrefix_spec.
  exists (t +:+ strings.drop n s).
  by rewrite str_app_assoc, <-Ht, str_take_drop.
Qed.

(** Nothing before the first occurrence of a separator holds it. *)
Lemma Index_take (s sep : string) (m : nat) :
  sep ≠ "" →
  strings.Index s sep = Some m →
  strings.Index (strings.take m s) sep = None.
Proof.
  intros Hsep. revert m. induction s as [|c s IH]; intros m.
  - rewrite Index_unfold. destruct (strings.HasPrefix "" sep) eqn:E; [|done].
    apply HasPrefix_spec in E as [t Ht]. by destruct sep.
  - rewrite Index_unfold.
    destruct (strings.HasPrefix (String c s) sep) eqn:E.
    + intros [= <-]. cbn [strings.take]. rewrite Index_unfold.
      destruct (strings.HasPrefix "" sep) eqn:E'; [|done].
      apply HasPrefix_spec in E' as [t Ht]. by destruct sep.
    + destruct (strings.Index s sep) as [m'|] eqn:Hs; [|done].
      intros [= <-]. cbn [strings.take]. rewrite Index_unfold, (IH m') by done.
      destruct (strings.HasPrefix (String c (strings.take m' s)) sep) eqn:E2;
        [|done].
      apply (HasPrefix_take (S m') (String c s)) in E2. congruence.
Qed.

Lemma Split_first_no_sep (s sep a : string) :
  sep ≠ "" →
  strings.Split s sep !! 0 = Some a → strings.Index a sep = None.
Proof.
  intros Hsep. unfold strings.Split.
  destruct (String.length s) as [|n] eqn:Hlen.
  - apply str_length_zero in Hlen as ->. intros [= <-].
    rewrite Index_unfold. destruct (strings.HasPrefix "" sep) eqn:E; [|done].
    apply HasPrefix_spec in E as [t Ht]. by destruct sep.
  - rewrite genSplit_more. destruct (strings.Index s sep) as [m|] eqn:Hs.
    + intros [= <-]. rewrite Nat.add_0_r. by apply Index_take.
    + by intros [= <-].
Qed.

(** ** Content-type classification *)

Lemma str_app_char_in (u k : string) (c : ascii) :
  c ∈ list_ascii_of_string (u +:+ String c k).
Proof. rewrite chars_app. apply elem_of_app. right. cbn. left. Qed.

(** A text that starts with [application/vnd.] and ends with [+json] has
    the two apart: neither is found inside the other. *)
Lemma vendor_shape (s : string) :
  strings.HasPrefix s "application/vnd." = true
  ∧ strings.HasSuffix s "+json" = true
  ↔ ∃ x, s = "application/vnd." +:+ x +:+ "+json".
Proof.
  rewrite HasPrefix_spec, HasSuffix_spec. split.
  - intros [[t ->] [u Hu]].
    apply str_app_eq_inv in Hu as [(k & Hp & Hs)|(k & -> & ->)];
      [|by exists k].
    destruct k as [|c k].
    + rewrite str_app_nil_l in Hs. subst t. by exists "".
    + rewrite str_app_cons in Hs. injection Hs as <- _.
      pose proof (str_app_char_in u k "+") as Hin. rewrite <-Hp in Hin.
      cbn in Hin. exfalso. revert Hin.
      rewrite !elem_of_cons, elem_of_nil. by intros [?|[?|[?|[?|[?|[?|[?|[?|[?|[?|[?|[?|[?|[?|[?|[?|?]]]]]]]]]]]]]]]].
  - intros [x ->]. split; [by eexists|].
    exists ("application/vnd." +:+ x). by rewrite str_app_assoc.
Qed.

(** The rule for a value without parameters: exactly [application/json]
    and the texts [application/vnd.] ... [+json] are JSON. *)
Lemma classification_rule (ct : string) :
  strings.Index ct ";" = None →
  contentTypeIsJSON ct = true
  ↔ ct = "application/json" ∨ ∃ x, ct = "application/vnd." +:+ x +:+ "+json".
Proof.
  intros Hno. unfold contentTypeIsJSON. rewrite Split_no_sep by done.
  change (default "" ([ct] !! 0)) with ct. rewrite <-vendor_shape.
  destruct (String.eqb ct "application/json") eqn:E.
  - apply String.eqb_eq in E. split; [by left|done].
  - apply String.eqb_neq in E. rewrite andb_true_iff. split; [by right|].
    by intros [?|?].
Qed.

(** The text before the first semicolon decides. *)
Lemma classification_first_part (s : string) (n : nat) :
  strings.Index s ";" = Some n →
  contentTypeIsJSON s = contentTypeIsJSON (strings.take n s).
Proof.
  intros Hs. unfold contentTypeIsJSON.
  rewrite (Split_no_sep (strings.take n s)) by by apply Index_take.
  unfold strings.Split. destruct (String.length s) as [|k] eqn:Hlen.
  { apply str_length_zero in Hlen as ->. by vm_compute in Hs. }
  rewrite genSplit_more, Hs, Nat.add_0_r.
  set (first := strings.take n s).
  change (default "" ([first] !! 0)) with first.
  by change (default "" ((first :: ?l) !! 0)) with first.
Qed.

(** C7: a Content-Type value without parameters is classified as JSON
    exactly when it is [application/json] or has the shape
    [application/vnd.*+json]: every vendor type of that shape is accepted,
    and nothing else is, so [text/plain] and [application/jsonish] are
    rejected. *)
Theorem contentTypeIsJSON_media_types (ct : string) :
  strings.Index ct ";" = None →
  (contentTypeIsJSON ct = true
   ↔ ct = "application/json"
     ∨ ∃ x, ct = "application/vnd." +:+ x +:+ "+json")
  ∧ (ct = "application/json" → contentTypeIsJSON ct = true)
  ∧ (∀ x, ct = "application/vnd." +:+ x +:+ "+json" →
          contentTypeIsJSON ct = true)
  ∧ (ct = "text/plain" ∨ ct = "application/jsonish" →
     contentTypeIsJSON ct = false).
Proof.
  intros Hno. pose proof (classification_rule ct Hno) as Hrule.
  split_and!; [done|..].
  - intros ->. apply Hrule. by left.
  - intros x ->. apply Hrule. right. by exists x.
  - by intros [->| ->].
Qed.

(** C8: media-type parameters are ignored.  A header value that holds a
    semicolon is classified as the text before its first semicolon is:
    it is JSON exactly when that text is [application/json] or has the
    shape [application/vnd.*+json]; so [application/json] followed by
    parameters is JSON although the whole value is not [application/json]. *)
Theorem contentTypeIsJSON_ignores_parameters (s : string) (n : nat) :
  strings.Index s ";" = Some n →
  contentTypeIsJSON s = contentTypeIsJSON (strings.take n s)
  ∧ (contentTypeIsJSON s = true
     ↔ strings.take n s = "application/json"
       ∨ ∃ x, strings.take n s = "application/vnd." +:+ x +:+ "+json")
  ∧ (strings.take n s = "application/json" →
     contentTypeIsJSON s = true ∧ s ≠ "application/json").
Proof.
  intros Hs. pose proof (classification_first_part s n Hs) as Hfirst.
  assert (strings.Index (strings.take n s) ";" = None) as Hno
    by by apply Index_take.
  pose proof (classification_rule _ Hno) as Hrule. rewrite <-Hfirst in Hrule.
  split_and!; [done..|].
  intros Hj. split; [apply Hrule; by left|].
  intros ->. by vm_compute in Hs.
Qed.

Section http.
Context `{libs : Libs} `{runtime : Runtime}.

(** assert_http.go: substituting the defaults into the header lines a
    second time changes nothing. *)
Theorem configCleanup_idempotent (c : option config) (h : httpRequest) :
  configCleanup c (configCleanup c h) = configCleanup c h.
Proof.
  destruct c as [c|]; [|done]. unfold configCleanup. cbn [header body].
  f_equal. rewrite <-list_fmap_compose. apply list_fmap_ext.
  intros i line _. unfold compose. cbv beta zeta.
  set (item0 := default "" (strings.Split line ":" !! 0)).
  destruct (Defaults c !! strings.TrimSpace item0) as [def|] eqn:Hdef.
  - assert (strings.Split (item0 +:+ ": " +:+ fmt_verb_s def) ":" !! 0
            = Some item0) as ->.
    { apply (Split_first_char ":" item0 (" " +:+ fmt_verb_s def)).
      unfold item0. destruct (strings.Split line ":" !! 0) as [a|] eqn:Ha.
      - by apply Split_first_no_sep in Ha.
      - done. }
    change (default "" (Some item0)) with item0. by rewrite Hdef.
  - fold item0. by rewrite Hdef.
Qed.

Lemma headerLines_not_blank (lines : list string) :
  Forall (λ l, strings.TrimSpace l ≠ "") (headerLines lines).
Proof.
  induction lines as [|l lines IH]; cbn [headerLines]; [constructor|].
  destruct (decide _); [constructor|]. by constructor.
Qed.

Lemma plainToInternalRequest_TrimSpace (requestDump : string) :
  plainToInternalRequest (strings.TrimSpace requestDump)
  = plainToInternalRequest requestDump.
Proof. unfold plainToInternalRequest. by rewrite TrimSpace_idemp. Qed.

(** assert_http.go: the internal form of a dump does not depend on the
    white space around the dump; its body is trimmed and none of its header
    lines is blank. *)
Theorem plainToInternalRequest_normal (requestDump : string) :
  plainToInternalRequest (strings.TrimSpace requestDump)
  = plainToInternalRequest requestDump
  ∧ strings.TrimSpace (body (plainToInternalRequest requestDump))
    = body (plainToInternalRequest requestDump)
  ∧ Forall (λ l, strings.TrimSpace l ≠ "")
           (header (plainToInternalRequest requestDump)).
Proof.
  unfold plainToInternalRequest. cbn [header body]. split_and!.
  - by rewrite TrimSpace_idemp.
  - apply TrimSpace_idemp.
  - apply headerLines_not_blank.
Qed.

(** A snapshot compared with itself, trimmed or not, gives the empty diff
    when [jsondiff] finds the cleaned body to match itself in full. *)
Lemma compareResultsHTTPRequestJSON_self
    (w : World) (c : option config) (value explanation : string) :
  getConfigResult w = (c, None) →
  (∀ text, nonEqual (DiffMain text text) = []) →
  (let r := (jsonBodyCleanup c (configCleanup c (plainToInternalRequest value))).1 in
   jsondiff_Compare (byteBody r) (byteBody r) = (FullMatch, explanation)) →
  compareResultsHTTPRequestJSON value (strings.TrimSpace value) w = (Ret "", w).
Proof.
  intros Hc Hdiff Hcmp.
  unfold compareResultsHTTPRequestJSON, getConfig, mbind, M_bind, gets.
  rewrite Hc, plainToInternalRequest_TrimSpace.
  cbv zeta in Hcmp. rewrite Hcmp, Hdiff. done.
Qed.

Lemma foldl_defaults_comm (l : list (string * jvalue)) (x : string * jvalue)
    (j : option (gmap string jvalue)) :
  x.1 ∉ l.*1 → isScalar x.2 = true → Forall (λ kv, isScalar kv.2 = true) l →
  foldl (λ j kv, updateKeyValuesInMap kv.1 kv.2 <$> j)
        (updateKeyValuesInMap x.1 x.2 <$> j) l
  = updateKeyValuesInMap x.1 x.2
      <$> foldl (λ j kv, updateKeyValuesInMap kv.1 kv.2 <$> j) j l.
Proof.
  revert j. induction l as [|y l IH]; intros j Hx Hsx Hl; [done|].
  cbn in Hx. apply not_elem_of_cons in Hx as [Hxy Hx].
  apply Forall_cons in Hl as [Hy Hl]. cbn [foldl]. rewrite <-IH by done.
  f_equal. rewrite <-!option_fmap_compose. apply option_fmap_ext. intros m. cbn.
  unfold updateKeyValuesInMap. by apply updateMap_commute.
Qed.

Lemma foldl_defaults_idemp (l : list (string * jvalue))
    (j : option (gmap string jvalue)) :
  NoDup l.*1 → Forall (λ kv, isScalar kv.2 = true) l →
  foldl (λ j kv, updateKeyValuesInMap kv.1 kv.2 <$> j)
        (foldl (λ j kv, updateKeyValuesInMap kv.1 kv.2 <$> j) j l) l
  = foldl (λ j kv, updateKeyValuesInMap kv.1 kv.2 <$> j) j l.
Proof.
  revert j. induction l as [|x l IH]; intros j Hnd Hl; [done|].
  cbn in Hnd. apply NoDup_cons in Hnd as [Hx Hnd].
  apply Forall_cons in Hl as [Hsx Hl]. cbn [foldl].
  rewrite (foldl_defaults_comm l x j) by done.
  rewrite <-option_fmap_compose.
  rewrite (option_fmap_ext _ (updateKeyValuesInMap x.1 x.2)).
  2:{ intros m. cbn. by apply updateMap_idemp. }
  rewrite <-foldl_defaults_comm by done. apply IH; done.
Qed.

(** assert_http.go: cleaning a cleaned body changes nothing, when every
    default is a scalar and the decoder reads the cleaned body back as the
    document that was encoded (the body of [h] as decoded, with the
    defaults substituted). *)
Theorem jsonBodyCleanup_idempotent (c : option config) (h h1 : httpRequest) :
  (∀ cfg k v, c = Some cfg → Defaults cfg !! k = Some v → isScalar v = true) →
  jsonBodyCleanup c h = (h1, None) →
  (strings.TrimSpace (body h) ≠ "" →
   json_Unmarshal (body h1)
   = (withDefaults c (json_Unmarshal (body h)).1, None)) →
  jsonBodyCleanup c h1 = (h1, None)
  ∧ (strings.TrimSpace (body h) ≠ "" →
     json_MarshalIndent (withDefaults c (json_Unmarshal (body h)).1)
     = (body h1, None)).
Proof.
  intros Hsc. unfold jsonBodyCleanup at 1.
  destruct (decide (strings.TrimSpace (body h) = "")) as [Hblank|Hbody].
  { intros [= <-] _. unfold jsonBodyCleanup. by rewrite decide_True. }
  destruct (json_Unmarshal (body h)) as [j [e|]]; [by intros [=]|].
  fold (withDefaults c j).
  destruct (json_MarshalIndent (withDefaults c j)) as [out [e|]] eqn:Hout;
    [by intros [=]|].
  intros [= <-] Hback. cbn [body header fst] in *. split; [|done].
  unfold jsonBodyCleanup. cbn [body header].
  destruct (decide _); [done|].
  rewrite (Hback Hbody). fold (withDefaults c (withDefaults c j)).
  assert (withDefaults c (withDefaults c j) = withDefaults c j) as ->;
    [|by rewrite Hout].
  unfold withDefaults. destruct c as [cfg|]; [|done].
  apply foldl_defaults_idemp.
  - rewrite range_perm. apply NoDup_fst_map_to_list.
  - apply Forall_forall. intros [k v] Hin. cbn.
    apply (Hsc cfg k v eq_refl).
    rewrite range_perm in Hin. by apply elem_of_map_to_list in Hin.
Qed.

End http.


(** ** Well-formed files and verdicts *)

Lemma Index_None_app_l (a b sep : string) :
  strings.Index (a +:+ b) sep = None → strings.Index a sep = None.
Proof.
  induction a as [|c a IH].
  - rewrite str_app_nil_l, (Index_unfold ""). intros Hb.
    destruct (strings.HasPrefix "" sep) eqn:E; [|done].
    apply HasPrefix_spec in E as [t Ht]. destruct sep; [|done].
    by destruct b.
  - rewrite str_app_cons, (Index_unfold (String c (a +:+ b))),
      (Index_unfold (String c a)).
    destruct (strings.HasPrefix (String c (a +:+ b)) sep) eqn:E; [done|].
    destruct (strings.HasPrefix (String c a) sep) eqn:E'.
    { apply HasPrefix_spec in E' as [t Ht].
      assert (strings.HasPrefix (String c (a +:+ b)) sep = true) as E2; [|congruence].
      apply HasPrefix_spec. exists (t +:+ b).
      by rewrite str_app_assoc, <-Ht, str_app_cons. }
    destruct (strings.Index (a +:+ b) sep) eqn:E2; [done|]. intros _.
    by rewrite IH.
Qed.

(** [decode] reads every block of a well-formed file, the last one
    included: the blank line after the last value is still there. *)
Lemma decode_wellformed (rs : list snapshot) :
  Forall readable rs →
  decode (blocks rs)
  = Ret (foldl (λ acc s, <[snap_id s := asDecoded s]> acc) ∅ rs, None).
Proof.
  intros Hrs. destruct rs as [|s rs _] using rev_ind; [done|].
  apply Forall_app in Hrs as [Hrs Hs%Forall_inv].
  rewrite blocks_app, blocks_cons.
  change (blocks []) with "". rewrite str_app_nil_r. unfold block.
  rewrite blocks_segments. unfold decode.
  change (snapshotSeparator +:+ ?t)
    with (foldr (λ seg rest, seg +:+ snapshotSeparator +:+ rest)
                (segmentOf s) ("" :: (segmentOf <$> rs))) at 1.
  rewrite Split_segments; [|done| |].
  2:{ constructor; [done|]. apply Forall_fmap. eapply Forall_impl; [exact Hrs|].
      intros s'. apply segmentOf_no_separator. }
  2:{ eapply Index_None_app_l. by apply segmentOf_no_separator. }
  cbn [app decodeLoop]. rewrite decide_True by done.
  rewrite <-fmap_snoc, decodeLoop_segments; [done|].
  apply Forall_app. split; [done|by constructor].
Qed.

Lemma asDecoded_idemp (s : snapshot) : asDecoded (asDecoded s) = asDecoded s.
Proof. done. Qed.

Lemma foldl_insert_asDecoded (rs : list snapshot) (acc : gmap string snapshot) :
  map_Forall (λ k s, asDecoded s = s ∧ snap_id s = k ∧ readable s) acc →
  Forall readable rs →
  map_Forall (λ k s, asDecoded s = s ∧ snap_id s = k ∧ readable s)
             (foldl (λ acc s, <[snap_id s := asDecoded s]> acc) acc rs).
Proof.
  revert acc. induction rs as [|r rs IH]; intros acc Hacc Hrs; [done|].
  apply Forall_cons in Hrs as [Hr Hrs]. cbn [foldl]. apply IH; [|done].
  apply map_Forall_insert_2; [|done]. done.
Qed.

Section wellformed.
Context `{runtime : Runtime}.

(** The round trip of a well-formed file: [decode] returns a record set,
    and when the record with the greatest identifier has a value that is
    not empty, encoding that set and decoding the bytes gives the same set
    again. *)
Theorem wellformed_file_roundtrip (rs : list snapshot) :
  Forall readable rs →
  ∃ m, decode (blocks rs) = Ret (m, None)
       ∧ ((∀ k s, m !! k = Some s →
                  (∀ k', is_Some (m !! k') → String.le k' k) →
                  snap_value s ≠ "") →
          decode (encode m).1 = Ret (m, None)).
Proof.
  intros Hrs. eexists. split; [by apply decode_wellformed|].
  intros Hlast.
  pose proof (foldl_insert_asDecoded rs ∅ (map_Forall_empty _) Hrs) as Hm.
  set (m := foldl _ _ rs) in *.
  rewrite decode_encode; [| |intros k s Hs; by apply (Hm k s Hs)|done].
  - do 2 f_equal. apply map_eq. intros k. rewrite lookup_fmap.
    destruct (m !! k) as [s|] eqn:Hs; [|done]. cbn. f_equal.
    by apply (Hm k s Hs).
  - intros k s Hs. by apply (Hm k s Hs).
Qed.

End wellformed.

Section verdict.
Context `{libs : Libs} `{runtime : Runtime}.



End verdict.

Section http_second.
Context `{libs : Libs} `{runtime : Runtime}.

(** For the HTTP/JSON format the assertion that created a snapshot passes
    when it is made again, whatever white space surrounds the dump: both
    texts are parsed before they are compared, and parsing trims.  The
    state is left as it was.  Every default must be a scalar, so that the
    two cleaned requests do not depend on the order in which either loop
    over the defaults visits them; the diff engine must find no difference
    between equal texts and [jsondiff] must find the cleaned body to match
    itself in full. *)
Theorem second_http_assertion_passes
    (w w1 : World) (id data explanation : string) (c : option config) :
  shouldUpdate (args w) = true →
  getConfigResult w = (c, None) →
  (∀ cfg k v, c = Some cfg → Defaults cfg !! k = Some v → isScalar v = true) →
  (getSnapshot id w).1 = Ret None →
  createOrUpdateSnapshot id data SnapshotHTTPRespJSON w = (Ret tt, w1) →
  (∀ text, nonEqual (DiffMain text text) = []) →
  (let r := (jsonBodyCleanup c (configCleanup c (plainToInternalRequest data))).1 in
   jsondiff_Compare (byteBody r) (byteBody r) = (FullMatch, explanation)) →
  createOrUpdateSnapshot id data SnapshotHTTPRespJSON w1 = (Ret tt, w1)
  ∧ ∀ (order : Runtime) (h : httpRequest),
      @jsonBodyCleanup libs order c h = jsonBodyCleanup c h.
Proof.
  intros Hupd Hcfg Hsc Hnone Hfirst Hdmp Hjson.
  split; [|intros order h; by apply jsonBodyCleanup_any_order].
  destruct (fresh_snapshot_state _ _ _ _ _ Hupd Hnone Hfirst)
    as (Hl1 & Ha1 & Hc1 & m & path & Hm1 & Hid1).
  rewrite Hcfg in Hc1.
  unfold createOrUpdateSnapshot.
  unfold mbind at 1, M_bind at 1, getSnapshot at 1.
  unfold mbind at 1, M_bind at 1. rewrite (loadSnapshots_done w1 Hl1).
  unfold gets at 1. rewrite Hm1. cbn [mbind option_bind]. rewrite Hid1.
  unfold mbind at 1, M_bind at 1, setEvaluated at 1, modify at 1.
  assert (with_allSnapshots w1
            (alter (λ s, mkSnapshot (snap_id s) (snap_value s) (snap_path s)
                                    true (shouldRemove s)) id <$> allSnapshots w1)
          = w1) as ->.
  { rewrite Hm1. cbn. rewrite alter_id.
    - rewrite <-Hm1. unfold with_allSnapshots. apply World_eta.
    - intros s Hs. rewrite Hid1 in Hs. by injection Hs as <-. }
  rewrite decide_True by done. cbn [snap_value].
  unfold mbind at 1, M_bind at 1.
  rewrite (compareResultsHTTPRequestJSON_self w1 c data explanation) by done.
  by rewrite decide_False by (by intros []).
Qed.

End http_second.

(** ** The loader finds every record *)

Lemma foldl_loadStep_complete (fs : gmap string string) (l : list string)
    (acc m : gmap string snapshot) :
  foldl (loadStep fs) (Ret acc) l = Ret m →
  (∀ k, is_Some (acc !! k) → is_Some (m !! k))
  ∧ ∀ p fm k, p ∈ l → fileRecords fs p = Ret fm →
              is_Some (fm !! k) → is_Some (m !! k).
Proof.
  revert acc. induction l as [|p l IH]; intros acc.
  - intros [= <-]. split; [done|]. by intros p fm k ?%elem_of_nil.
  - cbn [foldl loadStep].
    destruct (fileRecords fs p) as [fm0| |msg] eqn:Hp;
      [|by rewrite loadStep_stuck..].
    intros Hfold. destruct (IH _ Hfold) as [Hacc Hl]. split.
    + intros k Hk. apply Hacc. rewrite lookup_union. 
      destruct (fm0 !! k), Hk as [x ->]; by eexists.
    + intros p' fm k [->|Hin]%elem_of_cons Hfm Hk; [|by eapply Hl].
      apply Hacc. rewrite Hp in Hfm. injection Hfm as ->.
      rewrite lookup_union. destruct Hk as [x ->]. destruct (acc !! k); by eexists.
Qed.

Lemma childName_Join (dir p name : string) :
  childName dir p = Some name → filepath.Join dir name = p.
Proof.
  unfold childName. case_bool_decide as H; [|done].
  intros [= <-]. by destruct H.
Qed.

Section complete.
Context `{runtime : Runtime}.

(** Every record of every snapshot file in the snapshot directory is
    represented in a registry that has just been loaded: the registry has
    a record under each identifier that [decode] finds in such a file. *)
Theorem loadSnapshots_complete
    (w w' : World) (d p name k : string) (fm : gmap string snapshot) :
  snapshotsLoaded w = false →
  loadSnapshots w = (Ret None, w') →
  cwd (os w) = Some d →
  filepath.Join d (SnapshotsDir w) ≠ "" →
  childName (filepath.Join d (SnapshotsDir w)) p = Some name →
  isSnapshot p = true →
  fileRecords (files (os w)) p = Ret fm →
  is_Some (fm !! k) →
  ∃ s, allSnapshots w' ≫= (.!! k) = Some s.
Proof.
  intros Hl Hload Hcwd Hdir Hchild Hsnap Hfm Hk.
  assert (is_Some (files (os w) !! p)) as Hfile.
  { revert Hfm. unfold fileRecords. destruct (files (os w) !! p); [done|].
    intros [= <-]. rewrite lookup_empty in Hk. by destruct Hk. }
  revert Hload. unfold loadSnapshots. rewrite Hl.
  destruct (reloadSnapshots w) as [r w0] eqn:Hre. intros [= -> <-].
  revert Hre. unfold reloadSnapshots, mbind at 1, M_bind at 1.
  destruct (findOrCreateSnapshotDirectory w) as [[[dir [e1|]]| |] w1] eqn:Hfind;
    try by intros [=].
  assert (dir = filepath.Join d (SnapshotsDir w)
          ∧ files (os w1) = files (os w)) as (-> & Hfs).
  { revert Hfind.
    unfold findOrCreateSnapshotDirectory, getTestingPath, os_Getwd,
      os_Stat_IsNotExist, os_Mkdir, mbind, M_bind, gets, mret, M_ret.
    rewrite Hcwd. cbn. case_bool_decide.
    - case_bool_decide; [done|]. by intros [= <- <-].
    - by intros [= <- <-]. }
  unfold mbind at 1, M_bind at 1, ioutil_ReadDir at 1, gets at 1.
  destruct (bool_decide _); [|by intros [=]].
  set (names := sort.Strings _). set (paths := filter _ _).
  unfold parseSnapshotsFromPaths, mbind, M_bind. rewrite parseAll_run.
  destruct (foldl _ _ _) as [m| |msg] eqn:Hfold; try by intros [=].
  unfold modify. intros [= <-]. cbn.
  destruct (foldl_loadStep_complete _ _ _ _ Hfold) as [_ Hcomplete].
  destruct (Hcomplete p fm k) as [s Hs]; [| |done|by exists s].
  - rewrite schedule_perm. apply list_elem_of_filter. split; [done|].
    apply list_elem_of_fmap. exists name. split.
    + symmetry. by apply childName_Join.
    + unfold names. rewrite Strings_perm. apply list_elem_of_omap.
      exists p. split; [|done].
      apply elem_of_elements, elem_of_union. left.
      rewrite Hfs. by apply elem_of_dom.
  - by rewrite Hfs.
Qed.

End complete.

(** ** The update of a record *)

Section update.
Context `{libs : Libs} `{runtime : Runtime}.


End update.

(* ===================================================================== *)
(** * The properties on concrete inputs *)
(* ===================================================================== *)

#[local] Existing Instance simpleLibs.
#[local] Existing Instance orderedRuntime.

Lemma simpleDiffMain_equal (text : string) :
  nonEqual (simpleDiffMain text text) = [].
Proof.
  unfold simpleDiffMain. rewrite decide_True by done.
  by destruct (decide (text = "")).
Qed.

Lemma simpleDiffMain_differs (a b : string) :
  a ≠ b →
  nonEqual (simpleDiffMain a b) ≠ []
  ∧ simplePrettyText (simpleDiffMain a b) ≠ "".
Proof.
  intros Hab. unfold simpleDiffMain. rewrite decide_False by done.
  destruct (decide (a = "")) as [->|Ha], (decide (b = "")) as [->|Hb];
    [done|..]; by vm_compute.
Qed.

(** C1 on two copies of a request without a body. *)
Lemma compareResultsHTTPRequestJSON_empty_bodies_witness :
  compareResultsHTTPRequestJSON bodylessRequest bodylessRequest freshWorld
  = (Ret LF, freshWorld)
  ∧ LF ≠ "".
Proof.
  apply (compareResultsHTTPRequestJSON_empty_bodies
           freshWorld None bodylessRequest bodylessRequest
           "both arguments are invalid json").
  - reflexivity.
  - by vm_compute.
  - by vm_compute.
  - reflexivity.
  - apply simpleDiffMain_equal.
  - reflexivity.
Defined.

(** The replacement of scalars on a document with the key at the root,
    inside an array of objects, and beside other members. *)
Lemma updateKeyValuesInMap_scalars_witness :
  jget [Key "b"; Idx 0; Key "k"]
       (JObject (updateKeyValuesInMap "k" (JString "v") docMixed))
  = Some (JString "v")
  ∧ jget [Key "b"; Idx 0; Key "c"]
         (JObject (updateKeyValuesInMap "k" (JString "v") docMixed))
    = Some (JString "x").
Proof.
  split.
  - refine (proj1 (updateKeyValuesInMap_scalars
                     "k" (JString "v") docMixed [Key "b"; Idx 0] JNull) _ _ _).
    + reflexivity.
    + by vm_compute.
    + reflexivity.
  - refine (proj2 (updateKeyValuesInMap_scalars
                     "k" (JString "v") docMixed [Key "b"; Idx 0; Key "c"]
                     (JString "x")) _ _ _).
    + by vm_compute.
    + reflexivity.
    + by intros [=].
Defined.

(** C2 on a document with an object under the key, and on one with the
    key inside an array nested in an array. *)
Lemma updateKeyValuesInMap_misses_occurrences_witness :
  jget [Key "k"] (JObject (updateKeyValuesInMap "k" (JString "v") docObjectValue))
    = Some (JObject {[ "a" := JNull ]})
  ∧ jget [Key "a"; Idx 0; Idx 0; Key "k"]
         (JObject (updateKeyValuesInMap "k" (JString "v") docNestedArray))
    = Some JNull.
Proof.
  split.
  - destruct (updateKeyValuesInMap_misses_occurrences
                "k" (JString "v") docObjectValue []) as (H & _ & _); [done|].
    cbn [app] in H. rewrite (H {[ "a" := JNull ]}) by by vm_compute.
    by vm_compute.
  - destruct (updateKeyValuesInMap_misses_occurrences
                "k" (JString "v") docNestedArray []) as (_ & _ & H); [done|].
    apply (H "a" 0 (JArray [JObject {[ "k" := JNull ]}]) [Idx 0; Key "k"]);
      [by vm_compute|done|by vm_compute].
Defined.

(** C3 on the value [hello] followed by a newline. *)
Lemma second_call_rewrites_snapshot_witness :
  let data := "hello" +:+ LF in
  let w1 := (createOrUpdateSnapshot "greet" data SnapshotGeneric freshWorld).2 in
  (∃ diff, diff ≠ ""
     ∧ compareResults "greet" data (strings.TrimSpace data) w1 = (Ret diff, w1))
  ∧ ∃ r w2,
      createOrUpdateSnapshot "greet" data SnapshotGeneric w1 = (r, w2)
      ∧ stdout w2
        = stdout w1 ++ ["Updating snapshot `" +:+ "greet" +:+ "`" +:+ LF].
Proof.
  apply (second_call_rewrites_snapshot
           freshWorld _ "greet" ("hello" +:+ LF) SnapshotGeneric None).
  - reflexivity.
  - reflexivity.
  - by vm_compute.
  - by vm_compute.
  - by vm_compute.
  - apply simpleDiffMain_differs.
  - intros a b Hab. cbn. rewrite decide_False by done. by vm_compute.
Defined.

(** C5 on a registry with three records that were never evaluated. *)
Lemma CleanupOrFail_strict_witness :
  ∃ w',
    CleanupOrFail strictWorld
    = (Ret (if decide (unusedCount strictWorld = 0) then None
            else Some (pretty (unusedCount strictWorld) +:+ " unused snapshots")),
       w')
    ∧ with_stderr w' (stderr strictWorld) = strictWorld
    ∧ (unusedCount strictWorld ≠ 0
       ↔ ∃ k s, allSnapshots strictWorld ≫= (.!! k) = Some s
                ∧ evaluated s = false).
Proof.
  apply (proj2 (CleanupOrFail_strict strictWorld)); reflexivity.
Defined.

Lemma keyed_exampleRegistry : keyed exampleRegistry.
Proof.
  unfold keyed, exampleRegistry.
  repeat (apply map_Forall_insert_2; [done|]). apply map_Forall_empty.
Qed.

(** C6 on a registry with two files, a record marked for removal and a
    record without a path. *)
Lemma save_persists_witness :
  ∃ (err : option error) (w' : World),
    save (Some exampleRegistry) strictWorld = (Ret err, w')
    ∧ with_os w' (os strictWorld) = strictWorld
    ∧ cwd (os w') = cwd (os strictWorld)
    ∧ dirs (os w') = dirs (os strictWorld)
    ∧ denied (os w') = denied (os strictWorld)
    ∧ (∀ p, files (os w') !! p = files (os strictWorld) !! p
            ∨ (p ≠ "" ∧ owns exampleRegistry p
                 ∧ files (os w') !! p
                   = Some (encode (persisted exampleRegistry p)).1))
    ∧ (err = None → ∀ p, p ≠ "" → owns exampleRegistry p →
         files (os w') !! p = Some (encode (persisted exampleRegistry p)).1)
    ∧ ((∀ p, owns exampleRegistry p → p ≠ "" →
          (p ∉ denied (os strictWorld)) ∧ (p ∉ dirs (os strictWorld))) →
         err = None).
Proof. apply (save_persists exampleRegistry strictWorld keyed_exampleRegistry). Defined.

(** C7 on the four values of its examples. *)
Lemma contentTypeIsJSON_media_types_witness :
  contentTypeIsJSON "application/json" = true
  ∧ contentTypeIsJSON "application/vnd.acme.v1+json" = true
  ∧ contentTypeIsJSON "text/plain" = false
  ∧ contentTypeIsJSON "application/jsonish" = false.
Proof.
  split_and!.
  - destruct (contentTypeIsJSON_media_types "application/json")
      as (_ & H & _); [by vm_compute|]. by apply H.
  - destruct (contentTypeIsJSON_media_types "application/vnd.acme.v1+json")
      as (_ & _ & H & _); [by vm_compute|]. by apply (H "acme.v1").
  - destruct (contentTypeIsJSON_media_types "text/plain")
      as (_ & _ & _ & H); [by vm_compute|]. apply H. by left.
  - destruct (contentTypeIsJSON_media_types "application/jsonish")
      as (_ & _ & _ & H); [by vm_compute|]. apply H. by right.
Defined.

(** C8 on [application/json] with a character set. *)
Lemma contentTypeIsJSON_ignores_parameters_witness :
  strings.Index "application/json; charset=utf-8" ";" = Some 16
  ∧ contentTypeIsJSON "application/json; charset=utf-8" = true.
Proof.
  split; [by vm_compute|].
  destruct (contentTypeIsJSON_ignores_parameters
              "application/json; charset=utf-8" 16) as (_ & _ & H);
    [by vm_compute|].
  destruct H as [H _]; [by vm_compute|done].
Defined.

(** C9 on the file [encode] writes for one record with an empty value. *)
Lemma decode_unterminated_delimiter_panics_witness :
  decode "/* snapshot: a */" = Panic "index out of range [1] with length 1".
Proof.
  apply (decode_unterminated_delimiter_panics "a */");
    [done|by vm_compute|by vm_compute].
Defined.

(** C10 on a process whose working directory cannot be determined: the
    first load fails, and the lookups after it find nothing. *)
Lemma loadSnapshots_once_witness :
  let w' := with_snapshotsLoaded lostWorld true in
  allSnapshots w' = allSnapshots lostWorld
  ∧ (allSnapshots lostWorld = None →
     ∀ id, getSnapshot id w' = (Ret None, w')).
Proof.
  apply (proj2 (proj2 (loadSnapshots_once lostWorld))
           errUnableToLocateTestPath); reflexivity.
Defined.

(** The second assertion of the value [hello] passes. *)
Lemma second_call_passes_when_trimmed_witness :
  let w1 := (createOrUpdateSnapshot "greet" "hello" SnapshotGeneric freshWorld).2 in
  createOrUpdateSnapshot "greet" "hello" SnapshotGeneric w1 = (Ret tt, w1).
Proof.
  apply (second_call_passes_when_trimmed
           freshWorld _ "greet" "hello" SnapshotGeneric None).
  - reflexivity.
  - reflexivity.
  - by vm_compute.
  - by vm_compute.
  - by vm_compute.
  - apply simpleDiffMain_equal.
  - intros a. cbn. by rewrite decide_True.
Defined.

(** The registry after a first assertion is keyed. *)
Lemma createOrUpdateSnapshot_keeps_registry_keyed_witness :
  registryKeyed
    (createOrUpdateSnapshot "greet" "hello" SnapshotGeneric freshWorld).2.
Proof.
  eapply (createOrUpdateSnapshot_keeps_registry_keyed
            "greet" "hello" SnapshotGeneric freshWorld).
  - by intros m [=].
  - apply surjective_pairing.
Defined.

(** ** The scenarios, run *)

Example save_exampleRegistry_files :
  files (os (save (Some exampleRegistry) strictWorld).2)
  = {[ "/p/x.snapshot" := "/* snapshot: a */" +:+ LF +:+ "one";
       "/p/y.snapshot" := "/* snapshot: d */" +:+ LF +:+ "four" ]}.
Proof. by vm_compute. Qed.

Example CleanupOrFail_exampleRegistry :
  (CleanupOrFail strictWorld).1 = Ret (Some "3 unused snapshots").
Proof. by vm_compute. Qed.

Example second_assert_of_bodyless_request :
  stdout ((assertHTTP "r" bodylessRequest true;;
           assertHTTP "r" bodylessRequest true) freshWorld).2
  = ["Creating snapshot `r`" +:+ LF; "Updating snapshot `r`" +:+ LF].
Proof. by vm_compute. Qed.

Example written_file_cannot_be_loaded :
  ((createOrUpdateSnapshot "a" "" SnapshotGeneric;;
    modify (λ w, with_snapshotsLoaded w false);;
    loadSnapshots) freshWorld).1
  = Panic "index out of range [1] with length 1".
Proof. by vm_compute. Qed.

(** ** The further properties on concrete inputs *)

Lemma exampleRegistry_readable :
  map_Forall (λ _ s, readable s ∧ snap_value s ≠ "") exampleRegistry.
Proof.
  unfold exampleRegistry.
  repeat (apply map_Forall_insert_2; [by vm_compute|]). apply map_Forall_empty.
Qed.

(** The round trip on [exampleRegistry]. *)
Lemma decode_encode_roundtrip_witness :
  decode (encode exampleRegistry).1 = Ret (asDecoded <$> exampleRegistry, None).
Proof.
  apply (decode_encode_roundtrip exampleRegistry).
  - apply keyed_exampleRegistry.
  - intros k s Hs. by destruct (exampleRegistry_readable k s Hs).
  - intros k s Hs _. by destruct (exampleRegistry_readable k s Hs).
Defined.

(** The record of a file with one block and an empty value. *)
Lemma decode_records_as_read_witness :
  map_Forall asRead
    ({[ "a" := mkSnapshot "a" "" "" false false ]} : gmap string snapshot)
  ∧ (None : option error) = None.
Proof. apply (decode_records_as_read emptyValueFile). by vm_compute. Defined.

(** Loading the two files of [diskWorld]. *)
Lemma loadSnapshots_sound_witness :
  let w' := (loadSnapshots diskWorld).2 in
  ∃ m, allSnapshots w' = Some m
       ∧ map_Forall
           (λ k s, isSnapshot (snap_path s) = true
                   ∧ evaluated s = false ∧ shouldRemove s = false
                   ∧ ∃ fm, fileRecords (files (os w')) (snap_path s) = Ret fm
                           ∧ fm !! k = Some s) m.
Proof.
  apply (loadSnapshots_sound diskWorld).
  - reflexivity.
  - by vm_compute.
Defined.

Lemma diskWorld_packageFile :
  fileRecords (files (os diskWorld)) packageFile
  = Ret {[ "a" := mkSnapshot "a" "one" packageFile false false;
           "b" := mkSnapshot "b" "two" packageFile false false ]}.
Proof. by vm_compute. Qed.

Lemma diskWorld_otherFile :
  fileRecords (files (os diskWorld)) otherFile
  = Ret {[ "c" := mkSnapshot "c" "three" otherFile false false ]}.
Proof. by vm_compute. Qed.

(** The two files of [diskWorld], parsed in either order. *)
Lemma parseSnapshotsFromPaths_schedule_independent_witness :
  @parseSnapshotsFromPaths orderedRuntime [packageFile; otherFile] diskWorld
  = @parseSnapshotsFromPaths reversedRuntime [packageFile; otherFile] diskWorld.
Proof.
  apply (parseSnapshotsFromPaths_schedule_independent
           orderedRuntime reversedRuntime [packageFile; otherFile] diskWorld).
  assert (({[ "a" := mkSnapshot "a" "one" packageFile false false;
              "b" := mkSnapshot "b" "two" packageFile false false ]}
             : gmap string snapshot)
          ##ₘ {[ "c" := mkSnapshot "c" "three" otherFile false false ]}) as Hd.
  { apply map_disjoint_singleton_r. by vm_compute. }
  intros p1 p2 m1 m2 Hp1 Hp2 Hne H1 H2.
  apply elem_of_cons in Hp1 as [->|Hp1], Hp2 as [->|Hp2]; try done;
    repeat match goal with
           | H : _ ∈ [_] |- _ => apply list_elem_of_singleton in H as ->
           end; try done;
    rewrite ?diskWorld_packageFile, ?diskWorld_otherFile in H1, H2;
    injection H1 as <-; injection H2 as <-; [exact Hd|symmetry; exact Hd].
Defined.

(** [filepath.Clean] and [filepath.Join] on paths with repeated and
    trailing separators, [.] and [..] elements. *)
Example Clean_examples :
  filepath.Clean <$> [""; "abc/"; "abc//def//ghi"; "/./abc/def"; "abc/def/../..";
                      "/abc/def/../../.."; "abc/def/../../../ghi/jkl/../../../mno";
                      "/../abc"; "abc/../../././../def"]
  = ["."; "abc"; "abc/def/ghi"; "/abc/def"; ".";
     "/"; "../../mno"; "/abc"; "../../def"].
Proof. by vm_compute. Qed.

Example Join_examples :
  filepath.Join "/home/u/pkg" "snaps/" = "/home/u/pkg/snaps"
  ∧ filepath.Join "/" "__snapshots__" = "/__snapshots__"
  ∧ filepath.Join "" "" = ""
  ∧ filepath.Join "a" "" = "a"
  ∧ filepath.Join "" "../b/" = "../b"
  ∧ filepath.Join "/home/u/pkg/snaps" "pkg.snapshot"
    = "/home/u/pkg/snaps/pkg.snapshot".
Proof. by vm_compute. Qed.


(** The comparison of a JSON response with a body-less request. *)
Lemma compareResultsHTTPRequestJSON_empty_diff_witness :
  let existingR :=
    (jsonBodyCleanup None (configCleanup None
                             (plainToInternalRequest jsonResponse))).1 in
  let newR :=
    (jsonBodyCleanup None (configCleanup None
                             (plainToInternalRequest bodylessRequest))).1 in
  let verdict := (jsondiff_Compare (byteBody existingR) (byteBody newR)).1 in
  let headerDiffs := DiffMain (headerDump existingR) (headerDump newR) in
  ∃ diff,
    compareResultsHTTPRequestJSON jsonResponse bodylessRequest freshWorld
    = (Ret diff, freshWorld)
    ∧ (diff = "" → verdict = FullMatch)
    ∧ (verdict = FullMatch →
       diff = if decide (nonEqual headerDiffs = []) then ""
              else DiffPrettyText headerDiffs).
Proof.
  apply (compareResultsHTTPRequestJSON_empty_diff
           freshWorld None jsonResponse bodylessRequest).
  reflexivity.
Defined.

(** The first write of a fresh process. *)
Lemma writeSnapshot_persists_witness :
  let w' := (writeSnapshot "greet" "hello" false freshWorld).2 in
  let path := "/home/u/pkg/__snapshots__/pkg.snapshot" in
  allSnapshots w' = Some {[ "greet" := mkSnapshot "greet" "hello" path false false ]}
  ∧ ∃ (m : gmap string snapshot) (d : string),
      let path := filepath.Join (filepath.Join d (SnapshotsDir freshWorld))
                                (filepath.Base d +:+ snapshotExt) in
      cwd (os freshWorld) = Some d
      ∧ allSnapshots w' = Some m
      ∧ m !! "greet" = Some (mkSnapshot "greet" "hello" path false false)
      ∧ isSnapshot path = true
      ∧ files (os w') !! path = Some (encode (persisted m path)).1.
Proof.
  split; [by vm_compute|].
  apply (writeSnapshot_persists "greet" "hello" false freshWorld _ (Some "greet")).
  - by intros m [=].
  - by vm_compute.
Defined.

(** The file of [a] and [b] after [exampleRegistry] was saved. *)
Lemma saved_files_read_back_witness :
  let w' := (save (Some exampleRegistry) strictWorld).2 in
  fileRecords (files (os w')) "/p/x.snapshot"
  = Ret (unevaluated <$> persisted exampleRegistry "/p/x.snapshot").
Proof.
  apply (saved_files_read_back exampleRegistry strictWorld).
  - apply keyed_exampleRegistry.
  - apply exampleRegistry_readable.
  - by vm_compute.
  - done.
  - exists "a", (mkSnapshot "a" "one" "/p/x.snapshot" true false). by vm_compute.
Defined.

(** [Cleanup] of [exampleRegistry] under the update flag. *)
Lemma Cleanup_prunes_witness :
  let w' := (Cleanup updateWorld).2 in
  allSnapshots w' = Some (pruned (args updateWorld) <$> exampleRegistry)
  ∧ (∀ p, p ≠ "" → owns exampleRegistry p →
       files (os w') !! p
       = Some (encode (persisted (pruned (args updateWorld) <$> exampleRegistry)
                                 p)).1)
  ∧ (shouldUpdate (args updateWorld) = true →
     singleRun (args updateWorld) = false →
     ∀ p, persisted (pruned (args updateWorld) <$> exampleRegistry) p
          = filter (λ kv : string * snapshot,
                      snap_path kv.2 = p ∧ evaluated kv.2 = true
                      ∧ shouldRemove kv.2 = false) exampleRegistry).
Proof.
  apply (Cleanup_prunes updateWorld).
  - reflexivity.
  - apply keyed_exampleRegistry.
  - by vm_compute.
Defined.

(** No assertion writes a file in [strictWorld]. *)
Lemma assertions_write_only_on_update_witness :
  (∀ id data r w', Assert id data strictWorld = (r, w') →
     files (os w') = files (os strictWorld))
  ∧ (∀ id readAll r w', AssertReader id readAll strictWorld = (r, w') →
       files (os w') = files (os strictWorld))
  ∧ (∀ id dumped contentType r w',
       AssertHTTPResponse id dumped contentType strictWorld = (r, w') →
       files (os w') = files (os strictWorld))
  ∧ (∀ id dumped contentType r w',
       AssertHTTPRequestOut id dumped contentType strictWorld = (r, w') →
       files (os w') = files (os strictWorld))
  ∧ (∀ id dumped contentType r w',
       AssertHTTPRequest id dumped contentType strictWorld = (r, w') →
       files (os w') = files (os strictWorld)).
Proof. apply (assertions_write_only_on_update strictWorld). reflexivity. Defined.

(** The first assertion of a fresh process in update mode. *)
Lemma first_assertion_persists_witness :
  let w1 := (createOrUpdateSnapshot "greet" "hello" SnapshotGeneric freshWorld).2 in
  ∃ (m : gmap string snapshot) (path : string),
    allSnapshots w1 = Some m
    ∧ m !! "greet" = Some (mkSnapshot "greet" "hello" path true false)
    ∧ isSnapshot path = true
    ∧ files (os w1) !! path = Some (encode (persisted m path)).1.
Proof.
  apply (first_assertion_persists freshWorld _ "greet" "hello" SnapshotGeneric).
  - reflexivity.
  - by intros m [=].
  - by vm_compute.
  - by vm_compute.
Defined.

(** Two substitutions in [docMixed]. *)
Lemma updateKeyValuesInMap_commute_idempotent_witness :
  ("k" ≠ "c" →
   updateKeyValuesInMap "k" (JString "v")
     (updateKeyValuesInMap "c" JNull docMixed)
   = updateKeyValuesInMap "c" JNull
       (updateKeyValuesInMap "k" (JString "v") docMixed))
  ∧ updateKeyValuesInMap "k" (JString "v")
      (updateKeyValuesInMap "k" (JString "v") docMixed)
    = updateKeyValuesInMap "k" (JString "v") docMixed.
Proof.
  apply (updateKeyValuesInMap_commute_idempotent
           "k" "c" (JString "v") JNull docMixed); reflexivity.
Defined.

Lemma exampleConfig_scalar (cfg : config) (k : string) (v : jvalue) :
  Some exampleConfig = Some cfg → Defaults cfg !! k = Some v →
  isScalar v = true.
Proof.
  intros [= <-]. revert k v.
  change (map_Forall (λ _ v, isScalar v = true) (Defaults exampleConfig)).
  unfold exampleConfig. cbn [Defaults].
  repeat (apply map_Forall_insert_2; [done|]). apply map_Forall_empty.
Qed.

(** The defaults of [exampleConfig], visited in either order. *)
Lemma jsonBodyCleanup_order_independent_witness :
  @jsonBodyCleanup emptyObjectLibs orderedRuntime (Some exampleConfig)
    (plainToInternalRequest jsonResponse)
  = @jsonBodyCleanup emptyObjectLibs reversedRuntime (Some exampleConfig)
      (plainToInternalRequest jsonResponse).
Proof.
  apply (jsonBodyCleanup_order_independent
           emptyObjectLibs orderedRuntime reversedRuntime (Some exampleConfig)).
  apply exampleConfig_scalar.
Defined.

(** The body of [jsonResponseWithId], cleaned twice: the first cleaning
    replaces the value of [id] and lays the body out anew, the second
    changes nothing. *)
Lemma jsonBodyCleanup_idempotent_witness :
  let h := plainToInternalRequest jsonResponseWithId in
  let h1 := (@jsonBodyCleanup flatLibs orderedRuntime (Some exampleConfig) h).1 in
  h1 ≠ h
  ∧ @jsonBodyCleanup flatLibs orderedRuntime (Some exampleConfig) h1 = (h1, None).
Proof.
  intros h h1. split; [by vm_compute|].
  apply (@jsonBodyCleanup_idempotent flatLibs orderedRuntime
           (Some exampleConfig) h h1).
  - apply exampleConfig_scalar.
  - by vm_compute.
  - intros _. by vm_compute.
Defined.

Lemma exampleRecords_readable : Forall readable exampleRecords.
Proof. unfold exampleRecords. repeat (constructor; [by vm_compute|]). constructor. Qed.

(** The round trip of a file of three blocks. *)
Lemma wellformed_file_roundtrip_witness :
  ∃ m, decode (blocks exampleRecords) = Ret (m, None)
       ∧ ((∀ k s, m !! k = Some s →
                  (∀ k', is_Some (m !! k') → String.le k' k) →
                  snap_value s ≠ "") →
          decode (encode m).1 = Ret (m, None)).
Proof.
  apply (wellformed_file_roundtrip exampleRecords).
  apply exampleRecords_readable.
Defined.



(** The second assertion of a JSON response, under a configuration with
    defaults and a codec that decodes the body. *)
Lemma second_http_assertion_passes_witness :
  let w1 := (@createOrUpdateSnapshot flatLibs orderedRuntime
               "r" jsonResponseWithId SnapshotHTTPRespJSON configuredWorld).2 in
  @createOrUpdateSnapshot flatLibs orderedRuntime
    "r" jsonResponseWithId SnapshotHTTPRespJSON w1 = (Ret tt, w1).
Proof.
  apply (@second_http_assertion_passes flatLibs orderedRuntime
           configuredWorld _ "r" jsonResponseWithId "" (Some exampleConfig)).
  - reflexivity.
  - reflexivity.
  - apply exampleConfig_scalar.
  - by vm_compute.
  - by vm_compute.
  - apply simpleDiffMain_equal.
  - by vm_compute.
Defined.

(** The record [a] of the package file of [diskWorld] is loaded. *)
Lemma loadSnapshots_complete_witness :
  ∃ s, allSnapshots (loadSnapshots diskWorld).2 ≫= (.!! "a") = Some s.
Proof.
  eapply (loadSnapshots_complete diskWorld _ "/home/u/pkg" packageFile
            "pkg.snapshot" "a").
  - reflexivity.
  - by vm_compute.
  - reflexivity.
  - done.
  - by vm_compute.
  - by vm_compute.
  - apply diskWorld_packageFile.
  - by eexists.
Defined.

